(** * lilua: a single-pass compiler and its register-based virtual machine

    Shallow embedding of the latest iteration of the compiler
    (the first program of [src/unnamed/part_000], with the values of
    [src/unnamed/part_002]) and proofs of its specification.

    - JavaScript numbers are IEEE-754 binary64 floats: [spec_float] with
      precision 53 and exponent bound 1024.
    - Operand references, register indices and the program counter are
      integers ([Z]).
    - A thrown [Error] is an explicit outcome.  The virtual machine is a
      mutable object, so a throwing call returns the state of the machine
      at the throw next to the error. *)

From Stdlib Require Import ZArith List String Bool Lia.
From Stdlib Require Import Floats.SpecFloat.
Import ListNotations.

Open Scope Z_scope.

(** ** JavaScript arrays *)

Module JS.

(** [arr[i]]: [None] stands for [undefined] (index outside the array). *)
Definition index {A : Type} (arr : list A) (i : Z) : option A :=
  if i <? 0 then None else nth_error arr (Z.to_nat i).

Fixpoint update {A : Type} (arr : list A) (n : nat) (v : A) : list A :=
  match arr, n with
  | [], _ => []
  | _ :: rest, O => v :: rest
  | x :: rest, S k => x :: update rest k v
  end.

(** [arr[i] = v] for [0 <= i]: an index past the end extends the array,
    the skipped positions read as [hole]. *)
Definition assign {A : Type} (hole : A) (arr : list A) (i : Z) (v : A) : list A :=
  let n := Z.to_nat i in
  if (n <? List.length arr)%nat then update arr n v
  else arr ++ repeat hole (n - List.length arr) ++ [v].

(** [arr.length] *)
Definition len {A : Type} (arr : list A) : Z := Z.of_nat (List.length arr).

End JS.

(** ** Values ([src/unnamed/part_002]) *)

Definition prec : Z := 53.
Definition emax : Z := 1024.

Inductive Value : Type :=
| Num (value : spec_float)
| Bool (value : bool)
| Nil.

Definition num : spec_float -> Value := Num.

(** The [type] field of a value. *)
Inductive vtype : Type := TNum | TBool | TNil.

Definition type_of (v : Value) : vtype :=
  match v with
  | Num _ => TNum
  | Bool _ => TBool
  | Nil => TNil
  end.

(** [veq]: values of different types are unequal; numbers and booleans are
    compared with [===] (on numbers the IEEE equality), [Nil] equals [Nil]. *)
Definition veq (a b : Value) : bool :=
  match a, b with
  | Num x, Num y => SFeqb x y
  | Bool x, Bool y => Bool.eqb x y
  | Nil, Nil => true
  | _, _ => false
  end.

(** The number [z] as a binary64 float. *)
Definition float_of_Z (z : Z) : spec_float := binary_normalize prec emax z 0 false.

(** ** Instructions, frames and the virtual machine *)

(** An instruction is its mnemonic with its operands; [A] is the type of
    operands ([Z] in a frame, a symbolic location in the generator). *)
Inductive instr (A : Type) : Type :=
| MOVE (a b : A)
| LOADK (a k : A)
| ADD (a b c : A).

Arguments MOVE {A} a b.
Arguments LOADK {A} a k.
Arguments ADD {A} a b c.

Definition instr_args {A : Type} (i : instr A) : list A :=
  match i with
  | MOVE a b => [a; b]
  | LOADK a k => [a; k]
  | ADD a b c => [a; b; c]
  end.

Definition instr_map {A B : Type} (f : A -> B) (i : instr A) : instr B :=
  match i with
  | MOVE a b => MOVE (f a) (f b)
  | LOADK a k => LOADK (f a) (f k)
  | ADD a b c => ADD (f a) (f b) (f c)
  end.

Record Frame : Type := mkFrameRecord {
  in_count : Z;
  out_count : Z;
  size : Z;
  consts : list Value;
  locals : list string;
  code : list (instr Z)
}.

(** What a register slot or a read can hold: [undefined], [null] or a value. *)
Inductive jsval : Type :=
| Undefined
| Null
| Val (v : Value).

(** The machine.  The fields [stack] and [regOffset] of the source are never
    read and are left out. *)
Record VM : Type := mkVM {
  fn : Frame;
  regs : list jsval;
  pc : Z
}.

Inductive RuntimeError : Type :=
| InvalidRegisterIndex (i : Z)   (* Error: Invalid register index i *)
| InvalidConstantIndex (i : Z)   (* Error: Invalid constant index i *)
| ExpectedNumber (got : vtype)   (* Error: Expected a number, got t *)
| NullishAccess                  (* TypeError: property read on null or undefined *)
| InvalidArrayLength.            (* RangeError: Invalid array length *)

Inductive outcome (A : Type) : Type :=
| Returned (a : A)
| Threw (e : RuntimeError).

Arguments Returned {A} a.
Arguments Threw {A} e.

(** A method of the machine: it returns or throws, and leaves a machine. *)
Definition M (A : Type) : Type := VM -> outcome A * VM.

Definition ret {A : Type} (a : A) : M A := fun vm => (Returned a, vm).

Definition throw {A : Type} (e : RuntimeError) : M A := fun vm => (Threw e, vm).

Definition bind {A B : Type} (m : M A) (k : A -> M B) : M B :=
  fun vm =>
    match m vm with
    | (Returned a, vm') => k a vm'
    | (Threw e, vm') => (Threw e, vm')
    end.

Declare Scope vm_scope.
Delimit Scope vm_scope with vm.
Notation "x <- m ;; k" := (bind m (fun x => k))
  (at level 61, m at next level, right associativity) : vm_scope.
Notation "m ;; k" := (bind m (fun _ => k))
  (at level 61, right associativity) : vm_scope.

Open Scope vm_scope.

(** [new VM(fn)]: [Array(fn.size)] throws a [RangeError] unless
    [0 <= fn.size < 2^32]; every slot is filled with [null]; [pc] is 0. *)
Definition VM_new (f : Frame) : outcome VM :=
  if (size f <? 0) || (2 ^ 32 <=? size f) then Threw InvalidArrayLength
  else Returned (mkVM f (repeat Null (Z.to_nat (size f))) 0).

Definition testRegIndex (i : Z) : M unit :=
  fun vm =>
    if (i <? 0) || (i >=? size (fn vm)) then throw (InvalidRegisterIndex i) vm
    else ret tt vm.

Definition testConstIndex (i : Z) : M unit :=
  fun vm =>
    let j := - i - 1 in
    if (j <? 0) || (j >=? JS.len (consts (fn vm))) then throw (InvalidConstantIndex i) vm
    else ret tt vm.

Definition read_reg (rs : list jsval) (i : Z) : jsval :=
  match JS.index rs i with
  | Some v => v
  | None => Undefined
  end.

Definition read_const (cs : list Value) (j : Z) : jsval :=
  match JS.index cs j with
  | Some v => Val v
  | None => Undefined
  end.

Definition getLocal (i : Z) : M jsval :=
  testRegIndex i ;;
  fun vm => ret (read_reg (regs vm) i) vm.

Definition setLocal (i : Z) (value : jsval) : M unit :=
  testRegIndex i ;;
  fun vm => ret tt (mkVM (fn vm) (JS.assign Undefined (regs vm) i value) (pc vm)).

Definition getConst (i : Z) : M jsval :=
  testConstIndex i ;;
  fun vm => ret (read_const (consts (fn vm)) (- i - 1)) vm.

Definition getVal (i : Z) : M jsval :=
  if i <? 0 then getConst i else getLocal i.

(** [vm.pc++] *)
Definition incr_pc : M unit :=
  fun vm => ret tt (mkVM (fn vm) (regs vm) (pc vm + 1)).

(** [checkNum(x)]: reading [x.type] throws a [TypeError] on [null] and
    [undefined]; a value that is not a number is rejected.  The payload of
    the number is returned for the [x.value] that follows. *)
Definition checkNum (x : jsval) : M spec_float :=
  match x with
  | Undefined | Null => throw NullishAccess
  | Val (Num f) => ret f
  | Val v => throw (ExpectedNumber (type_of v))
  end.

(** The [do] closure of an instruction. *)
Definition instr_do (i : instr Z) : M unit :=
  match i with
  | MOVE a b =>
      v <- getVal b ;;
      setLocal a v ;;
      incr_pc
  | LOADK a k =>
      v <- getConst k ;;
      setLocal a v ;;
      incr_pc
  | ADD a b c =>
      vb <- getVal b ;;
      vc <- getVal c ;;
      x <- checkNum vb ;;
      y <- checkNum vc ;;
      setLocal a (Val (num (SFadd prec emax x y))) ;;
      incr_pc
  end.

(** [Frame.getInstr]: [null] at or past the end of the code, the
    instruction otherwise ([undefined] for a negative counter). *)
Inductive fetched : Type :=
| FNull
| FUndefined
| FInstr (i : instr Z).

Definition getInstr (f : Frame) (pc : Z) : fetched :=
  if pc >=? JS.len (code f) then FNull
  else match JS.index (code f) pc with
       | Some i => FInstr i
       | None => FUndefined
       end.

Definition step : M bool :=
  fun vm =>
    match getInstr (fn vm) (pc vm) with
    | FNull => ret false vm
    | FUndefined => throw NullishAccess vm
    | FInstr i => (instr_do i ;; ret true) vm
    end.

(** [n] successive calls of [step], with the value each one returned. *)
Fixpoint step_n (n : nat) : M (list bool) :=
  match n with
  | O => ret []
  | S k =>
      b <- step ;;
      bs <- step_n k ;;
      ret (b :: bs)
  end.

(** ** Code generator *)

(** A location object of the generator: [{type: "temp", index}],
    [{type: "local", index}] or [{type: "const", value}]. *)
Inductive loc : Type :=
| LTemp (index : Z)
| LLocal (index : Z)
| LConst (value : Z).

(** Where the source holds a location object or [null]/[undefined]
    ([gen.lhs] outside any [withLHS], [pop] of an empty stack). *)
Definition ref : Type := option loc.

Inductive CompileError : Type :=
| AlreadyDefined (name : string)   (* Error: Variable name is already defined *)
| NotDefined (name : string)       (* Error: Variable name is not defined *)
| EmptyBlock                       (* Error: Empty block *)
| NullishLocation.                 (* TypeError: [.type] read on null or undefined *)

Inductive result (A : Type) : Type :=
| OK (a : A)
| Err (e : CompileError).

Arguments OK {A} a.
Arguments Err {A} e.

Module CodeGen.

Record t : Type := mk {
  consts : list Value;        (* constants *)
  code : list (instr ref);    (* instructions, with their symbolic arguments *)
  locals : list string;       (* names of locals *)
  tempCount : Z;              (* temporary variables in use *)
  maxTemp : Z;                (* highest temporary index emitted *)
  stack : list ref;           (* stack for return values, top first *)
  lhs : ref
}.

(** [new CodeGen()] *)
Definition new : t := mk [] [] [] 0 (-1) [] None.

(** A generator method: it returns a value and the generator, or throws
    (the generator is then abandoned by [compile]). *)
Definition G (A : Type) : Type := t -> result (A * t).

Definition ret {A : Type} (a : A) : G A := fun g => OK (a, g).

Definition throw {A : Type} (e : CompileError) : G A := fun _ => Err e.

Definition bind {A B : Type} (m : G A) (k : A -> G B) : G B :=
  fun g =>
    match m g with
    | OK (a, g') => k a g'
    | Err e => Err e
    end.

Definition pushLocal (name : string) : G Z :=
  fun g =>
    let l := JS.len (locals g) in
    OK (l, mk (consts g) (code g) (locals g ++ [name]) (tempCount g) (maxTemp g)
              (stack g) (lhs g)).

Definition pushConst (value : Value) : G Z :=
  fun g =>
    let l := JS.len (consts g) in
    OK (- l - 1, mk (consts g ++ [value]) (code g) (locals g) (tempCount g) (maxTemp g)
                    (stack g) (lhs g)).

(** [gen.stack.push(r)] *)
Definition push (r : ref) : G unit :=
  fun g => OK (tt, mk (consts g) (code g) (locals g) (tempCount g) (maxTemp g)
                      (r :: stack g) (lhs g)).

(** [gen.stack.pop()]: [undefined] on an empty stack. *)
Definition pop : G ref :=
  fun g =>
    match stack g with
    | [] => OK (None, g)
    | r :: rest => OK (r, mk (consts g) (code g) (locals g) (tempCount g) (maxTemp g)
                             rest (lhs g))
    end.

Definition get_lhs : G ref := fun g => OK (lhs g, g).

Definition set_lhs (i : ref) : G unit :=
  fun g => OK (tt, mk (consts g) (code g) (locals g) (tempCount g) (maxTemp g)
                      (stack g) i).

Definition set_tempCount (n : Z) (g : t) : t :=
  mk (consts g) (code g) (locals g) n (maxTemp g) (stack g) (lhs g).

Definition withTemp (fn : loc -> G unit) : G unit :=
  fun g =>
    let g1 := set_tempCount (tempCount g + 1) g in
    match fn (LTemp (tempCount g1 - 1)) g1 with
    | OK (_, g2) => OK (tt, set_tempCount (tempCount g2 - 1) g2)
    | Err e => Err e
    end.

Definition updateMaxTemp (index : Z) : G unit :=
  fun g =>
    if index >? maxTemp g
    then OK (tt, mk (consts g) (code g) (locals g) (tempCount g) index (stack g) (lhs g))
    else OK (tt, g).

Definition withLHS {A : Type} (i : ref) (fn : G A) : G A :=
  bind get_lhs (fun old =>
  bind (set_lhs i) (fun _ =>
  bind fn (fun value =>
  bind (set_lhs old) (fun _ =>
  ret value)))).

(** The loop of [emit] over the arguments: [arg.type] throws on a null
    argument, a temporary raises [maxTemp]. *)
Fixpoint scan_args (args : list ref) : G unit :=
  match args with
  | [] => ret tt
  | None :: _ => throw NullishLocation
  | Some (LTemp index) :: rest => bind (updateMaxTemp index) (fun _ => scan_args rest)
  | Some _ :: rest => scan_args rest
  end.

Definition emit (i : instr ref) : G unit :=
  bind (scan_args (instr_args i)) (fun _ g =>
    OK (tt, mk (consts g) (code g ++ [i]) (locals g) (tempCount g) (maxTemp g)
               (stack g) (lhs g))).

(** The argument map of [mkFrame].  Its last case ([Unknown type]) needs a
    location object of a fourth kind, which no constructor builds; a null
    argument throws at [x.type]. *)
Definition resolve (nlocals : Z) (x : ref) : result Z :=
  match x with
  | Some (LTemp index) => OK (index + nlocals)
  | Some (LLocal index) => OK index
  | Some (LConst value) => OK value
  | None => Err NullishLocation
  end.

Definition resolve_instr (nlocals : Z) (i : instr ref) : result (instr Z) :=
  match i with
  | MOVE a b =>
      match resolve nlocals a, resolve nlocals b with
      | OK a', OK b' => OK (MOVE a' b')
      | Err e, _ | _, Err e => Err e
      end
  | LOADK a k =>
      match resolve nlocals a, resolve nlocals k with
      | OK a', OK k' => OK (LOADK a' k')
      | Err e, _ | _, Err e => Err e
      end
  | ADD a b c =>
      match resolve nlocals a, resolve nlocals b, resolve nlocals c with
      | OK a', OK b', OK c' => OK (ADD a' b' c')
      | Err e, _, _ | _, Err e, _ | _, _, Err e => Err e
      end
  end.

Fixpoint resolve_code (nlocals : Z) (c : list (instr ref)) : result (list (instr Z)) :=
  match c with
  | [] => OK []
  | i :: rest =>
      match resolve_instr nlocals i with
      | OK i' =>
          match resolve_code nlocals rest with
          | OK rest' => OK (i' :: rest')
          | Err e => Err e
          end
      | Err e => Err e
      end
  end.

Definition mkFrame (g : t) : result Frame :=
  let size := JS.len (locals g) + maxTemp g + 1 in
  match resolve_code (JS.len (locals g)) (code g) with
  | OK code' => OK (mkFrameRecord 0 0 size (consts g) (locals g) code')
  | Err e => Err e
  end.

End CodeGen.

Declare Scope gen_scope.
Delimit Scope gen_scope with gen.
Notation "x <- m ;; k" := (CodeGen.bind m (fun x => k))
  (at level 61, m at next level, right associativity) : gen_scope.
Notation "m ;; k" := (CodeGen.bind m (fun _ => k))
  (at level 61, right associativity) : gen_scope.

(** ** AST nodes *)

#[local] Unset Elimination Schemes.

Inductive Node : Type :=
| con (value : Value)
| add (lhs rhs : Node)
| leti (name : string) (value : Node)
| vari (name : string)
| set (name : string) (value : Node)
| block (body : list Node).

#[local] Set Elimination Schemes.

(** First index [i >= from] with [veq(consts[i], value)]. *)
Fixpoint find_const (from : Z) (cs : list Value) (value : Value) : option Z :=
  match cs with
  | [] => None
  | c :: rest => if veq c value then Some from else find_const (from + 1) rest value
  end.

(** First index [i >= from] with [locals[i] === name]. *)
Fixpoint find_local (from : Z) (names : list string) (name : string) : option Z :=
  match names with
  | [] => None
  | x :: rest => if String.eqb x name then Some from else find_local (from + 1) rest name
  end.

(** The tail shared by [leti] and [set] inside [withLHS]: pop the value
    location, load or move it into local [i] unless it is already there, and
    push the local. *)
Definition store_local (i : Z) : CodeGen.G unit :=
  (v <- CodeGen.pop ;;
   match v with
   | None => CodeGen.throw NullishLocation
   | Some (LConst _) => CodeGen.emit (LOADK (Some (LLocal i)) v)
   | Some (LLocal index) =>
       if index =? i then CodeGen.ret tt else CodeGen.emit (MOVE (Some (LLocal i)) v)
   | Some (LTemp _) => CodeGen.emit (MOVE (Some (LLocal i)) v)
   end ;;
   CodeGen.push (Some (LLocal i)))%gen.

(** The loop of [block] over the remaining expressions; [result] is the
    location popped after the previous one ([null] before the first). *)
Fixpoint block_loop (expr_do : Node -> CodeGen.G unit) (exprs : list Node) (result : ref)
  : CodeGen.G unit :=
  match exprs with
  | [] => CodeGen.push result
  | expr :: rest =>
      (expr_do expr ;; r <- CodeGen.pop ;; block_loop expr_do rest r)%gen
  end.

(** The [do] closure of a node. *)
Fixpoint node_do (n : Node) : CodeGen.G unit :=
  match n with
  | con value =>
      fun g =>
        match find_const 0 (CodeGen.consts g) value with
        | Some i => CodeGen.push (Some (LConst (- i - 1))) g
        | None => (c <- CodeGen.pushConst value ;; CodeGen.push (Some (LConst c)))%gen g
        end
  | add lhs rhs =>
      (node_do lhs ;;
       l <- CodeGen.pop ;;
       CodeGen.withTemp (fun t =>
         CodeGen.withLHS (Some t) (node_do rhs) ;;
         r <- CodeGen.pop ;;
         d <- CodeGen.get_lhs ;;
         CodeGen.emit (ADD d l r) ;;
         d' <- CodeGen.get_lhs ;;
         CodeGen.push d'))%gen
  | leti name value =>
      fun g =>
        match find_local 0 (CodeGen.locals g) name with
        | Some _ => Err (AlreadyDefined name)
        | None =>
            (i <- CodeGen.pushLocal name ;;
             CodeGen.withLHS (Some (LLocal i)) (node_do value ;; store_local i))%gen g
        end
  | vari name =>
      fun g =>
        match find_local 0 (CodeGen.locals g) name with
        | Some i => CodeGen.push (Some (LLocal i)) g
        | None => Err (NotDefined name)
        end
  | set name value =>
      fun g =>
        match find_local 0 (CodeGen.locals g) name with
        | Some i => CodeGen.withLHS (Some (LLocal i)) (node_do value ;; store_local i)%gen g
        | None => Err (NotDefined name)
        end
  | block body =>
      match body with
      | [] => CodeGen.throw EmptyBlock
      | _ => block_loop node_do body None
      end
  end.

Definition compile (node : Node) : result Frame :=
  match node_do node CodeGen.new with
  | OK (_, gen) => CodeGen.mkFrame gen
  | Err e => Err e
  end.

(** The program of the specification's execution example. *)
Definition example_tree : Node :=
  block [leti "a" (add (con (num (float_of_Z 2))) (con (num (float_of_Z 2))));
         leti "b" (add (con (num (float_of_Z 3))) (vari "a"))].

(** ** The constant node of the earlier iteration *)

Module Earlier.

(** [con] of [src/compiler.js], the iteration before the one above: the
    value is appended to the pool without a lookup. *)
Definition con_do (value : Value) : CodeGen.G unit :=
  (c <- CodeGen.pushConst value ;; CodeGen.push (Some (LConst c)))%gen.

End Earlier.

(** * Specification vocabulary *)

(** Induction on nodes, with the hypothesis for every expression of a block. *)
Section NodeInduction.

Variable P : Node -> Prop.
Hypothesis Hcon : forall value, P (con value).
Hypothesis Hadd : forall lhs rhs, P lhs -> P rhs -> P (add lhs rhs).
Hypothesis Hleti : forall name value, P value -> P (leti name value).
Hypothesis Hvari : forall name, P (vari name).
Hypothesis Hset : forall name value, P value -> P (set name value).
Hypothesis Hblock : forall body, Forall P body -> P (block body).

Fixpoint Node_ind (n : Node) : P n :=
  match n with
  | con value => Hcon value
  | add lhs rhs => Hadd lhs rhs (Node_ind lhs) (Node_ind rhs)
  | leti name value => Hleti name value (Node_ind value)
  | vari name => Hvari name
  | set name value => Hset name value (Node_ind value)
  | block body =>
      Hblock body
        ((fix all (l : list Node) : Forall P l :=
            match l with
            | [] => Forall_nil P
            | x :: rest => Forall_cons x (Node_ind x) (all rest)
            end) body)
  end.

End NodeInduction.

(** [SFeqb] holds exactly between two zeros, two infinities of the same
    sign and two identical finite numbers. *)
Definition same_float (x y : spec_float) : Prop :=
  match x, y with
  | S754_zero _, S754_zero _ => True
  | S754_infinity s, S754_infinity s' => s = s'
  | S754_finite s m e, S754_finite s' m' e' => s = s' /\ m = m' /\ e = e'
  | _, _ => False
  end.

(** The names declared by the [leti] nodes of a tree, in the order of the
    generation walk. *)
Fixpoint lets (n : Node) : list string :=
  match n with
  | con _ | vari _ => []
  | add lhs rhs => lets lhs ++ lets rhs
  | leti name value => name :: lets value
  | set _ value => lets value
  | block body => flat_map lets body
  end.

Definition declared (name : string) (env : list string) : bool :=
  existsb (String.eqb name) env.

(** No [vari] or [set] refers to an undefined name: every reference comes,
    in the order of the walk, after the [leti] of its name ([env] holds the
    names declared so far; a [leti] declares its name before its value). *)
Fixpoint well_scoped (n : Node) (env : list string) {struct n} : bool :=
  match n with
  | con _ => true
  | vari name => declared name env
  | add lhs rhs => well_scoped lhs env && well_scoped rhs (env ++ lets lhs)
  | leti name value => well_scoped value (env ++ [name])
  | set name value => declared name env && well_scoped value env
  | block body =>
      (fix go (exprs : list Node) (env : list string) : bool :=
         match exprs with
         | [] => true
         | expr :: rest => well_scoped expr env && go rest (env ++ lets expr)
         end) body env
  end.

(** No block of the tree is empty. *)
Fixpoint no_empty_block (n : Node) : bool :=
  match n with
  | con _ | vari _ => true
  | add lhs rhs => no_empty_block lhs && no_empty_block rhs
  | leti _ value | set _ value => no_empty_block value
  | block body =>
      match body with
      | [] => false
      | _ => forallb no_empty_block body
      end
  end.

(** Every [add] of the tree has a destination: it lies in the value of a
    [leti] or [set], or in the right operand of such an [add].  [dest] tells
    whether the node itself is generated under a destination. *)
Fixpoint has_dest (dest : bool) (n : Node) : bool :=
  match n with
  | con _ | vari _ => true
  | add lhs rhs => dest && has_dest dest lhs && has_dest true rhs
  | leti _ value | set _ value => has_dest true value
  | block body => forallb (has_dest dest) body
  end.

(** The highest index of a temporary among the arguments of the emitted
    instructions, [-1] when there is none. *)
Definition args_max (args : list ref) (m : Z) : Z :=
  fold_left (fun m a => match a with Some (LTemp index) => Z.max m index | _ => m end) args m.

Definition max_temp_index (c : list (instr ref)) : Z :=
  fold_left (fun m i => args_max (instr_args i) m) c (-1).

(** The number of temporary registers the emitted instructions need. *)
Definition temps_needed (c : list (instr ref)) : Z := max_temp_index c + 1.

(** Locations that make sense in a generator with [nl] locals and [nc]
    constants. *)
Definition valid_loc (nl nc : Z) (l : loc) : Prop :=
  match l with
  | LTemp index => 0 <= index
  | LLocal index => 0 <= index < nl
  | LConst value => 0 <= - value - 1 < nc
  end.

Definition valid_ref (nl nc : Z) (r : ref) : Prop :=
  match r with
  | Some l => valid_loc nl nc l
  | None => False
  end.

(** A destination is a valid local or temporary. *)
Definition valid_dest (nl nc : Z) (r : ref) : Prop :=
  match r with
  | Some (LConst _) | None => False
  | Some l => valid_loc nl nc l
  end.

Definition valid_const (nl nc : Z) (r : ref) : Prop :=
  match r with
  | Some (LConst value) => 0 <= - value - 1 < nc
  | _ => False
  end.

Definition instr_wf (nl nc : Z) (i : instr ref) : Prop :=
  match i with
  | MOVE a b => valid_dest nl nc a /\ valid_ref nl nc b
  | LOADK a k => valid_dest nl nc a /\ valid_const nl nc k
  | ADD a b c => valid_dest nl nc a /\ valid_ref nl nc b /\ valid_ref nl nc c
  end.

(** No two entries of a constant pool are equal under [veq]. *)
Definition pool_distinct (cs : list Value) : Prop :=
  forall i j a b,
    JS.index cs i = Some a -> JS.index cs j = Some b -> veq a b = true -> i = j.

(** The invariant of the generator during a walk. *)
Record gen_ok (g : CodeGen.t) : Prop := {
  ok_maxTemp : CodeGen.maxTemp g = max_temp_index (CodeGen.code g);
  ok_tempCount : 0 <= CodeGen.tempCount g;
  ok_code : Forall (instr_wf (JS.len (CodeGen.locals g)) (JS.len (CodeGen.consts g)))
                   (CodeGen.code g);
  ok_lhs : CodeGen.lhs g = None \/
           valid_dest (JS.len (CodeGen.locals g)) (JS.len (CodeGen.consts g)) (CodeGen.lhs g);
  ok_locals : NoDup (CodeGen.locals g);
  ok_consts : pool_distinct (CodeGen.consts g)
}.

(** What a returning [node_do n] did to the generator. *)
Record walked (n : Node) (g g' : CodeGen.t) : Prop := {
  w_lhs : CodeGen.lhs g' = CodeGen.lhs g;
  w_tempCount : CodeGen.tempCount g' = CodeGen.tempCount g;
  w_locals : CodeGen.locals g' = CodeGen.locals g ++ lets n;
  w_consts : exists extra, CodeGen.consts g' = CodeGen.consts g ++ extra;
  w_code : exists emitted, CodeGen.code g' = CodeGen.code g ++ emitted;
  w_stack : exists top,
      CodeGen.stack g' = Some top :: CodeGen.stack g /\
      valid_loc (JS.len (CodeGen.locals g')) (JS.len (CodeGen.consts g')) top
}.

(** An operand of a frame that refers to a register of the frame. *)
Definition register_operand (f : Frame) (z : Z) : Prop := 0 <= z < size f.

(** An operand of a frame that refers to an entry of its constant pool. *)
Definition constant_operand (f : Frame) (z : Z) : Prop :=
  z < 0 /\ - z - 1 < JS.len (consts f).

Definition value_operand (f : Frame) (z : Z) : Prop :=
  register_operand f z \/ constant_operand f z.

Definition instr_in_bounds (f : Frame) (i : instr Z) : Prop :=
  match i with
  | MOVE a b => register_operand f a /\ value_operand f b
  | LOADK a k => register_operand f a /\ constant_operand f k
  | ADD a b c => register_operand f a /\ value_operand f b /\ value_operand f c
  end.

(** A name occurs at least twice in a list of declarations. *)
Definition declared_twice (name : string) (names : list string) : Prop :=
  (2 <= count_occ string_dec names name)%nat.


(** A machine whose register file has the declared size. *)
Definition sized (vm : VM) : Prop := JS.len (regs vm) = size (fn vm).

(** The errors an executing instruction can throw (every one but the
    [RangeError] of the constructor). *)
Definition is_runtime_fault (e : RuntimeError) : Prop :=
  match e with
  | InvalidArrayLength => False
  | _ => True
  end.

(** A hand-built frame and machines over it, for concrete instances. *)
Definition demo_frame : Frame :=
  mkFrameRecord 0 0 2
    [num (float_of_Z 2); Bool true]
    ["a"%string; "b"%string]
    [LOADK 0 (-1); MOVE 1 0; ADD 1 1 (-1)].

Definition demo_vm : VM := mkVM demo_frame [Null; Null] 0.

(** A machine stopped in front of an addition whose right operand is the
    Boolean constant. *)
Definition demo_bad_add : VM :=
  mkVM (mkFrameRecord 0 0 2 [num (float_of_Z 2); Bool true] [] [ADD 0 (-1) (-2)])
       [Null; Null] 0.

Definition is_some {A : Type} (o : option A) : bool :=
  match o with
  | Some _ => true
  | None => false
  end.

(** The generator [g] with [maxTemp] raised over the temporaries of
    [args], and with instruction [i] appended. *)
Definition raised (args : list ref) (g : CodeGen.t) : CodeGen.t :=
  CodeGen.mk (CodeGen.consts g) (CodeGen.code g) (CodeGen.locals g) (CodeGen.tempCount g)
             (args_max args (CodeGen.maxTemp g)) (CodeGen.stack g) (CodeGen.lhs g).

Definition emitted (i : instr ref) (g : CodeGen.t) : CodeGen.t :=
  CodeGen.mk (CodeGen.consts g) (CodeGen.code g ++ [i]) (CodeGen.locals g)
             (CodeGen.tempCount g) (args_max (instr_args i) (CodeGen.maxTemp g))
             (CodeGen.stack g) (CodeGen.lhs g).

(** [max_temp_index] from an arbitrary start. *)
Definition code_max (c : list (instr ref)) (m : Z) : Z :=
  fold_left (fun m i => args_max (instr_args i) m) c m.

(** The generator with another destination, and with another stack. *)
Definition with_lhs (i : ref) (g : CodeGen.t) : CodeGen.t :=
  CodeGen.mk (CodeGen.consts g) (CodeGen.code g) (CodeGen.locals g) (CodeGen.tempCount g)
             (CodeGen.maxTemp g) (CodeGen.stack g) i.

Definition with_stack (s : list ref) (g : CodeGen.t) : CodeGen.t :=
  CodeGen.mk (CodeGen.consts g) (CodeGen.code g) (CodeGen.locals g) (CodeGen.tempCount g)
             (CodeGen.maxTemp g) s (CodeGen.lhs g).

(** What [node_do] is shown to do, as an induction hypothesis. *)
Definition walks (n : Node) : Prop :=
  forall (g g' : CodeGen.t) (u : unit),
    gen_ok g -> node_do n g = OK (u, g') -> gen_ok g' /\ walked n g g'.

(** [node_do n g] returns, or throws because a name is declared twice. *)
Definition generates (n : Node) (g : CodeGen.t) : Prop :=
  (exists u g', node_do n g = OK (u, g')) \/
  (exists x, node_do n g = Err (AlreadyDefined x) /\
             declared_twice x (CodeGen.locals g ++ lets n)).

(** On a tree with defined references, no empty block and a destination for
    every addition, a duplicate declaration is the only possible error. *)
Definition total (n : Node) : Prop :=
  forall g : CodeGen.t,
    gen_ok g ->
    well_scoped n (CodeGen.locals g) = true ->
    no_empty_block n = true ->
    has_dest (is_some (CodeGen.lhs g)) n = true ->
    generates n g.

(** The errors of the two bounds checks of the machine. *)
Definition is_bounds_error (e : RuntimeError) : Prop :=
  match e with
  | InvalidRegisterIndex _ | InvalidConstantIndex _ => True
  | _ => False
  end.

(** Small trees for concrete instances. *)
Definition two : Value := num (float_of_Z 2).

Definition three : Value := num (float_of_Z 3).

Definition redeclaring_tree : Node :=
  block [leti "a" (con two); leti "a" (con three)].

Definition shared_constant_tree : Node :=
  block [leti "a" (con two); leti "b" (con two)].

(** * Vocabulary of the further properties *)

(** The generator in which [add] generates its right operand: the stack
    as before the addition, one more temporary in use, that temporary as the
    destination ([g1] is the generator after the left operand). *)
Definition rhs_state (s : list ref) (g1 : CodeGen.t) : CodeGen.t :=
  with_lhs (Some (LTemp (CodeGen.tempCount g1)))
           (CodeGen.set_tempCount (CodeGen.tempCount g1 + 1) (with_stack s g1)).

(** The generator in which [leti] generates its value. *)
Definition leti_state (name : string) (g : CodeGen.t) : CodeGen.t :=
  with_lhs (Some (LLocal (JS.len (CodeGen.locals g))))
           (CodeGen.mk (CodeGen.consts g) (CodeGen.code g) (CodeGen.locals g ++ [name])
                       (CodeGen.tempCount g) (CodeGen.maxTemp g) (CodeGen.stack g)
                       (CodeGen.lhs g)).

(** The generator [g] with the instructions [em] appended (and [maxTemp]
    raised over their arguments), [top] pushed on the stack [s], and the
    destination and temporary counter of [g0]. *)
Definition finished (g0 g : CodeGen.t) (em : list (instr ref)) (top : ref) (s : list ref)
  : CodeGen.t :=
  CodeGen.mk (CodeGen.consts g) (CodeGen.code g ++ em) (CodeGen.locals g)
             (CodeGen.tempCount g0) (code_max em (CodeGen.maxTemp g))
             (top :: s) (CodeGen.lhs g0).

(** What [store_local i] emits for a value at [top]: nothing when the value
    is already in local [i], a [LOADK] for a constant, a [MOVE] otherwise. *)
Definition store_code (i : Z) (top : loc) : list (instr ref) :=
  match top with
  | LConst _ => [LOADK (Some (LLocal i)) (Some top)]
  | LLocal index => if index =? i then [] else [MOVE (Some (LLocal i)) (Some top)]
  | LTemp _ => [MOVE (Some (LLocal i)) (Some top)]
  end.

(** How deep additions nest in right operands: the number of temporaries
    [withTemp] has reserved at once. *)
Fixpoint temp_depth (n : Node) : Z :=
  match n with
  | con _ | vari _ => 0
  | add lhs rhs => Z.max (temp_depth lhs) (1 + temp_depth rhs)
  | leti _ value | set _ value => temp_depth value
  | block body => fold_right (fun expr d => Z.max (temp_depth expr) d) 0 body
  end.

(** The numbers of [add] nodes and of [leti] and [set] nodes of a tree. *)
Fixpoint count_adds (n : Node) : nat :=
  match n with
  | con _ | vari _ => 0
  | add lhs rhs => S (count_adds lhs + count_adds rhs)
  | leti _ value | set _ value => count_adds value
  | block body => fold_right (fun expr k => count_adds expr + k)%nat 0%nat body
  end.

Fixpoint count_stores (n : Node) : nat :=
  match n with
  | con _ | vari _ => 0
  | add lhs rhs => count_stores lhs + count_stores rhs
  | leti _ value | set _ value => S (count_stores value)
  | block body => fold_right (fun expr k => count_stores expr + k)%nat 0%nat body
  end.

(** The values of the [con] nodes of a tree, in the order of the walk. *)
Fixpoint constants (n : Node) : list Value :=
  match n with
  | con value => [value]
  | vari _ => []
  | add lhs rhs => constants lhs ++ constants rhs
  | leti _ value | set _ value => constants value
  | block body => flat_map constants body
  end.

Definition is_ADD {A : Type} (i : instr A) : bool :=
  match i with
  | ADD _ _ _ => true
  | _ => false
  end.

(** The number of [ADD] instructions of a code. *)
Definition count_ADD {A : Type} (c : list (instr A)) : nat :=
  List.length (filter is_ADD c).

(** A temporary location lies below [t]. *)
Definition temp_below (t : Z) (l : loc) : Prop :=
  match l with
  | LTemp index => index < t
  | _ => True
  end.

(** The destination, when it is a temporary, is one that is in use. *)
Definition lhs_in_use (g : CodeGen.t) : Prop :=
  match CodeGen.lhs g with
  | Some l => temp_below (CodeGen.tempCount g) l
  | None => True
  end.

(** A returning [node_do n] shows that [n] is clean at that point of the
    walk. *)
Definition clean_when_returning (n : Node) : Prop :=
  forall (g g' : CodeGen.t) (u : unit),
    gen_ok g -> node_do n g = OK (u, g') ->
    well_scoped n (CodeGen.locals g) = true /\
    no_empty_block n = true /\
    has_dest (is_some (CodeGen.lhs g)) n = true.

(** A returning [node_do n] emitted no temporary at or above
    [tempCount + temp_depth n], and a temporary it leaves on the stack is
    one that was in use before. *)
Definition temps_bounded (n : Node) : Prop :=
  forall (g g' : CodeGen.t) (u : unit),
    gen_ok g -> lhs_in_use g -> node_do n g = OK (u, g') ->
    CodeGen.maxTemp g' <= Z.max (CodeGen.maxTemp g) (CodeGen.tempCount g + temp_depth n - 1) /\
    forall top rest, CodeGen.stack g' = Some top :: rest ->
                     temp_below (CodeGen.tempCount g) top.

(** What a returning [node_do n] added to the code and to the pool: one
    [ADD] for every [add] node, at most one more instruction for every
    [leti] or [set], pool entries taken from the [con] nodes, and an entry
    for every [con] value that equals itself. *)
Definition accounted (n : Node) : Prop :=
  forall (g g' : CodeGen.t) (u : unit),
    gen_ok g -> node_do n g = OK (u, g') ->
    exists (em : list (instr ref)) (extra : list Value),
      CodeGen.code g' = CodeGen.code g ++ em /\
      CodeGen.consts g' = CodeGen.consts g ++ extra /\
      count_ADD em = count_adds n /\
      (List.length em <= count_adds n + count_stores n)%nat /\
      incl extra (constants n) /\
      (List.length extra <= List.length (constants n))%nat /\
      forall v, In v (constants n) -> veq v v = true ->
                exists c, In c (CodeGen.consts g') /\ veq c v = true.

(** ** The environment class of the values module *)

Module Env.

(** The [Map] of an environment: its entries in insertion order. *)
Definition t (V : Type) : Type := list (string * V).

(** [new Env()] *)
Definition new {V : Type} : t V := [].

(** [this.variables.set(name, value)]: an existing key keeps its place and
    takes the new value, a new key is added at the end. *)
Fixpoint set {V : Type} (name : string) (value : V) (variables : t V) : t V :=
  match variables with
  | [] => [(name, value)]
  | (k, v) :: rest =>
      if String.eqb k name then (k, value) :: rest
      else (k, v) :: set name value rest
  end.

(** [this.variables.has(name)] *)
Fixpoint has {V : Type} (name : string) (variables : t V) : bool :=
  match variables with
  | [] => false
  | (k, _) :: rest => String.eqb k name || has name rest
  end.

(** [this.variables.get(name)]: [None] stands for [undefined]. *)
Fixpoint lookup {V : Type} (name : string) (variables : t V) : option V :=
  match variables with
  | [] => None
  | (k, v) :: rest => if String.eqb k name then Some v else lookup name rest
  end.

Inductive outcome (V : Type) : Type :=
| Found (value : option V)
| NotDefinedError (name : string).   (* Error: Variable name is not defined *)

Arguments Found {V} value.
Arguments NotDefinedError {V} name.

(** [Env.get] *)
Definition get {V : Type} (name : string) (variables : t V) : outcome V :=
  if negb (has name variables) then NotDefinedError name
  else Found (lookup name variables).

End Env.

(** ** Display text of a node *)

(** [node.toString()].  [mkNode] stores [() => toString(...args)]; [con]
    and [add] are made without a [toString] argument, so calling theirs
    throws a [TypeError] ([None]).  A template literal and [join] call the
    [toString] of the nodes they hold. *)
Fixpoint node_toString (n : Node) : option string :=
  match n with
  | con _ | add _ _ => None
  | leti name value =>
      match node_toString value with
      | Some s => Some ("let " ++ name ++ " = " ++ s)%string
      | None => None
      end
  | vari name => Some name
  | set name value =>
      match node_toString value with
      | Some s => Some (name ++ " = " ++ s)%string
      | None => None
      end
  | block body =>
      match (fix texts (exprs : list Node) : option (list string) :=
               match exprs with
               | [] => Some []
               | expr :: rest =>
                   match node_toString expr, texts rest with
                   | Some s, Some ss => Some (s :: ss)
                   | _, _ => None
                   end
               end) body with
      | Some ss => Some ("{ " ++ String.concat "; " ss ++ " }")%string
      | None => None
      end
  end.

(** A tree without [con] and [add] nodes. *)
Fixpoint renderable (n : Node) : bool :=
  match n with
  | con _ | add _ _ => false
  | vari _ => true
  | leti _ value | set _ value => renderable value
  | block body => forallb renderable body
  end.

(** ** The generator of the earlier iteration ([src/compiler.js]) *)

Module Iteration3.

(** An argument passed to [emit]: a location object (or null), or the bare
    register number that [leti] and [set] pass as destination. *)
Inductive arg : Type :=
| ARef (r : ref)
| ARaw (i : Z).

Inductive Error : Type :=
| AlreadyDefined (name : string)   (* Error: Variable name is already defined *)
| NotDefined (name : string)       (* Error: Variable name is not defined *)
| EmptyBlock                       (* Error: Empty block *)
| NullishLocation                  (* TypeError: [.type] read on null or undefined *)
| UnknownType.                     (* Error: Unknown type undefined in instruction arguments *)

Inductive result (A : Type) : Type :=
| OK (a : A)
| Err (e : Error).

Arguments OK {A} a.
Arguments Err {A} e.

Record t : Type := mk {
  consts : list Value;
  code : list (instr arg);
  locals : list string;
  tempCount : Z;
  maxTemp : Z;       (* maximum number of temporary variables *)
  stack : list ref;
  lhs : ref
}.

(** [new CodeGen()]: here [maxTemp] starts at 0. *)
Definition new : t := mk [] [] [] 0 0 [] None.

Definition G (A : Type) : Type := t -> result (A * t).

Definition ret {A : Type} (a : A) : G A := fun g => OK (a, g).

Definition throw {A : Type} (e : Error) : G A := fun _ => Err e.

Definition bind {A B : Type} (m : G A) (k : A -> G B) : G B :=
  fun g =>
    match m g with
    | OK (a, g') => k a g'
    | Err e => Err e
    end.

Definition pushLocal (name : string) : G Z :=
  fun g =>
    OK (JS.len (locals g),
        mk (consts g) (code g) (locals g ++ [name]) (tempCount g) (maxTemp g)
           (stack g) (lhs g)).

Definition pushConst (value : Value) : G Z :=
  fun g =>
    OK (- JS.len (consts g) - 1,
        mk (consts g ++ [value]) (code g) (locals g) (tempCount g) (maxTemp g)
           (stack g) (lhs g)).

Definition push (r : ref) : G unit :=
  fun g => OK (tt, mk (consts g) (code g) (locals g) (tempCount g) (maxTemp g)
                      (r :: stack g) (lhs g)).

Definition pop : G ref :=
  fun g =>
    match stack g with
    | [] => OK (None, g)
    | r :: rest => OK (r, mk (consts g) (code g) (locals g) (tempCount g) (maxTemp g)
                             rest (lhs g))
    end.

Definition get_lhs : G ref := fun g => OK (lhs g, g).

Definition set_lhs (i : ref) : G unit :=
  fun g => OK (tt, mk (consts g) (code g) (locals g) (tempCount g) (maxTemp g)
                      (stack g) i).

(** [withTemp]: the counter is raised, [maxTemp] follows it, and the
    counter is lowered when [fn] has returned. *)
Definition withTemp (fn : loc -> G unit) : G unit :=
  fun g =>
    let count := tempCount g + 1 in
    let g1 := mk (consts g) (code g) (locals g) count
                 (if count >? maxTemp g then count else maxTemp g) (stack g) (lhs g) in
    match fn (LTemp (count - 1)) g1 with
    | OK (_, g2) =>
        OK (tt, mk (consts g2) (code g2) (locals g2) (tempCount g2 - 1) (maxTemp g2)
                   (stack g2) (lhs g2))
    | Err e => Err e
    end.

Definition withLHS {A : Type} (i : ref) (fn : G A) : G A :=
  bind get_lhs (fun old =>
  bind (set_lhs i) (fun _ =>
  bind fn (fun value =>
  bind (set_lhs old) (fun _ =>
  ret value)))).

(** [emit] only appends. *)
Definition emit (i : instr arg) : G unit :=
  fun g => OK (tt, mk (consts g) (code g ++ [i]) (locals g) (tempCount g) (maxTemp g)
                      (stack g) (lhs g)).

(** The argument map of [mkFrame]: a bare number has no [type] and reaches
    the final [throw]. *)
Definition resolve (nlocals : Z) (x : arg) : result Z :=
  match x with
  | ARef (Some (LTemp index)) => OK (index + nlocals)
  | ARef (Some (LLocal index)) => OK index
  | ARef (Some (LConst value)) => OK value
  | ARef None => Err NullishLocation
  | ARaw _ => Err UnknownType
  end.

(** The arguments are mapped from left to right: the first one that
    throws decides the error. *)
Definition resolve_instr (nlocals : Z) (i : instr arg) : result (instr Z) :=
  match i with
  | MOVE a b =>
      match resolve nlocals a, resolve nlocals b with
      | OK a', OK b' => OK (MOVE a' b')
      | Err e, _ | _, Err e => Err e
      end
  | LOADK a k =>
      match resolve nlocals a, resolve nlocals k with
      | OK a', OK k' => OK (LOADK a' k')
      | Err e, _ | _, Err e => Err e
      end
  | ADD a b c =>
      match resolve nlocals a, resolve nlocals b, resolve nlocals c with
      | OK a', OK b', OK c' => OK (ADD a' b' c')
      | Err e, _, _ | _, Err e, _ | _, _, Err e => Err e
      end
  end.

Fixpoint resolve_code (nlocals : Z) (c : list (instr arg)) : result (list (instr Z)) :=
  match c with
  | [] => OK []
  | i :: rest =>
      match resolve_instr nlocals i with
      | OK i' =>
          match resolve_code nlocals rest with
          | OK rest' => OK (i' :: rest')
          | Err e => Err e
          end
      | Err e => Err e
      end
  end.

Definition mkFrame (g : t) : result Frame :=
  let size := JS.len (locals g) + maxTemp g in
  match resolve_code (JS.len (locals g)) (code g) with
  | OK code' => OK (mkFrameRecord 0 0 size (consts g) (locals g) code')
  | Err e => Err e
  end.

(** The tail of [leti] and [set]: the destination passed to [emit] is the
    number [i], not the location object. *)
Definition store_local (i : Z) : G unit :=
  bind pop (fun v =>
  bind (match v with
        | None => throw NullishLocation
        | Some (LConst _) => emit (LOADK (ARaw i) (ARef v))
        | Some (LLocal index) =>
            if index =? i then ret tt else emit (MOVE (ARaw i) (ARef v))
        | Some (LTemp _) => emit (MOVE (ARaw i) (ARef v))
        end) (fun _ =>
  push (Some (LLocal i)))).

Fixpoint block_loop (expr_do : Node -> G unit) (exprs : list Node) (result : ref)
  : G unit :=
  match exprs with
  | [] => push result
  | expr :: rest =>
      bind (expr_do expr) (fun _ => bind pop (fun r => block_loop expr_do rest r))
  end.

Fixpoint node_do (n : Node) : G unit :=
  match n with
  | con value => bind (pushConst value) (fun c => push (Some (LConst c)))
  | add lhs rhs =>
      bind (node_do lhs) (fun _ =>
      bind pop (fun l =>
      withTemp (fun t =>
        bind (withLHS (Some t) (node_do rhs)) (fun _ =>
        bind pop (fun r =>
        bind get_lhs (fun d =>
        bind (emit (ADD (ARef d) (ARef l) (ARef r))) (fun _ =>
        bind get_lhs (fun d' =>
        push d'))))))))
  | leti name value =>
      fun g =>
        match find_local 0 (locals g) name with
        | Some _ => Err (AlreadyDefined name)
        | None =>
            bind (pushLocal name) (fun i =>
              withLHS (Some (LLocal i))
                      (bind (node_do value) (fun _ => store_local i))) g
        end
  | vari name =>
      fun g =>
        match find_local 0 (locals g) name with
        | Some i => push (Some (LLocal i)) g
        | None => Err (NotDefined name)
        end
  | set name value =>
      fun g =>
        match find_local 0 (locals g) name with
        | Some i =>
            withLHS (Some (LLocal i)) (bind (node_do value) (fun _ => store_local i)) g
        | None => Err (NotDefined name)
        end
  | block body =>
      match body with
      | [] => throw EmptyBlock
      | _ => block_loop node_do body None
      end
  end.

Definition compile (node : Node) : result Frame :=
  match node_do node new with
  | OK (_, gen) => mkFrame gen
  | Err e => Err e
  end.

(** What a returning walk of the earlier generator did. *)
Record walked (n : Node) (g g' : t) : Prop := {
  w_tempCount : tempCount g' = tempCount g;
  w_maxTemp : maxTemp g' = Z.max (maxTemp g) (tempCount g + temp_depth n);
  w_consts : consts g' = consts g ++ constants n;
  w_locals : locals g' = locals g ++ lets n;
  w_code : exists em, code g' = code g ++ em /\
                      Forall (fun i => is_ADD i = true \/
                                       exists i0 rest, instr_args i = ARaw i0 :: rest) em
}.

Definition walks (n : Node) : Prop :=
  forall (g g' : t) (u : unit),
    tempCount g <= maxTemp g -> node_do n g = OK (u, g') -> walked n g g'.

End Iteration3.


(** * Further vocabulary and instances for the claims *)

(** Equality of two values as [veq] decides it: the same type tag and
    payloads that are [===].  On numbers this identifies the two zeros, and
    NaN equals no number, itself included. *)
Definition same_value (a b : Value) : Prop :=
  match a, b with
  | Num x, Num y => same_float x y
  | Bool x, Bool y => x = y
  | Nil, Nil => True
  | _, _ => False
  end.

Definition one : Value := num (float_of_Z 1).

Definition four : Value := num (float_of_Z 4).

(** Nested sums with a declaration in between: [withTemp] reserves the
    temporaries 0, 1 and 2, and the instructions name temporary 1 only. *)
Definition nested_sum_tree : Node :=
  leti "a" (add (con one) (leti "b" (add (con two) (add (con three) (con four))))).

(** A second declaration of [a] behind a reference to an undefined name. *)
Definition detour_tree : Node :=
  block [leti "a" (vari "zz"); leti "a" (con two)].

(** The same constant twice in one sum. *)
Definition twice_two_tree : Node := leti "a" (add (con two) (con two)).

(** A machine over [demo_frame] whose registers hold values. *)
Definition loaded_vm : VM := mkVM demo_frame [Val two; Val (Bool true)] 1.
(** * Properties of the virtual machine *)

Section MachineFacts.

Lemma index_in_range {A : Type} (arr : list A) (i : Z) :
  0 <= i < JS.len arr -> exists x, JS.index arr i = Some x.
Proof.
  unfold JS.index, JS.len. intros Hi.
  destruct (Z.ltb_spec i 0); [lia|].
  destruct (nth_error arr (Z.to_nat i)) eqn:E; [eauto|].
  apply nth_error_None in E. lia.
Qed.

Lemma update_length {A : Type} (arr : list A) (n : nat) (v : A) :
  List.length (JS.update arr n v) = List.length arr.
Proof.
  revert n. induction arr as [|x rest IH]; intros [|k]; simpl; auto.
Qed.

Lemma assign_length_in_range (arr : list jsval) (i : Z) (v : jsval) :
  0 <= i < JS.len arr -> JS.len (JS.assign Undefined arr i v) = JS.len arr.
Proof.
  unfold JS.assign, JS.len. intros Hi.
  destruct (Nat.ltb_spec (Z.to_nat i) (List.length arr)); [|lia].
  now rewrite update_length.
Qed.

Lemma testRegIndex_cases (i : Z) (vm : VM) :
  (0 <= i < size (fn vm) /\ testRegIndex i vm = (Returned tt, vm)) \/
  ((i < 0 \/ size (fn vm) <= i) /\ testRegIndex i vm = (Threw (InvalidRegisterIndex i), vm)).
Proof.
  unfold testRegIndex, throw, ret.
  destruct (Z.ltb_spec i 0); destruct (Z.geb_spec i (size (fn vm))); simpl;
    solve [left; split; [lia|reflexivity] | right; split; [lia|reflexivity]].
Qed.

Lemma testConstIndex_cases (i : Z) (vm : VM) :
  (0 <= - i - 1 < JS.len (consts (fn vm)) /\ testConstIndex i vm = (Returned tt, vm)) \/
  ((0 <= i \/ JS.len (consts (fn vm)) <= - i - 1) /\
   testConstIndex i vm = (Threw (InvalidConstantIndex i), vm)).
Proof.
  unfold testConstIndex, throw, ret. cbv zeta.
  destruct (Z.ltb_spec (- i - 1) 0);
    destruct (Z.geb_spec (- i - 1) (JS.len (consts (fn vm)))); simpl;
    solve [left; split; [lia|reflexivity] | right; split; [lia|reflexivity]].
Qed.

(** Reads never change the machine. *)
Lemma getLocal_pure (i : Z) (vm vm' : VM) (o : outcome jsval) :
  getLocal i vm = (o, vm') -> vm' = vm.
Proof.
  unfold getLocal, bind.
  destruct (testRegIndex_cases i vm) as [[_ E]|[_ E]]; rewrite E; unfold ret;
    intros H; now inversion H.
Qed.

Lemma getConst_pure (i : Z) (vm vm' : VM) (o : outcome jsval) :
  getConst i vm = (o, vm') -> vm' = vm.
Proof.
  unfold getConst, bind.
  destruct (testConstIndex_cases i vm) as [[_ E]|[_ E]]; rewrite E; unfold ret;
    intros H; now inversion H.
Qed.

Lemma getVal_pure (i : Z) (vm vm' : VM) (o : outcome jsval) :
  getVal i vm = (o, vm') -> vm' = vm.
Proof.
  unfold getVal. destruct (i <? 0); eauto using getConst_pure, getLocal_pure.
Qed.

Lemma checkNum_pure (x : jsval) (vm vm' : VM) (o : outcome spec_float) :
  checkNum x vm = (o, vm') -> vm' = vm.
Proof.
  destruct x as [| |[f|b|]]; simpl; unfold throw, ret; intros H; now inversion H.
Qed.

(** A store either throws on the untouched machine or writes one slot. *)
Lemma setLocal_cases (i : Z) (v : jsval) (vm : VM) :
  (0 <= i < size (fn vm) /\
   setLocal i v vm = (Returned tt, mkVM (fn vm) (JS.assign Undefined (regs vm) i v) (pc vm))) \/
  ((i < 0 \/ size (fn vm) <= i) /\ setLocal i v vm = (Threw (InvalidRegisterIndex i), vm)).
Proof.
  unfold setLocal, bind.
  destruct (testRegIndex_cases i vm) as [[Hi E]|[Hi E]]; rewrite E; [left|right];
    split; auto.
Qed.

(** A store followed by [pc++]: on a throw nothing has changed, otherwise
    the frame is the same, the counter advanced by one and the register
    file kept its size. *)
Lemma store_and_advance (i : Z) (v : jsval) (vm vm' : VM) (o : outcome unit) :
  (setLocal i v ;; incr_pc) vm = (o, vm') ->
  match o with
  | Threw e => vm' = vm /\ e = InvalidRegisterIndex i
  | Returned _ =>
      fn vm' = fn vm /\ pc vm' = pc vm + 1 /\ (sized vm -> sized vm')
  end.
Proof.
  unfold bind.
  destruct (setLocal_cases i v vm) as [[Hi E]|[Hi E]]; rewrite E.
  - unfold incr_pc, ret. intros H. inversion H; subst; clear H. simpl.
    repeat split; auto. unfold sized. simpl. intros Hs.
    rewrite assign_length_in_range; lia.
  - intros H. inversion H; subst. auto.
Qed.

Lemma getConst_throw_kind (i : Z) (vm vm' : VM) (e : RuntimeError) :
  getConst i vm = (Threw e, vm') -> e = InvalidConstantIndex i.
Proof.
  unfold getConst, bind.
  destruct (testConstIndex_cases i vm) as [[_ E]|[_ E]]; rewrite E; unfold ret;
    intros H; now inversion H.
Qed.

Lemma getVal_throw_kind (i : Z) (vm vm' : VM) (e : RuntimeError) :
  getVal i vm = (Threw e, vm') ->
  e = InvalidRegisterIndex i \/ e = InvalidConstantIndex i.
Proof.
  unfold getVal, getConst, getLocal, bind.
  destruct (i <? 0).
  - destruct (testConstIndex_cases i vm) as [[_ E]|[_ E]]; rewrite E; unfold ret;
      intros H; inversion H; auto.
  - destruct (testRegIndex_cases i vm) as [[_ E]|[_ E]]; rewrite E; unfold ret;
      intros H; inversion H; auto.
Qed.

(** The effect of one instruction. *)
Lemma instr_do_effect (i : instr Z) (vm vm' : VM) (o : outcome unit) :
  instr_do i vm = (o, vm') ->
  match o with
  | Threw e => vm' = vm /\ is_runtime_fault e
  | Returned _ =>
      fn vm' = fn vm /\ pc vm' = pc vm + 1 /\ (sized vm -> sized vm')
  end.
Proof.
  destruct i as [a b|a k|a b c]; simpl.
  - unfold bind at 1. destruct (getVal b vm) as [[v|e] vm1] eqn:Eb;
      pose proof (getVal_pure _ _ _ _ Eb); subst vm1.
    + intros H. apply store_and_advance in H. destruct o; intuition (subst; simpl; auto).
    + intros H. inversion H; subst. split; auto.
      destruct (getVal_throw_kind _ _ _ _ Eb); subst; exact I.
  - unfold bind at 1. destruct (getConst k vm) as [[v|e] vm1] eqn:Ek;
      pose proof (getConst_pure _ _ _ _ Ek); subst vm1.
    + intros H. apply store_and_advance in H. destruct o; intuition (subst; simpl; auto).
    + intros H. inversion H; subst. split; auto.
      rewrite (getConst_throw_kind _ _ _ _ Ek). exact I.
  - unfold bind at 1. destruct (getVal b vm) as [[vb|e] vm1] eqn:Eb;
      pose proof (getVal_pure _ _ _ _ Eb); subst vm1.
    2:{ intros H. inversion H; subst. split; auto.
        destruct (getVal_throw_kind _ _ _ _ Eb); subst; exact I. }
    unfold bind at 1. destruct (getVal c vm) as [[vc|e] vm1] eqn:Ec;
      pose proof (getVal_pure _ _ _ _ Ec); subst vm1.
    2:{ intros H. inversion H; subst. split; auto.
        destruct (getVal_throw_kind _ _ _ _ Ec); subst; exact I. }
    unfold bind at 1. destruct (checkNum vb vm) as [[x|e] vm1] eqn:Ex;
      pose proof (checkNum_pure _ _ _ _ Ex); subst vm1.
    2:{ intros H. inversion H; subst. split; auto.
        destruct vb as [| |[f|bb|]]; simpl in Ex; unfold throw, ret in Ex;
          inversion Ex; exact I. }
    unfold bind at 1. destruct (checkNum vc vm) as [[y|e] vm1] eqn:Ey;
      pose proof (checkNum_pure _ _ _ _ Ey); subst vm1.
    2:{ intros H. inversion H; subst. split; auto.
        destruct vc as [| |[f|bb|]]; simpl in Ey; unfold throw, ret in Ey;
          inversion Ey; exact I. }
    intros H. apply store_and_advance in H. destruct o; intuition (subst; simpl; auto).
Qed.

End MachineFacts.

Section Stepping.

Lemma read_assign (rs : list jsval) (i : Z) (v : jsval) :
  0 <= i < JS.len rs -> read_reg (JS.assign Undefined rs i v) i = v.
Proof.
  unfold read_reg, JS.index, JS.assign, JS.len. intros Hi.
  destruct (Z.ltb_spec i 0); [lia|].
  destruct (Nat.ltb_spec (Z.to_nat i) (List.length rs)); [|lia].
  assert (Hn : (Z.to_nat i < List.length rs)%nat) by lia.
  clear - Hn. revert rs Hn. induction (Z.to_nat i) as [|k IH]; intros [|x rest] Hn;
    simpl in *; try lia; auto.
  apply IH. lia.
Qed.

Lemma step_at_end (vm : VM) :
  JS.len (code (fn vm)) <= pc vm -> step vm = (Returned false, vm).
Proof.
  intros H. unfold step, getInstr.
  destruct (Z.geb_spec (pc vm) (JS.len (code (fn vm)))); [reflexivity|lia].
Qed.

Lemma step_inside (vm : VM) :
  0 <= pc vm < JS.len (code (fn vm)) ->
  exists i, JS.index (code (fn vm)) (pc vm) = Some i /\
            step vm = (instr_do i ;; ret true) vm.
Proof.
  intros H. destruct (index_in_range (code (fn vm)) (pc vm) H) as [i Hi].
  exists i. split; [assumption|]. unfold step, getInstr.
  destruct (Z.geb_spec (pc vm) (JS.len (code (fn vm)))); [lia|].
  now rewrite Hi.
Qed.

(** One call of [step]: the frame is kept and so is the size of the
    register file; a throw leaves the machine as it was. *)
Lemma step_effect (vm vm' : VM) (o : outcome bool) :
  0 <= pc vm ->
  step vm = (o, vm') ->
  fn vm' = fn vm /\ (sized vm -> sized vm') /\
  match o with
  | Threw _ => vm' = vm
  | Returned b =>
      if b then pc vm < JS.len (code (fn vm)) /\ pc vm' = pc vm + 1
      else JS.len (code (fn vm)) <= pc vm /\ vm' = vm
  end.
Proof.
  intros Hpc Hs.
  destruct (Z.lt_ge_cases (pc vm) (JS.len (code (fn vm)))) as [Hlt|Hge].
  - destruct (step_inside vm (conj Hpc Hlt)) as (i & _ & E).
    rewrite E in Hs. unfold bind in Hs.
    destruct (instr_do i vm) as [[u|e] vm1] eqn:Ei; apply instr_do_effect in Ei.
    + unfold ret in Hs. inversion Hs; subst. intuition.
    + inversion Hs; subst. destruct Ei as [-> _]. intuition.
  - rewrite (step_at_end vm Hge) in Hs. inversion Hs; subst. intuition.
Qed.

Lemma step_n_sized (n : nat) (vm vm' : VM) (o : outcome (list bool)) :
  0 <= pc vm -> sized vm -> step_n n vm = (o, vm') ->
  fn vm' = fn vm /\ sized vm' /\ 0 <= pc vm'.
Proof.
  revert vm vm' o. induction n as [|k IH]; intros vm vm' o Hpc Hsz; simpl.
  - unfold ret. intros H. inversion H; subst. auto.
  - unfold bind at 1. destruct (step vm) as [[b|e] vm1] eqn:Es;
      destruct (step_effect _ _ _ Hpc Es) as (Hf & Hk & Hb).
    + assert (Hpc1 : 0 <= pc vm1).
      { destruct b; [lia|]. destruct Hb as [_ ->]. assumption. }
      unfold bind. destruct (step_n k vm1) as [[bs|e] vm2] eqn:En;
        destruct (IH _ _ _ Hpc1 (Hk Hsz) En) as (Hf2 & Hs2 & Hp2);
        unfold ret; intros H; inversion H; subst; rewrite <- Hf; auto.
    + intros H. inversion H; subst. auto.
  Qed.

(** While the counter stays inside the code every returning call returns
    [true] and advances the counter by one. *)
Lemma step_n_inside (k : nat) (vm vm' : VM) (bs : list bool) :
  0 <= pc vm ->
  pc vm + Z.of_nat k <= JS.len (code (fn vm)) ->
  step_n k vm = (Returned bs, vm') ->
  bs = repeat true k /\ pc vm' = pc vm + Z.of_nat k /\ fn vm' = fn vm.
Proof.
  revert vm vm' bs. induction k as [|k IH]; intros vm vm' bs Hpc Hle.
  - simpl. unfold ret. intros H. inversion H; subst. simpl. repeat split; lia.
  - simpl step_n. unfold bind at 1.
    destruct (step vm) as [[b|e] vm1] eqn:Es; [|discriminate].
    destruct (step_effect _ _ _ Hpc Es) as (Hf & _ & Hb).
    destruct b.
    + unfold bind. destruct (step_n k vm1) as [[bs1|e] vm2] eqn:En; [|discriminate].
      unfold ret. intros H. inversion H; subst.
      destruct (IH vm1 vm' bs1) as (-> & Hp & Hf2); auto; try lia.
      { rewrite Hf. lia. }
      simpl. repeat split; [lia|congruence].
    + lia.
Qed.

(** A halted machine stays halted. *)
Lemma step_n_halted (m : nat) (vm : VM) :
  JS.len (code (fn vm)) <= pc vm ->
  step_n m vm = (Returned (repeat false m), vm).
Proof.
  intros H. induction m as [|m IH]; simpl; [reflexivity|].
  unfold bind at 1. rewrite (step_at_end vm H).
  unfold bind. rewrite IH. reflexivity.
Qed.

End Stepping.

(** * The claims about the virtual machine *)


(** C3 — For a frame with [n] instructions that all execute without a
    runtime error, [step] on a fresh machine returns [true] exactly [n]
    times, the counter is then [n], and every later call returns [false]
    (and changes nothing). *)
Theorem step_true_n_times_then_false (f : Frame) (vm0 vm1 : VM) (bs : list bool) :
  VM_new f = Returned vm0 ->
  step_n (List.length (code f)) vm0 = (Returned bs, vm1) ->
  bs = repeat true (List.length (code f)) /\
  pc vm1 = JS.len (code f) /\
  forall m : nat, step_n m vm1 = (Returned (repeat false m), vm1).
Proof.
  unfold VM_new. intros Hnew Hrun.
  destruct ((size f <? 0) || (2 ^ 32 <=? size f)); [discriminate|].
  inversion Hnew; subst vm0; clear Hnew.
  apply step_n_inside in Hrun; [|simpl; lia|simpl; unfold JS.len; lia].
  destruct Hrun as (Hbs & Hpc & Hfn). simpl in Hpc, Hfn. repeat split; auto.
  intros m. apply step_n_halted. rewrite Hfn, Hpc. unfold JS.len. simpl. lia.
Qed.

Lemma step_true_n_times_then_false_witness :
  exists vm0 vm1 : VM,
    VM_new demo_frame = Returned vm0 /\
    step_n 3 vm0 = (Returned [true; true; true], vm1) /\
    pc vm1 = 3 /\
    step_n 2 vm1 = (Returned [false; false], vm1).
Proof.
  eexists. eexists.
  split; [reflexivity|].
  split; [vm_compute; reflexivity|].
  pose proof (step_true_n_times_then_false demo_frame _ _ _ eq_refl eq_refl) as (_ & Hpc & Hhalt).
  split; [exact Hpc | exact (Hhalt 2%nat)].
Defined.

(** C5 — [ADD a, b, c] reads both source operands.  If the first one
    resolves to a Boolean or to Nil the step throws the type error
    [Expected a number], and so it does if the first is a number and the
    second is a Boolean or Nil; the machine is untouched, nothing is coerced.
    If both are numbers the instruction stores their floating-point sum, as
    a new number, with [setLocal] into register [a] and advances the
    counter. *)
Theorem iADD_requires_numbers (vm : VM) (a b c : Z) (vb vc : jsval) :
  getVal b vm = (Returned vb, vm) ->
  getVal c vm = (Returned vc, vm) ->
  (forall v, vb = Val v -> type_of v <> TNum ->
     instr_do (ADD a b c) vm = (Threw (ExpectedNumber (type_of v)), vm)) /\
  (forall x v, vb = Val (Num x) -> vc = Val v -> type_of v <> TNum ->
     instr_do (ADD a b c) vm = (Threw (ExpectedNumber (type_of v)), vm)) /\
  (forall x y, vb = Val (Num x) -> vc = Val (Num y) ->
     instr_do (ADD a b c) vm
       = (setLocal a (Val (num (SFadd prec emax x y))) ;; incr_pc) vm /\
     (0 <= a < size (fn vm) ->
      instr_do (ADD a b c) vm
        = (Returned tt,
           mkVM (fn vm) (JS.assign Undefined (regs vm) a (Val (num (SFadd prec emax x y))))
                (pc vm + 1)) /\
      (sized vm ->
       read_reg (JS.assign Undefined (regs vm) a (Val (num (SFadd prec emax x y)))) a
         = Val (Num (SFadd prec emax x y))))).
Proof.
  intros Hb Hc. simpl instr_do. repeat split.
  - intros v -> Hv. unfold bind at 1. rewrite Hb. unfold bind at 1. rewrite Hc.
    unfold bind at 1. destruct v as [f|bb|]; simpl in *; try reflexivity; congruence.
  - intros x v -> -> Hv. unfold bind at 1. rewrite Hb. unfold bind at 1. rewrite Hc.
    unfold bind at 1. simpl. unfold bind at 1.
    destruct v as [f|bb|]; simpl in *; try reflexivity; congruence.
  - unfold bind at 1. rewrite Hb. unfold bind at 1. rewrite Hc. subst. reflexivity.
  - subst. unfold bind at 1. rewrite Hb. unfold bind at 1. rewrite Hc.
    unfold bind at 1. simpl. unfold bind at 1. simpl.
    unfold bind. destruct (setLocal_cases a (Val (num (SFadd prec emax x y))) vm)
      as [[_ E]|[Hi _]]; [rewrite E; reflexivity|lia].
  - intros Hs. apply read_assign. unfold sized in Hs. lia.
Qed.

Lemma iADD_requires_numbers_witness :
  instr_do (ADD 0 (-1) (-2)) demo_bad_add = (Threw (ExpectedNumber TBool), demo_bad_add) /\
  instr_do (ADD 0 (-1) (-1)) demo_bad_add
    = (Returned tt, mkVM (fn demo_bad_add) [Val (num (float_of_Z 4)); Null] 1).
Proof.
  split.
  - refine (proj1 (proj2 (iADD_requires_numbers demo_bad_add 0 (-1) (-2) _ _ eq_refl eq_refl))
                  _ _ eq_refl eq_refl _).
    simpl. discriminate.
  - refine (proj1 (proj2 (proj2 (proj2 (iADD_requires_numbers demo_bad_add 0 (-1) (-1) _ _
                                           eq_refl eq_refl)) _ _ eq_refl eq_refl) _)).
    simpl. lia.
Defined.

(** C6 — [getVal i] dispatches on the sign of [i]: a non-negative [i] is
    read with [getLocal] from register [i], a negative [i] with [getConst]
    from constant [-i - 1].  With [i] below the declared size the value
    returned is the element [regs[i]] of the register file; the element
    exists when the file has the declared size, and an array that is
    shorter reads [undefined].  The register index is checked against the
    declared size of the frame and the constant index against the length of
    the constant pool; an index out of range throws, and nothing is clamped
    or extended (the machine is unchanged). *)
Theorem getVal_dispatches_on_sign (vm : VM) (i : Z) :
  (0 <= i -> getVal i vm = getLocal i vm) /\
  (i < 0 -> getVal i vm = getConst i vm) /\
  (0 <= i < size (fn vm) ->
   (forall v, JS.index (regs vm) i = Some v -> getVal i vm = (Returned v, vm)) /\
   (JS.index (regs vm) i = None -> getVal i vm = (Returned Undefined, vm)) /\
   (sized vm ->
    exists v, JS.index (regs vm) i = Some v /\ getVal i vm = (Returned v, vm))) /\
  (0 <= i -> size (fn vm) <= i -> getVal i vm = (Threw (InvalidRegisterIndex i), vm)) /\
  (i < 0 -> - i - 1 < JS.len (consts (fn vm)) ->
   exists c, JS.index (consts (fn vm)) (- i - 1) = Some c /\
             getVal i vm = (Returned (Val c), vm)) /\
  (i < 0 -> JS.len (consts (fn vm)) <= - i - 1 ->
   getVal i vm = (Threw (InvalidConstantIndex i), vm)).
Proof.
  unfold getVal. destruct (Z.ltb_spec i 0) as [Hneg|Hpos].
  - split; [lia|]. split; [reflexivity|]. split; [lia|]. split; [lia|]. split.
    + intros _ Hlt. destruct (index_in_range (consts (fn vm)) (- i - 1)) as [c Hc]; [lia|].
      exists c. split; [assumption|]. unfold getConst, bind.
      destruct (testConstIndex_cases i vm) as [[_ E]|[Hi _]]; [|lia].
      rewrite E. unfold ret, read_const. now rewrite Hc.
    + intros _ Hge. unfold getConst, bind.
      destruct (testConstIndex_cases i vm) as [[Hi _]|[_ E]]; [lia|].
      now rewrite E.
  - split; [reflexivity|]. split; [lia|]. split; [|split; [|split; intros; lia]].
    + intros Hi.
      assert (E : getLocal i vm = (Returned (read_reg (regs vm) i), vm)).
      { unfold getLocal, bind.
        destruct (testRegIndex_cases i vm) as [[_ E]|[Hj _]]; [|lia].
        now rewrite E. }
      rewrite E. unfold read_reg. split; [|split].
      * intros v Hv. now rewrite Hv.
      * intros Hv. now rewrite Hv.
      * intros Hs. unfold sized in Hs.
        destruct (index_in_range (regs vm) i) as [v Hv]; [lia|].
        exists v. split; [assumption|]. now rewrite Hv.
    + intros _ Hge. unfold getLocal, bind.
      destruct (testRegIndex_cases i vm) as [[Hj _]|[_ E]]; [lia|].
      now rewrite E.
Qed.

Lemma getVal_dispatches_on_sign_witness :
  getVal 0 loaded_vm = (Returned (Val two), loaded_vm) /\
  getVal 1 loaded_vm = (Returned (Val (Bool true)), loaded_vm) /\
  getVal 2 loaded_vm = (Threw (InvalidRegisterIndex 2), loaded_vm) /\
  getVal (-2) loaded_vm = (Returned (Val (Bool true)), loaded_vm) /\
  getVal (-3) loaded_vm = (Threw (InvalidConstantIndex (-3)), loaded_vm).
Proof.
  assert (H0 : 0 <= 0 < size (fn loaded_vm)) by (simpl; lia).
  assert (H1 : 0 <= 1 < size (fn loaded_vm)) by (simpl; lia).
  split; [|split; [|split; [|split]]].
  - exact (proj1 (proj1 (proj2 (proj2 (getVal_dispatches_on_sign loaded_vm 0))) H0)
                 (Val two) eq_refl).
  - exact (proj1 (proj1 (proj2 (proj2 (getVal_dispatches_on_sign loaded_vm 1))) H1)
                 (Val (Bool true)) eq_refl).
  - apply (proj1 (proj2 (proj2 (proj2 (getVal_dispatches_on_sign loaded_vm 2)))));
      simpl; lia.
  - destruct (proj1 (proj2 (proj2 (proj2 (proj2 (getVal_dispatches_on_sign loaded_vm (-2)))))))
        as (c & Hc & E); [lia | unfold JS.len; simpl; lia |].
    vm_compute in Hc. injection Hc as Hc. subst c. exact E.
  - apply (proj2 (proj2 (proj2 (proj2 (proj2 (getVal_dispatches_on_sign loaded_vm (-3)))))));
      simpl; unfold JS.len; simpl; lia.
Defined.

(** C9, as stated, fails: the slots of a fresh machine hold [null], which
    is not the value [Nil]. *)
Lemma fresh_slots_are_not_Nil :
  ~ (forall (f : Frame) (vm : VM),
       VM_new f = Returned vm ->
       forall i, 0 <= i < size f -> JS.index (regs vm) i = Some (Val Nil)).
Proof.
  intros H.
  specialize (H demo_frame (mkVM demo_frame [Null; Null] 0) eq_refl 0).
  simpl in H. assert (H0 : 0 <= 0 < 2) by lia. specialize (H H0). discriminate H.
Qed.

(** C9 (amended) — The register file of a freshly constructed machine is an
    array of exactly the declared size of the frame in which every slot
    holds [null]; the counter is 0, and stepping never changes the length of
    the array. *)
Theorem fresh_registers_are_null (f : Frame) :
  0 <= size f < 2 ^ 32 ->
  exists vm : VM,
    VM_new f = Returned vm /\
    fn vm = f /\ pc vm = 0 /\
    JS.len (regs vm) = size f /\
    (forall i, 0 <= i < size f -> JS.index (regs vm) i = Some Null) /\
    (forall (n : nat) (o : outcome (list bool)) (vm' : VM),
        step_n n vm = (o, vm') -> JS.len (regs vm') = size f).
Proof.
  intros Hs. exists (mkVM f (repeat Null (Z.to_nat (size f))) 0).
  assert (Hlen : JS.len (repeat Null (Z.to_nat (size f))) = size f).
  { unfold JS.len. rewrite repeat_length. lia. }
  split.
  { unfold VM_new. destruct (Z.ltb_spec (size f) 0); [lia|].
    destruct (Z.leb_spec (2 ^ 32) (size f)); [lia|]. reflexivity. }
  simpl. repeat split; auto.
  - intros i Hi. destruct (index_in_range (repeat Null (Z.to_nat (size f))) i) as [x Hx];
      [lia|].
    rewrite Hx. f_equal. apply (repeat_spec (Z.to_nat (size f)) Null).
    unfold JS.index in Hx. destruct (i <? 0); [discriminate|].
    eapply nth_error_In; eassumption.
  - intros n o vm' Hrun. apply step_n_sized in Hrun; simpl; try lia.
    + destruct Hrun as (Hf & Hsz & _). unfold sized in Hsz. simpl in Hf. congruence.
    + exact Hlen.
Qed.

Lemma fresh_registers_are_null_witness :
  exists vm : VM,
    VM_new demo_frame = Returned vm /\ regs vm = [Null; Null] /\
    JS.index (regs vm) 1 = Some Null.
Proof.
  assert (Hs : 0 <= size demo_frame < 2 ^ 32) by (simpl; lia).
  destruct (fresh_registers_are_null demo_frame Hs) as (vm & Hnew & _ & _ & _ & Hnull & _).
  exists vm. split; [exact Hnew|]. split.
  - inversion Hnew. reflexivity.
  - apply Hnull. simpl. lia.
Defined.

(** C10 — When a [step] that executes an [ADD] throws (an operand
    reference out of bounds, an operand that is not a number, a destination
    out of bounds), it throws before any register is written and before the
    counter is advanced: the machine, its register file and its counter are
    what they were before the call. *)
Theorem failed_ADD_changes_nothing (vm vm' : VM) (a b c : Z) (e : RuntimeError) :
  getInstr (fn vm) (pc vm) = FInstr (ADD a b c) ->
  step vm = (Threw e, vm') ->
  vm' = vm /\ regs vm' = regs vm /\ pc vm' = pc vm /\ is_runtime_fault e.
Proof.
  intros Hfetch. unfold step. rewrite Hfetch. unfold bind.
  destruct (instr_do (ADD a b c) vm) as [[u|e'] vm1] eqn:Ei.
  - unfold ret. discriminate.
  - intros Hs. inversion Hs; subst. apply instr_do_effect in Ei.
    destruct Ei as [-> Hf]. auto.
Qed.

Lemma failed_ADD_changes_nothing_witness :
  step demo_bad_add = (Threw (ExpectedNumber TBool), demo_bad_add) /\
  regs demo_bad_add = [Null; Null] /\ pc demo_bad_add = 0.
Proof.
  destruct (step demo_bad_add) as [o vm'] eqn:Es.
  assert (Ho : o = Threw (ExpectedNumber TBool)) by (vm_compute in Es; congruence).
  subst o.
  destruct (failed_ADD_changes_nothing demo_bad_add vm' 0 (-1) (-2) _ eq_refl Es)
    as (-> & _ & _ & _).
  repeat split.
Defined.

(** * Properties of the code generator *)

Section ValueEquality.

Lemma SFeqb_same (x y : spec_float) : SFeqb x y = true <-> same_float x y.
Proof.
  assert (Hcont : forall m m', Pos.compare_cont Eq m m' = Eq <-> m = m').
  { intros m m'. split; [apply Pos.compare_eq|].
    intros ->. apply Pos.compare_cont_refl. }
  unfold SFeqb.
  destruct x as [s|s| |s m e], y as [s'|s'| |s' m' e']; simpl;
    try destruct s; try destruct s'; simpl;
    try (split; [discriminate|tauto]);
    try (split; [discriminate|intros H; discriminate H]);
    try (split; [discriminate|intros (H & _); discriminate H]);
    try (split; [reflexivity|reflexivity]); try tauto.
  all: destruct (Z.compare_spec e e') as [He|He|He];
    try (split; [discriminate|intros (_ & _ & H); lia]).
  all: subst e'; destruct (Pos.compare_cont Eq m m') eqn:Em; simpl;
    try (apply Hcont in Em; subst; tauto);
    split; try discriminate; intros (_ & Hm & _); apply Hcont in Hm; congruence.
Qed.

Lemma same_float_sym (x y : spec_float) : same_float x y -> same_float y x.
Proof.
  destruct x, y; simpl; intuition congruence.
Qed.

Lemma same_float_trans (x y z : spec_float) :
  same_float x y -> same_float y z -> same_float x z.
Proof.
  destruct x, y, z; simpl; intuition congruence.
Qed.

Lemma veq_sym (a b : Value) : veq a b = true -> veq b a = true.
Proof.
  destruct a as [x|x|], b as [y|y|]; simpl; try discriminate; auto.
  - rewrite !SFeqb_same. apply same_float_sym.
  - destruct x, y; auto.
Qed.

Lemma veq_trans (a b c : Value) : veq a b = true -> veq b c = true -> veq a c = true.
Proof.
  destruct a as [x|x|], b as [y|y|], c as [z|z|]; simpl; try discriminate; auto.
  - rewrite !SFeqb_same. apply same_float_trans.
  - destruct x, y, z; auto.
Qed.

(** Values equal under [veq] match the same pool entries. *)
Lemma veq_same_matches (v1 v2 c : Value) :
  veq v1 v2 = true -> veq c v1 = veq c v2.
Proof.
  intros H. destruct (veq c v1) eqn:E1.
  - symmetry. eapply veq_trans; eassumption.
  - destruct (veq c v2) eqn:E2; [|reflexivity].
    rewrite (veq_trans c v2 v1 E2 (veq_sym _ _ H)) in E1. discriminate.
Qed.

End ValueEquality.

Section GeneratorFacts.

Lemma bind_OK {A B : Type} (m : CodeGen.G A) (k : A -> CodeGen.G B)
      (g : CodeGen.t) (r : B * CodeGen.t) :
  CodeGen.bind m k g = OK r ->
  exists a g1, m g = OK (a, g1) /\ k a g1 = OK r.
Proof.
  unfold CodeGen.bind. destruct (m g) as [[a g1]|e]; [eauto|discriminate].
Qed.

Lemma eta (g : CodeGen.t) :
  CodeGen.mk (CodeGen.consts g) (CodeGen.code g) (CodeGen.locals g) (CodeGen.tempCount g)
             (CodeGen.maxTemp g) (CodeGen.stack g) (CodeGen.lhs g) = g.
Proof. now destruct g. Qed.

(** *** Searching the locals and the constant pool *)

Lemma find_local_range (from : Z) (names : list string) (x : string) (i : Z) :
  find_local from names x = Some i -> from <= i < from + JS.len names.
Proof.
  unfold JS.len. revert from. induction names as [|y rest IH]; intros from; simpl.
  - discriminate.
  - destruct (String.eqb y x).
    + intros H. inversion H. lia.
    + intros H. apply IH in H. lia.
Qed.

Lemma find_local_None (from : Z) (names : list string) (x : string) :
  find_local from names x = None <-> ~ In x names.
Proof.
  revert from. induction names as [|y rest IH]; intros from; simpl.
  - tauto.
  - destruct (String.eqb_spec y x) as [->|Hne].
    + split; [discriminate|]. intros H. exfalso. apply H. now left.
    + rewrite IH. tauto.
Qed.

Lemma find_local_Some (from : Z) (names : list string) (x : string) :
  In x names -> exists i, find_local from names x = Some i.
Proof.
  intros Hin. destruct (find_local from names x) eqn:E; [eauto|].
  apply find_local_None in E. contradiction.
Qed.

Lemma declared_In (x : string) (env : list string) : declared x env = true <-> In x env.
Proof.
  unfold declared. rewrite existsb_exists. split.
  - intros (y & Hy & E). apply String.eqb_eq in E. now subst.
  - intros H. exists x. split; [assumption|apply String.eqb_refl].
Qed.

Lemma find_const_Some (from : Z) (cs : list Value) (v : Value) (i : Z) :
  find_const from cs v = Some i ->
  from <= i < from + JS.len cs /\
  exists c, JS.index cs (i - from) = Some c /\ veq c v = true.
Proof.
  unfold JS.len. revert from. induction cs as [|c rest IH]; intros from; simpl.
  - discriminate.
  - destruct (veq c v) eqn:E.
    + intros H. inversion H; subst. split; [lia|].
      exists c. rewrite Z.sub_diag. auto.
    + intros H. apply IH in H. destruct H as (Hr & c' & Hc' & Hv). split; [lia|].
      exists c'. split; [|assumption].
      unfold JS.index in *. destruct (Z.ltb_spec (i - (from + 1)) 0); [discriminate|].
      destruct (Z.ltb_spec (i - from) 0); [lia|].
      replace (Z.to_nat (i - from)) with (S (Z.to_nat (i - (from + 1)))) by lia.
      exact Hc'.
Qed.

Lemma find_const_None (from : Z) (cs : list Value) (v : Value) :
  find_const from cs v = None -> forall c, In c cs -> veq c v = false.
Proof.
  revert from. induction cs as [|c rest IH]; intros from; simpl.
  - contradiction.
  - destruct (veq c v) eqn:E; [discriminate|].
    intros H c' [<-|Hin]; eauto.
Qed.

(** The first match is found in a prefix if it is there. *)
Lemma find_const_app (from : Z) (cs extra : list Value) (v : Value) (i : Z) :
  find_const from cs v = Some i -> find_const from (cs ++ extra) v = Some i.
Proof.
  revert from. induction cs as [|c rest IH]; intros from; simpl.
  - discriminate.
  - destruct (veq c v); auto.
Qed.

Lemma find_const_snoc (from : Z) (cs : list Value) (v : Value) :
  find_const from cs v = None -> veq v v = true ->
  find_const from (cs ++ [v]) v = Some (from + JS.len cs).
Proof.
  unfold JS.len. revert from. induction cs as [|c rest IH]; intros from; simpl.
  - intros _ ->. f_equal. lia.
  - destruct (veq c v); [discriminate|]. intros H Hv.
    rewrite (IH _ H Hv). f_equal. lia.
Qed.

Lemma find_const_ext (from : Z) (cs : list Value) (v1 v2 : Value) :
  veq v1 v2 = true -> find_const from cs v1 = find_const from cs v2.
Proof.
  intros H. revert from. induction cs as [|c rest IH]; intros from; simpl.
  - reflexivity.
  - rewrite (veq_same_matches v1 v2 c H). destruct (veq c v2); auto.
Qed.

(** *** The highest temporary *)

Lemma args_max_ge (args : list ref) (m : Z) : m <= args_max args m.
Proof.
  unfold args_max. revert m. induction args as [|[[k|k|k]|] rest IH]; intros m; simpl;
    try lia; try apply IH.
  specialize (IH (Z.max m k)). lia.
Qed.

Lemma args_max_temp (args : list ref) (m k : Z) :
  In (Some (LTemp k)) args -> k <= args_max args m.
Proof.
  unfold args_max. revert m. induction args as [|a rest IH]; intros m; simpl.
  - contradiction.
  - intros [->|Hin]; [|now apply IH].
    pose proof (args_max_ge rest (Z.max m k)) as H. unfold args_max in H. lia.
Qed.

Lemma code_max_ge (c : list (instr ref)) (m : Z) : m <= code_max c m.
Proof.
  unfold code_max. revert m. induction c as [|i rest IH]; intros m; simpl; [lia|].
  specialize (IH (args_max (instr_args i) m)).
  pose proof (args_max_ge (instr_args i) m). lia.
Qed.

Lemma code_max_temp (c : list (instr ref)) (m k : Z) (i : instr ref) :
  In i c -> In (Some (LTemp k)) (instr_args i) -> k <= code_max c m.
Proof.
  unfold code_max. revert m. induction c as [|j rest IH]; intros m; simpl.
  - contradiction.
  - intros [->|Hin] Hk; [|now apply IH].
    pose proof (code_max_ge rest (args_max (instr_args i) m)) as H. unfold code_max in H.
    pose proof (args_max_temp (instr_args i) m k Hk). lia.
Qed.

Lemma max_temp_index_snoc (c : list (instr ref)) (i : instr ref) :
  max_temp_index (c ++ [i]) = args_max (instr_args i) (max_temp_index c).
Proof.
  unfold max_temp_index. now rewrite fold_left_app.
Qed.

Lemma max_temp_index_ge (c : list (instr ref)) : -1 <= max_temp_index c.
Proof. apply (code_max_ge c (-1)). Qed.

Lemma max_temp_index_temp (c : list (instr ref)) (k : Z) (i : instr ref) :
  In i c -> In (Some (LTemp k)) (instr_args i) -> k <= max_temp_index c.
Proof. apply code_max_temp. Qed.

(** *** [emit] *)

Lemma scan_args_spec (args : list ref) (g : CodeGen.t) :
  CodeGen.scan_args args g =
  if forallb is_some args then OK (tt, raised args g) else Err NullishLocation.
Proof.
  revert g. induction args as [|[[k|k|k]|] rest IH]; intros g; simpl.
  - unfold CodeGen.ret, raised, args_max. simpl. now rewrite eta.
  - unfold CodeGen.bind, CodeGen.updateMaxTemp.
    destruct (Z.gtb_spec k (CodeGen.maxTemp g)) as [Hgt|Hle]; rewrite IH;
      destruct (forallb is_some rest); try reflexivity;
      unfold raised, args_max; simpl; repeat f_equal; lia.
  - rewrite IH. destruct (forallb is_some rest); reflexivity.
  - rewrite IH. destruct (forallb is_some rest); reflexivity.
  - reflexivity.
Qed.

Lemma emit_spec (i : instr ref) (g : CodeGen.t) :
  CodeGen.emit i g =
  if forallb is_some (instr_args i) then OK (tt, emitted i g) else Err NullishLocation.
Proof.
  unfold CodeGen.emit, CodeGen.bind. rewrite scan_args_spec.
  destruct (forallb is_some (instr_args i)); reflexivity.
Qed.

End GeneratorFacts.

Section GeneratorInvariant.

Lemma valid_loc_mono (nl nc nl' nc' : Z) (l : loc) :
  nl <= nl' -> nc <= nc' -> valid_loc nl nc l -> valid_loc nl' nc' l.
Proof. destruct l; simpl; lia. Qed.

Lemma valid_ref_mono (nl nc nl' nc' : Z) (r : ref) :
  nl <= nl' -> nc <= nc' -> valid_ref nl nc r -> valid_ref nl' nc' r.
Proof. destruct r; simpl; [apply valid_loc_mono|auto]. Qed.

Lemma valid_dest_mono (nl nc nl' nc' : Z) (r : ref) :
  nl <= nl' -> nc <= nc' -> valid_dest nl nc r -> valid_dest nl' nc' r.
Proof. destruct r as [[k|k|k]|]; simpl; lia. Qed.

Lemma valid_const_mono (nl nc nl' nc' : Z) (r : ref) :
  nl <= nl' -> nc <= nc' -> valid_const nl nc r -> valid_const nl' nc' r.
Proof. destruct r as [[k|k|k]|]; simpl; lia. Qed.

Lemma instr_wf_mono (nl nc nl' nc' : Z) (i : instr ref) :
  nl <= nl' -> nc <= nc' -> instr_wf nl nc i -> instr_wf nl' nc' i.
Proof.
  intros Hl Hc. destruct i; simpl; intuition
    eauto using valid_dest_mono, valid_ref_mono, valid_const_mono.
Qed.

Lemma code_wf_mono (nl nc nl' nc' : Z) (c : list (instr ref)) :
  nl <= nl' -> nc <= nc' -> Forall (instr_wf nl nc) c -> Forall (instr_wf nl' nc') c.
Proof.
  intros Hl Hc. apply Forall_impl. intros i. now apply instr_wf_mono.
Qed.

Lemma valid_dest_ref (nl nc : Z) (r : ref) : valid_dest nl nc r -> valid_ref nl nc r.
Proof. destruct r as [[k|k|k]|]; simpl; tauto. Qed.

Lemma valid_dest_some (nl nc : Z) (r : ref) :
  valid_dest nl nc r -> exists l, r = Some l /\ valid_loc nl nc l.
Proof. destruct r as [[k|k|k]|]; simpl; try tauto; eauto. Qed.

Lemma len_app {A : Type} (a b : list A) : JS.len (a ++ b) = JS.len a + JS.len b.
Proof. unfold JS.len. rewrite length_app. lia. Qed.

Lemma len_single {A : Type} (x : A) : JS.len [x] = 1.
Proof. reflexivity. Qed.

Lemma len_nonneg {A : Type} (a : list A) : 0 <= JS.len a.
Proof. unfold JS.len. lia. Qed.

(** The invariant does not look at the stack. *)
Lemma gen_ok_with_stack (s : list ref) (g : CodeGen.t) :
  gen_ok g -> gen_ok (with_stack s g).
Proof. intros []. constructor; simpl; assumption. Qed.

Lemma gen_ok_with_lhs (i : ref) (g : CodeGen.t) :
  gen_ok g ->
  valid_dest (JS.len (CodeGen.locals g)) (JS.len (CodeGen.consts g)) i ->
  gen_ok (with_lhs i g).
Proof. intros [] Hi. constructor; simpl; auto. Qed.

Lemma gen_ok_emitted (i : instr ref) (g : CodeGen.t) :
  gen_ok g ->
  instr_wf (JS.len (CodeGen.locals g)) (JS.len (CodeGen.consts g)) i ->
  gen_ok (emitted i g).
Proof.
  intros [] Hi. constructor; simpl; auto.
  - rewrite max_temp_index_snoc. congruence.
  - apply Forall_app. auto.
Qed.

Lemma gen_ok_new : gen_ok CodeGen.new.
Proof.
  constructor; simpl; auto; try lia.
  - constructor.
  - intros i j a b Hi. unfold JS.index in Hi. destruct (i <? 0); [discriminate|].
    destruct (Z.to_nat i); discriminate.
Qed.

Lemma index_Some_range {A : Type} (a : list A) (i : Z) (x : A) :
  JS.index a i = Some x -> 0 <= i < JS.len a /\ In x a.
Proof.
  unfold JS.index, JS.len. destruct (Z.ltb_spec i 0); [discriminate|].
  intros Hx. split.
  - assert (Hn : nth_error a (Z.to_nat i) <> None) by congruence.
    apply nth_error_Some in Hn. lia.
  - eapply nth_error_In; eassumption.
Qed.

Lemma index_snoc_last {A : Type} (a : list A) (v x : A) (i : Z) :
  JS.index (a ++ [v]) i = Some x -> JS.len a <= i -> i = JS.len a /\ x = v.
Proof.
  intros H Hge. pose proof (index_Some_range _ _ _ H) as [Hr _].
  rewrite len_app in Hr. unfold JS.len in Hr at 2. simpl in Hr.
  assert (Hi : i = JS.len a) by lia. split; [assumption|].
  subst i. unfold JS.index, JS.len in H.
  destruct (Z.ltb_spec (Z.of_nat (List.length a)) 0); [lia|].
  rewrite Nat2Z.id, nth_error_app2, Nat.sub_diag in H by lia.
  simpl in H. congruence.
Qed.

Lemma index_snoc_old {A : Type} (a : list A) (v x : A) (i : Z) :
  JS.index (a ++ [v]) i = Some x -> i < JS.len a -> JS.index a i = Some x.
Proof.
  unfold JS.index, JS.len. destruct (Z.ltb_spec i 0); [discriminate|].
  intros Hx Hlt. rewrite nth_error_app1 in Hx by lia. assumption.
Qed.

(** Appending a value that matches no entry keeps the pool free of
    duplicates. *)
Lemma pool_distinct_snoc (cs : list Value) (v : Value) :
  pool_distinct cs -> (forall c, In c cs -> veq c v = false) ->
  pool_distinct (cs ++ [v]).
Proof.
  intros Hd Hnew i j a b Hi Hj Hab.
  destruct (Z.lt_ge_cases i (JS.len cs)) as [Hil|Hil];
    destruct (Z.lt_ge_cases j (JS.len cs)) as [Hjl|Hjl].
  - apply index_snoc_old in Hi; auto. apply index_snoc_old in Hj; auto. eauto.
  - apply index_snoc_old in Hi; auto. apply index_snoc_last in Hj as [_ ->]; auto.
    apply index_Some_range in Hi as [_ Hin]. rewrite (Hnew a Hin) in Hab. discriminate.
  - apply index_snoc_old in Hj; auto. apply index_snoc_last in Hi as [_ ->]; auto.
    apply index_Some_range in Hj as [_ Hin]. apply veq_sym in Hab.
    rewrite (Hnew b Hin) in Hab. discriminate.
  - apply index_snoc_last in Hi as [-> _]; auto.
    apply index_snoc_last in Hj as [-> _]; auto.
Qed.

End GeneratorInvariant.

Section Walk.

#[local] Arguments args_max : simpl never.
#[local] Arguments max_temp_index : simpl never.

(** The tail of [leti] and [set]: with a valid location on top of the
    stack it never throws, emits at most one instruction and leaves the
    local on the stack. *)
Lemma store_local_spec (i : Z) (g : CodeGen.t) (top : loc) (s : list ref) :
  gen_ok g ->
  CodeGen.stack g = Some top :: s ->
  valid_loc (JS.len (CodeGen.locals g)) (JS.len (CodeGen.consts g)) top ->
  0 <= i < JS.len (CodeGen.locals g) ->
  exists g',
    store_local i g = OK (tt, g') /\ gen_ok g' /\
    CodeGen.lhs g' = CodeGen.lhs g /\
    CodeGen.tempCount g' = CodeGen.tempCount g /\
    CodeGen.locals g' = CodeGen.locals g /\
    CodeGen.consts g' = CodeGen.consts g /\
    (exists em, CodeGen.code g' = CodeGen.code g ++ em) /\
    CodeGen.stack g' = Some (LLocal i) :: s.
Proof.
  intros Hok Hst Htop Hi.
  unfold store_local, CodeGen.bind at 1, CodeGen.pop. rewrite Hst.
  assert (Hemit : forall ins,
             instr_wf (JS.len (CodeGen.locals g)) (JS.len (CodeGen.consts g)) ins ->
             gen_ok (with_stack (Some (LLocal i) :: s) (emitted ins (with_stack s g)))).
  { intros ins Hins. apply gen_ok_with_stack, gen_ok_emitted; [|exact Hins].
    now apply gen_ok_with_stack. }
  destruct top as [k|k|k].
  - unfold CodeGen.bind. rewrite emit_spec. simpl.
    eexists. split; [reflexivity|]. split.
    + apply (Hemit (MOVE (Some (LLocal i)) (Some (LTemp k)))). simpl in *. lia.
    + simpl. repeat split; eauto.
  - destruct (Z.eqb_spec k i) as [->|Hne].
    + unfold CodeGen.bind. simpl.
      eexists. split; [reflexivity|]. split.
      * apply (gen_ok_with_stack (Some (LLocal i) :: s) g Hok).
      * simpl. repeat split; auto. exists []. now rewrite app_nil_r.
    + unfold CodeGen.bind. rewrite emit_spec. simpl.
      eexists. split; [reflexivity|]. split.
      * apply (Hemit (MOVE (Some (LLocal i)) (Some (LLocal k)))). simpl in *. lia.
      * simpl. repeat split; eauto.
  - unfold CodeGen.bind. rewrite emit_spec. simpl.
    eexists. split; [reflexivity|]. split.
    + apply (Hemit (LOADK (Some (LLocal i)) (Some (LConst k)))). simpl in *. lia.
    + simpl. repeat split; eauto.
Qed.

Lemma withLHS_spec {A : Type} (i : ref) (fn : CodeGen.G A) (g : CodeGen.t) :
  CodeGen.withLHS i fn g =
  match fn (with_lhs i g) with
  | OK (v, g') => OK (v, with_lhs (CodeGen.lhs g) g')
  | Err e => Err e
  end.
Proof.
  unfold CodeGen.withLHS, CodeGen.bind, CodeGen.get_lhs, CodeGen.set_lhs, CodeGen.ret.
  fold (with_lhs i g). destruct (fn (with_lhs i g)) as [[v g']|e]; reflexivity.
Qed.

Lemma gen_ok_restore (old : ref) (nl nc : Z) (g : CodeGen.t) :
  gen_ok g ->
  old = None \/ valid_dest nl nc old ->
  nl <= JS.len (CodeGen.locals g) -> nc <= JS.len (CodeGen.consts g) ->
  gen_ok (with_lhs old g).
Proof.
  intros [] Hold Hl Hc. constructor; simpl; auto.
  destruct Hold as [->|Hv]; [now left|right]. eapply valid_dest_mono; eassumption.
Qed.

(** The generator after [pushLocal name], with the new local as the
    destination. *)
Lemma gen_ok_pushLocal (name : string) (g : CodeGen.t) :
  gen_ok g -> ~ In name (CodeGen.locals g) ->
  gen_ok (with_lhs (Some (LLocal (JS.len (CodeGen.locals g))))
            (CodeGen.mk (CodeGen.consts g) (CodeGen.code g) (CodeGen.locals g ++ [name])
                        (CodeGen.tempCount g) (CodeGen.maxTemp g) (CodeGen.stack g)
                        (CodeGen.lhs g))).
Proof.
  intros [] Hnew. pose proof (len_nonneg (CodeGen.locals g)).
  constructor; simpl; auto.
  - eapply code_wf_mono; [| |eassumption]; rewrite ?len_app; unfold JS.len; simpl; lia.
  - right. rewrite len_app. unfold JS.len. simpl. lia.
  - apply NoDup_app; auto.
    + constructor; [simpl; tauto|constructor].
    + intros x Hx [<-|[]]. contradiction.
Qed.

(** The generator with one more temporary in use and that temporary as
    the destination. *)
Lemma gen_ok_temp (g : CodeGen.t) :
  gen_ok g ->
  gen_ok (with_lhs (Some (LTemp (CodeGen.tempCount g)))
            (CodeGen.set_tempCount (CodeGen.tempCount g + 1) g)).
Proof.
  intros []. constructor; simpl; auto; try lia.
Qed.

(** The body shared by [leti] and [set]: generate the value with local
    [i] as the destination and store it there. *)
Lemma assign_walked (value : Node) (i : Z) (g g' : CodeGen.t) (u : unit) :
  walks value ->
  gen_ok (with_lhs (Some (LLocal i)) g) ->
  CodeGen.lhs g = None \/
    valid_dest (JS.len (CodeGen.locals g)) (JS.len (CodeGen.consts g)) (CodeGen.lhs g) ->
  0 <= i < JS.len (CodeGen.locals g) ->
  CodeGen.withLHS (Some (LLocal i)) (node_do value ;; store_local i)%gen g = OK (u, g') ->
  gen_ok g' /\
  CodeGen.lhs g' = CodeGen.lhs g /\
  CodeGen.tempCount g' = CodeGen.tempCount g /\
  CodeGen.locals g' = CodeGen.locals g ++ lets value /\
  (exists extra, CodeGen.consts g' = CodeGen.consts g ++ extra) /\
  (exists em, CodeGen.code g' = CodeGen.code g ++ em) /\
  CodeGen.stack g' = Some (LLocal i) :: CodeGen.stack g.
Proof.
  intros IH Hok Hold Hi. rewrite withLHS_spec. unfold CodeGen.bind.
  destruct (node_do value (with_lhs (Some (LLocal i)) g)) as [[u1 g1]|e] eqn:Ev;
    [|discriminate].
  destruct (IH _ _ _ Hok Ev) as [Hok1 [Hl Ht Hlo [ex Hc] [em Hco] [top [Hs Htop]]]].
  simpl in Hl, Ht, Hlo, Hc, Hco, Hs.
  assert (Hi1 : 0 <= i < JS.len (CodeGen.locals g1)).
  { rewrite Hlo, len_app. pose proof (len_nonneg (lets value)). lia. }
  destruct (store_local_spec i g1 top _ Hok1 Hs Htop Hi1)
    as (g2 & E & Hok2 & Hl2 & Ht2 & Hlo2 & Hc2 & [em2 Hco2] & Hs2).
  rewrite E. intros H. inversion H; subst; clear H. simpl.
  split.
  { apply (gen_ok_restore _ _ _ _ Hok2 Hold).
    - rewrite Hlo2, Hlo, len_app. pose proof (len_nonneg (lets value)). lia.
    - rewrite Hc2, Hc, len_app. pose proof (len_nonneg ex). lia. }
  repeat split; try congruence.
  - exists ex. congruence.
  - exists (em ++ em2). rewrite Hco2, Hco. now rewrite app_assoc.
Qed.

Lemma withTemp_spec (fn : loc -> CodeGen.G unit) (g : CodeGen.t) :
  CodeGen.withTemp fn g =
  match fn (LTemp (CodeGen.tempCount g))
           (CodeGen.set_tempCount (CodeGen.tempCount g + 1) g) with
  | OK (_, g2) => OK (tt, CodeGen.set_tempCount (CodeGen.tempCount g2 - 1) g2)
  | Err e => Err e
  end.
Proof.
  unfold CodeGen.withTemp. cbv zeta. simpl CodeGen.tempCount at 1.
  now rewrite Z.add_simpl_r.
Qed.

Lemma pop_top (g : CodeGen.t) (r : ref) (s : list ref) :
  CodeGen.stack g = r :: s -> CodeGen.pop g = OK (r, with_stack s g).
Proof. unfold CodeGen.pop. now intros ->. Qed.

Lemma walks_con (value : Value) : walks (con value).
Proof.
  intros g g' u Hok. simpl.
  destruct (find_const 0 (CodeGen.consts g) value) as [i|] eqn:E.
  - unfold CodeGen.push. intros H. inversion H; subst; clear H.
    split; [apply (gen_ok_with_stack _ g Hok)|].
    apply find_const_Some in E as [Hr _].
    constructor; simpl; auto using app_nil_r.
    + exists []. now rewrite app_nil_r.
    + exists []. now rewrite app_nil_r.
    + eexists. split; [reflexivity|]. simpl. lia.
  - unfold CodeGen.bind, CodeGen.pushConst, CodeGen.push.
    intros H. inversion H; subst; clear H.
    pose proof (len_nonneg (CodeGen.consts g)) as Hn.
    assert (Hlen : JS.len (CodeGen.consts g ++ [value]) = JS.len (CodeGen.consts g) + 1).
    { rewrite len_app. reflexivity. }
    split.
    + destruct Hok. constructor; simpl; auto.
      * eapply code_wf_mono; [| |eassumption]; lia.
      * destruct ok_lhs0 as [?|Hv]; [now left|right].
        eapply valid_dest_mono; [| |eassumption]; lia.
      * apply pool_distinct_snoc; [assumption|]. now apply find_const_None with (from := 0).
    + constructor; simpl; auto using app_nil_r; eauto.
      * exists []. now rewrite app_nil_r.
      * eexists. split; [reflexivity|]. simpl. lia.
Qed.

Lemma walks_vari (name : string) : walks (vari name).
Proof.
  intros g g' u Hok. simpl.
  destruct (find_local 0 (CodeGen.locals g) name) as [i|] eqn:E; [|discriminate].
  unfold CodeGen.push. intros H. inversion H; subst; clear H.
  split; [apply (gen_ok_with_stack _ g Hok)|].
  apply find_local_range in E.
  constructor; simpl; auto using app_nil_r.
  - exists []. now rewrite app_nil_r.
  - exists []. now rewrite app_nil_r.
  - eexists. split; [reflexivity|]. simpl. lia.
Qed.

Lemma walks_leti (name : string) (value : Node) : walks value -> walks (leti name value).
Proof.
  intros IH g g' u Hok. simpl.
  destruct (find_local 0 (CodeGen.locals g) name) as [i|] eqn:E; [discriminate|].
  apply find_local_None in E.
  unfold CodeGen.bind at 1, CodeGen.pushLocal. intros H.
  apply assign_walked in H; auto.
  - simpl in H. destruct H as (Hok' & Hl & Ht & Hlo & Hc & Hco & Hs).
    split; [assumption|].
    constructor; auto.
    + rewrite Hlo, <- app_assoc. reflexivity.
    + eexists. split; [eassumption|]. simpl. rewrite Hlo, !len_app.
      pose proof (len_nonneg (CodeGen.locals g)). pose proof (len_nonneg (lets value)).
      rewrite len_single. lia.
  - now apply gen_ok_pushLocal.
  - simpl. destruct (ok_lhs g Hok) as [?|Hv]; [now left|right].
    eapply valid_dest_mono; [| |eassumption]; rewrite ?len_app; unfold JS.len; simpl; lia.
  - simpl. rewrite len_app, len_single. pose proof (len_nonneg (CodeGen.locals g)). lia.
Qed.

Lemma walks_set (name : string) (value : Node) : walks value -> walks (set name value).
Proof.
  intros IH g g' u Hok. simpl.
  destruct (find_local 0 (CodeGen.locals g) name) as [i|] eqn:E; [|discriminate].
  apply find_local_range in E. intros H.
  apply assign_walked in H; auto.
  - destruct H as (Hok' & Hl & Ht & Hlo & Hc & Hco & Hs).
    split; [assumption|].
    constructor; auto.
    eexists. split; [eassumption|]. simpl. rewrite Hlo, !len_app.
    pose proof (len_nonneg (lets value)). lia.
  - apply gen_ok_with_lhs; [assumption|]. simpl. lia.
  - exact (ok_lhs g Hok).
Qed.

Lemma walks_add (lhs rhs : Node) : walks lhs -> walks rhs -> walks (add lhs rhs).
Proof.
  intros IHl IHr g g' u Hok. simpl. intros H.
  apply bind_OK in H as (u1 & g1 & El & H).
  destruct (IHl _ _ _ Hok El) as [Hok1 [Hl1 Ht1 Hlo1 [ex1 Hc1] [em1 Hco1] [top1 [Hs1 Htop1]]]].
  apply bind_OK in H as (lref & g2 & Ep & H).
  rewrite (pop_top _ _ _ Hs1) in Ep. inversion Ep; subst lref g2; clear Ep.
  rewrite withTemp_spec in H.
  match type of H with
  | match ?X with _ => _ end = _ => destruct X as [[u2 g9]|e] eqn:Ef; [|discriminate]
  end.
  inversion H; subst g'; clear H.
  apply bind_OK in Ef as (u3 & g5 & Ew & Ef).
  rewrite withLHS_spec in Ew.
  match type of Ew with
  | match ?X with _ => _ end = _ => destruct X as [[u4 g4]|e] eqn:Er; [|discriminate]
  end.
  inversion Ew; subst g5; clear Ew.
  pose proof (gen_ok_temp _ (gen_ok_with_stack (CodeGen.stack g) g1 Hok1)) as Hok3.
  destruct (IHr _ _ _ Hok3 Er) as [Hok4 [Hl4 Ht4 Hlo4 [ex4 Hc4] [em4 Hco4] [top4 [Hs4 Htop4]]]].
  simpl in Hl4, Ht4, Hlo4, Hc4, Hco4, Hs4, Ef.
  apply bind_OK in Ef as (rref & g6 & Ep & Ef).
  rewrite (pop_top _ _ (CodeGen.stack g)) in Ep by (simpl; exact Hs4).
  inversion Ep; subst rref g6; clear Ep.
  apply bind_OK in Ef as (d & g7 & Eg & Ef).
  unfold CodeGen.get_lhs in Eg. simpl in Eg. inversion Eg; subst d g7; clear Eg.
  apply bind_OK in Ef as (u5 & g8 & Ee & Ef).
  rewrite emit_spec in Ee. simpl in Ee.
  destruct (ok_lhs g1 Hok1) as [Hnone|Hd].
  { rewrite Hnone in Ee. simpl in Ee. discriminate. }
  destruct (valid_dest_some _ _ _ Hd) as (dl & Hdl & Hdv).
  rewrite Hdl in Ee. simpl in Ee. inversion Ee; subst g8; clear Ee.
  unfold CodeGen.bind, CodeGen.get_lhs, CodeGen.push in Ef. simpl in Ef.
  inversion Ef; subst g9; clear Ef. simpl.
  unfold CodeGen.set_tempCount. simpl.
  pose proof (len_nonneg (lets rhs)) as Hn1. pose proof (len_nonneg ex4) as Hn2.
  assert (Hnl : JS.len (CodeGen.locals g1) <= JS.len (CodeGen.locals g4)).
  { rewrite Hlo4, len_app. lia. }
  assert (Hnc : JS.len (CodeGen.consts g1) <= JS.len (CodeGen.consts g4)).
  { rewrite Hc4, len_app. lia. }
  assert (Hdest : valid_dest (JS.len (CodeGen.locals g4)) (JS.len (CodeGen.consts g4))
                             (Some dl)).
  { rewrite <- Hdl. eapply valid_dest_mono; eassumption. }
  assert (Hwf : instr_wf (JS.len (CodeGen.locals g4)) (JS.len (CodeGen.consts g4))
                         (ADD (Some dl) (Some top1) (Some top4))).
  { unfold instr_wf. repeat split; [exact Hdest| |exact Htop4].
    eapply valid_loc_mono; eassumption. }
  split.
  - destruct Hok4. pose proof (ok_tempCount g1 Hok1).
    constructor; simpl; auto.
    + rewrite max_temp_index_snoc. simpl. congruence.
    + lia.
    + apply Forall_app. split; [assumption|]. constructor; [exact Hwf|constructor].
  - constructor; simpl.
    + congruence.
    + lia.
    + rewrite Hlo4, Hlo1. now rewrite app_assoc.
    + exists (ex1 ++ ex4). rewrite Hc4, Hc1. now rewrite app_assoc.
    + eexists. rewrite Hco4, Hco1. rewrite <- !app_assoc. reflexivity.
    + exists dl. split; [reflexivity|].
      simpl in Hdest. destruct dl; simpl in *; lia.
Qed.

(** The loop of a block over expressions that walk: the locals of all
    of them are declared, and the location of the last one (or [result],
    when none is left) ends on the stack. *)
Lemma block_loop_walked (exprs : list Node) :
  Forall walks exprs ->
  forall (result : ref) (g g' : CodeGen.t) (u : unit),
    gen_ok g ->
    (exprs = [] ->
     valid_ref (JS.len (CodeGen.locals g)) (JS.len (CodeGen.consts g)) result) ->
    block_loop node_do exprs result g = OK (u, g') ->
    gen_ok g' /\ walked (block exprs) g g'.
Proof.
  induction 1 as [|expr rest IHe _ IH]; intros result g g' u Hok Hres; simpl.
  - unfold CodeGen.push. intros H. inversion H; subst; clear H.
    split; [apply (gen_ok_with_stack _ g Hok)|].
    specialize (Hres eq_refl). destruct result as [top|]; [|contradiction].
    constructor; simpl; auto using app_nil_r.
    + exists []. now rewrite app_nil_r.
    + exists []. now rewrite app_nil_r.
    + eauto.
  - intros H.
    apply bind_OK in H as (u1 & g1 & Ee & H).
    destruct (IHe _ _ _ Hok Ee) as [Hok1 [Hl1 Ht1 Hlo1 [ex1 Hc1] [em1 Hco1] [top1 [Hs1 Htop1]]]].
    apply bind_OK in H as (r & g2 & Ep & H).
    rewrite (pop_top _ _ _ Hs1) in Ep. inversion Ep; subst r g2; clear Ep.
    apply IH in H.
    + destruct H as [Hok' [Hl Ht Hlo [ex Hc] [em Hco] [top [Hs Htop]]]].
      simpl in Hl, Ht, Hlo, Hc, Hco, Hs.
      split; [assumption|].
      constructor; simpl; try congruence.
      * rewrite Hlo, Hlo1. now rewrite app_assoc.
      * exists (ex1 ++ ex). rewrite Hc, Hc1. now rewrite app_assoc.
      * exists (em1 ++ em). rewrite Hco, Hco1. now rewrite app_assoc.
      * eauto.
    + now apply gen_ok_with_stack.
    + intros _. exact Htop1.
Qed.

Lemma walks_block (body : list Node) : Forall walks body -> walks (block body).
Proof.
  intros Hall g g' u Hok. simpl. destruct body as [|expr rest]; [discriminate|].
  apply block_loop_walked; auto. discriminate.
Qed.

(** A returning [node_do] keeps the invariant of the generator and does
    what [walked] says. *)
Lemma node_do_walked (n : Node) : walks n.
Proof.
  induction n using Node_ind;
    auto using walks_con, walks_add, walks_leti, walks_vari, walks_set, walks_block.
Qed.

End Walk.

Section Totality.

Lemma declared_twice_app_l (x : string) (a b : list string) :
  declared_twice x a -> declared_twice x (a ++ b).
Proof. unfold declared_twice. rewrite count_occ_app. lia. Qed.

Lemma declared_twice_both (x : string) (a b : list string) :
  In x a -> In x b -> declared_twice x (a ++ b).
Proof.
  unfold declared_twice. intros Ha Hb. rewrite count_occ_app.
  apply (count_occ_In string_dec) in Ha. apply (count_occ_In string_dec) in Hb. lia.
Qed.

Lemma declared_twice_not_NoDup (x : string) (l : list string) :
  declared_twice x l -> ~ NoDup l.
Proof.
  unfold declared_twice. intros H Hnd.
  rewrite (NoDup_count_occ string_dec) in Hnd. specialize (Hnd x). lia.
Qed.

Lemma total_con (value : Value) : total (con value).
Proof.
  intros g _ _ _ _. left. simpl.
  destruct (find_const 0 (CodeGen.consts g) value); eexists; eexists; reflexivity.
Qed.

Lemma total_vari (name : string) : total (vari name).
Proof.
  intros g _ Hsc _ _. left. simpl in *. apply declared_In in Hsc.
  destruct (find_local_Some 0 _ _ Hsc) as [i ->]. eexists. eexists. reflexivity.
Qed.

(** The body shared by [leti] and [set]. *)
Lemma assign_total (value : Node) (i : Z) (g : CodeGen.t) :
  total value ->
  gen_ok (with_lhs (Some (LLocal i)) g) ->
  0 <= i < JS.len (CodeGen.locals g) ->
  well_scoped value (CodeGen.locals g) = true ->
  no_empty_block value = true ->
  has_dest true value = true ->
  (exists u g',
      CodeGen.withLHS (Some (LLocal i)) (node_do value ;; store_local i)%gen g
      = OK (u, g')) \/
  (exists x,
      CodeGen.withLHS (Some (LLocal i)) (node_do value ;; store_local i)%gen g
      = Err (AlreadyDefined x) /\
      declared_twice x (CodeGen.locals g ++ lets value)).
Proof.
  intros IH Hok Hi Hsc Hne Hd. rewrite withLHS_spec. unfold CodeGen.bind.
  destruct (IH (with_lhs (Some (LLocal i)) g) Hok Hsc Hne Hd)
    as [(u1 & g1 & E)|(x & E & Hx)]; rewrite E.
  - left.
    destruct (node_do_walked value _ _ _ Hok E) as [Hok1 [_ _ Hlo _ _ [top [Hs Htop]]]].
    simpl in Hlo, Hs.
    assert (Hi1 : 0 <= i < JS.len (CodeGen.locals g1)).
    { rewrite Hlo, len_app. pose proof (len_nonneg (lets value)). lia. }
    destruct (store_local_spec i g1 top _ Hok1 Hs Htop Hi1) as (g2 & -> & _).
    eexists. eexists. reflexivity.
  - right. exists x. split; [reflexivity|exact Hx].
Qed.

Lemma total_leti (name : string) (value : Node) : total value -> total (leti name value).
Proof.
  intros IH g Hok Hsc Hne Hd. unfold generates. simpl in *.
  destruct (find_local 0 (CodeGen.locals g) name) as [i|] eqn:E.
  - right. exists name. split; [reflexivity|].
    apply declared_twice_both; [|now left].
    destruct (in_dec string_dec name (CodeGen.locals g)) as [Hin|Hnin]; [assumption|].
    apply find_local_None with (from := 0) in Hnin. congruence.
  - apply find_local_None in E.
    unfold CodeGen.bind at 1, CodeGen.pushLocal. cbv zeta.
    edestruct (assign_total value (JS.len (CodeGen.locals g))) as [H|(x & Ex & Hx)];
      [exact IH | apply (gen_ok_pushLocal name g Hok E) | | | | | left; exact H | ];
      simpl; auto.
    + rewrite len_app, len_single. pose proof (len_nonneg (CodeGen.locals g)). lia.
    + right. exists x. split; [exact Ex|]. simpl in Hx.
      now rewrite <- app_assoc in Hx.
Qed.

Lemma total_set (name : string) (value : Node) : total value -> total (set name value).
Proof.
  intros IH g Hok Hsc Hne Hd. unfold generates. simpl in *.
  apply andb_prop in Hsc as [Hdef Hsc]. apply declared_In in Hdef.
  destruct (find_local_Some 0 _ _ Hdef) as [i E]. rewrite E.
  apply find_local_range in E.
  apply assign_total; auto.
  apply gen_ok_with_lhs; [assumption|]. simpl. lia.
Qed.

Lemma total_add (lhs rhs : Node) : total lhs -> total rhs -> total (add lhs rhs).
Proof.
  intros IHl IHr g Hok Hsc Hne Hd. unfold generates. simpl in Hsc, Hne, Hd |- *.
  apply andb_prop in Hsc as [Hsl Hsr]. apply andb_prop in Hne as [Hnl Hnr].
  apply andb_prop in Hd as [Hd Hdr]. apply andb_prop in Hd as [Hd Hdl].
  rewrite Hd in Hdl.
  unfold CodeGen.bind.
  assert (Hdl' : has_dest (is_some (CodeGen.lhs g)) lhs = true) by now rewrite Hd.
  destruct (IHl g Hok Hsl Hnl Hdl') as [(u1 & g1 & El)|(x & El & Hx)]; rewrite El.
  2:{ right. exists x. split; [reflexivity|].
      rewrite app_assoc. now apply declared_twice_app_l. }
  destruct (node_do_walked lhs _ _ _ Hok El)
    as [Hok1 [Hl1 Ht1 Hlo1 _ _ [top1 [Hs1 Htop1]]]].
  rewrite (pop_top _ _ _ Hs1).
  rewrite withTemp_spec. cbv beta. rewrite withLHS_spec.
  pose proof (gen_ok_temp _ (gen_ok_with_stack (CodeGen.stack g) g1 Hok1)) as Hok3.
  assert (Hsr' : well_scoped rhs (CodeGen.locals g1) = true) by now rewrite Hlo1.
  destruct (IHr _ Hok3 Hsr' Hnr Hdr) as [(u4 & g4 & Er)|(x & Er & Hx)]; rewrite Er.
  2:{ right. exists x. split; [reflexivity|]. simpl in Hx.
      now rewrite Hlo1, <- app_assoc in Hx. }
  left.
  destruct (node_do_walked rhs _ _ _ Hok3 Er) as [_ [_ _ _ _ _ [top4 [Hs4 _]]]].
  simpl in Hs4.
  rewrite (pop_top _ _ (CodeGen.stack g)) by exact Hs4.
  unfold CodeGen.get_lhs at 1. simpl CodeGen.lhs.
  rewrite emit_spec.
  destruct (CodeGen.lhs g) as [dl|] eqn:Eg; [|discriminate].
  simpl. rewrite Hl1. simpl. eexists. eexists. reflexivity.
Qed.

Lemma block_loop_total (exprs : list Node) :
  Forall total exprs ->
  forall (result : ref) (g : CodeGen.t),
    gen_ok g ->
    well_scoped (block exprs) (CodeGen.locals g) = true ->
    forallb no_empty_block exprs = true ->
    forallb (has_dest (is_some (CodeGen.lhs g))) exprs = true ->
    (exists u g', block_loop node_do exprs result g = OK (u, g')) \/
    (exists x, block_loop node_do exprs result g = Err (AlreadyDefined x) /\
               declared_twice x (CodeGen.locals g ++ flat_map lets exprs)).
Proof.
  induction 1 as [|expr rest IHe _ IH]; intros result g Hok Hsc Hne Hd.
  - left. simpl. eexists. eexists. reflexivity.
  - simpl in Hsc, Hne, Hd. apply andb_prop in Hsc as [Hse Hsr].
    apply andb_prop in Hne as [Hn Hnr]. apply andb_prop in Hd as [Hde Hdr].
    simpl block_loop. unfold CodeGen.bind.
    destruct (IHe g Hok Hse Hn Hde) as [(u1 & g1 & Ee)|(x & Ee & Hx)]; rewrite Ee.
    2:{ right. exists x. split; [reflexivity|]. simpl.
        rewrite app_assoc. now apply declared_twice_app_l. }
    destruct (node_do_walked expr _ _ _ Hok Ee)
      as [Hok1 [Hl1 _ Hlo1 _ _ [top1 [Hs1 _]]]].
    rewrite (pop_top _ _ _ Hs1).
    destruct (IH (Some top1) (with_stack (CodeGen.stack g) g1))
      as [H|(x & E & Hx)]; simpl.
    + now apply gen_ok_with_stack.
    + now rewrite Hlo1.
    + assumption.
    + now rewrite Hl1.
    + left. exact H.
    + right. exists x. split; [exact E|]. simpl in Hx.
      now rewrite Hlo1, <- app_assoc in Hx.
Qed.

Lemma total_block (body : list Node) : Forall total body -> total (block body).
Proof.
  intros Hall g Hok Hsc Hne Hd. unfold generates.
  destruct body as [|expr rest]; [discriminate Hne|].
  apply (block_loop_total (expr :: rest) Hall None g Hok Hsc); assumption.
Qed.

Lemma node_do_total (n : Node) : total n.
Proof.
  induction n using Node_ind;
    auto using total_con, total_add, total_leti, total_vari, total_set, total_block.
Qed.

End Totality.

Section Frames.

Lemma compile_inv (n : Node) (f : Frame) :
  compile n = OK f ->
  exists u g, node_do n CodeGen.new = OK (u, g) /\ CodeGen.mkFrame g = OK f.
Proof.
  unfold compile. destruct (node_do n CodeGen.new) as [[u g]|e]; [eauto|discriminate].
Qed.

(** After a returning walk from the empty generator. *)
Lemma walked_from_new (n : Node) (g : CodeGen.t) (u : unit) :
  node_do n CodeGen.new = OK (u, g) ->
  gen_ok g /\ CodeGen.locals g = lets n.
Proof.
  intros H. destruct (node_do_walked n _ _ _ gen_ok_new H) as [Hok [_ _ Hlo _ _ _]].
  split; assumption.
Qed.

Lemma valid_ref_resolves (nl nc : Z) (r : ref) :
  valid_ref nl nc r -> exists z, CodeGen.resolve nl r = OK z.
Proof. destruct r as [[k|k|k]|]; simpl; [eauto..|contradiction]. Qed.

Lemma instr_wf_resolves (nl nc : Z) (i : instr ref) :
  instr_wf nl nc i -> exists j, CodeGen.resolve_instr nl i = OK j.
Proof.
  destruct i as [a b|a k|a b c]; simpl.
  - intros [Ha Hb]. apply valid_dest_ref, valid_ref_resolves in Ha as [a' ->].
    apply valid_ref_resolves in Hb as [b' ->]. eauto.
  - intros [Ha Hk]. apply valid_dest_ref, valid_ref_resolves in Ha as [a' ->].
    destruct k as [[k|k|k]|]; simpl in *; try contradiction. eauto.
  - intros (Ha & Hb & Hc). apply valid_dest_ref, valid_ref_resolves in Ha as [a' ->].
    apply valid_ref_resolves in Hb as [b' ->].
    apply valid_ref_resolves in Hc as [c' ->]. eauto.
Qed.

Lemma code_wf_resolves (nl nc : Z) (c : list (instr ref)) :
  Forall (instr_wf nl nc) c -> exists c', CodeGen.resolve_code nl c = OK c'.
Proof.
  induction 1 as [|i rest Hi _ [rest' IH]]; simpl; [eauto|].
  apply instr_wf_resolves in Hi as [j ->]. rewrite IH. eauto.
Qed.

(** [mkFrame] never throws on a generator that satisfies the invariant. *)
Lemma mkFrame_ok (g : CodeGen.t) :
  gen_ok g ->
  exists code',
    CodeGen.resolve_code (JS.len (CodeGen.locals g)) (CodeGen.code g) = OK code' /\
    CodeGen.mkFrame g
    = OK (mkFrameRecord 0 0 (JS.len (CodeGen.locals g) + CodeGen.maxTemp g + 1)
                        (CodeGen.consts g) (CodeGen.locals g) code').
Proof.
  intros Hok. destruct (code_wf_resolves _ _ _ (ok_code g Hok)) as [code' E].
  exists code'. split; [assumption|]. unfold CodeGen.mkFrame. cbv zeta. now rewrite E.
Qed.

(** Resolved operands are in the bounds of a frame of [nl + mt + 1]
    registers, when no temporary is above [mt]. *)
Lemma resolve_dest_bounds (nl nc mt : Z) (f : Frame) (r : ref) (z : Z) :
  size f = nl + mt + 1 -> JS.len (consts f) = nc -> 0 <= nl -> -1 <= mt ->
  valid_dest nl nc r ->
  (forall k, r = Some (LTemp k) -> k <= mt) ->
  CodeGen.resolve nl r = OK z ->
  register_operand f z.
Proof.
  unfold register_operand. intros Hs Hc Hnl Hmt Hv Hk.
  destruct r as [[k|k|k]|]; simpl in *; try contradiction; intros H; inversion H; subst.
  - specialize (Hk k eq_refl). lia.
  - lia.
Qed.

Lemma resolve_value_bounds (nl nc mt : Z) (f : Frame) (r : ref) (z : Z) :
  size f = nl + mt + 1 -> JS.len (consts f) = nc -> 0 <= nl -> -1 <= mt ->
  valid_ref nl nc r ->
  (forall k, r = Some (LTemp k) -> k <= mt) ->
  CodeGen.resolve nl r = OK z ->
  value_operand f z.
Proof.
  unfold value_operand, register_operand, constant_operand. intros Hs Hc Hnl Hmt Hv Hk.
  destruct r as [[k|k|k]|]; simpl in *; try contradiction; intros H; inversion H; subst.
  - specialize (Hk k eq_refl). left. lia.
  - left. lia.
  - right. lia.
Qed.

Lemma resolve_instr_bounds (nl nc mt : Z) (f : Frame) (i : instr ref) (j : instr Z) :
  size f = nl + mt + 1 -> JS.len (consts f) = nc -> 0 <= nl -> -1 <= mt ->
  instr_wf nl nc i ->
  (forall k, In (Some (LTemp k)) (instr_args i) -> k <= mt) ->
  CodeGen.resolve_instr nl i = OK j ->
  instr_in_bounds f j.
Proof.
  intros Hs Hc Hnl Hmt Hwf Hk.
  assert (Hd : forall r z, In r (instr_args i) -> valid_dest nl nc r ->
                           CodeGen.resolve nl r = OK z -> register_operand f z).
  { intros r z Hin Hv Hr. apply (resolve_dest_bounds nl nc mt f r z); auto.
    intros k ->. auto. }
  assert (Hv : forall r z, In r (instr_args i) -> valid_ref nl nc r ->
                           CodeGen.resolve nl r = OK z -> value_operand f z).
  { intros r z Hin Hvr Hr. apply (resolve_value_bounds nl nc mt f r z); auto.
    intros k ->. auto. }
  destruct i as [a b|a k|a b c]; simpl in *.
  - destruct (CodeGen.resolve nl a) as [a'|] eqn:Ea;
      destruct (CodeGen.resolve nl b) as [b'|] eqn:Eb; try discriminate.
    intros H. inversion H; subst. simpl. destruct Hwf as [Ha Hb]. split.
    + apply (Hd a); auto.
    + apply (Hv b); auto.
  - destruct (CodeGen.resolve nl a) as [a'|] eqn:Ea;
      destruct (CodeGen.resolve nl k) as [k'|] eqn:Ek; try discriminate.
    intros H. inversion H; subst. simpl. destruct Hwf as [Ha Hkc]. split.
    + apply (Hd a); auto.
    + destruct k as [[k|k|k]|]; simpl in *; try contradiction.
      inversion Ek; subst. unfold constant_operand. lia.
  - destruct (CodeGen.resolve nl a) as [a'|] eqn:Ea;
      destruct (CodeGen.resolve nl b) as [b'|] eqn:Eb;
      destruct (CodeGen.resolve nl c) as [c'|] eqn:Ec; try discriminate.
    intros H. inversion H; subst. simpl. destruct Hwf as (Ha & Hb & Hcc).
    split; [|split].
    + apply (Hd a); auto.
    + apply (Hv b); auto.
    + apply (Hv c); auto.
Qed.

Lemma resolve_code_bounds (nl nc mt : Z) (f : Frame) (c : list (instr ref))
      (c' : list (instr Z)) :
  size f = nl + mt + 1 -> JS.len (consts f) = nc -> 0 <= nl -> -1 <= mt ->
  Forall (instr_wf nl nc) c ->
  (forall i k, In i c -> In (Some (LTemp k)) (instr_args i) -> k <= mt) ->
  CodeGen.resolve_code nl c = OK c' ->
  Forall (instr_in_bounds f) c'.
Proof.
  intros Hs Hc Hnl Hmt Hwf. revert c'.
  induction Hwf as [|i rest Hi _ IH]; intros c' Hk; simpl.
  - intros H. inversion H. constructor.
  - destruct (CodeGen.resolve_instr nl i) as [j|] eqn:Ei; [|discriminate].
    destruct (CodeGen.resolve_code nl rest) as [rest'|] eqn:Er; [|discriminate].
    intros H. inversion H; subst. constructor.
    + eapply resolve_instr_bounds; eauto. intros k. apply Hk. now left.
    + apply IH; auto. intros i' k Hin. apply Hk. now right.
Qed.

(** *** Instructions in bounds never trip a bounds check *)

Lemma getVal_in_bounds (vm : VM) (z : Z) :
  value_operand (fn vm) z -> exists v, getVal z vm = (Returned v, vm).
Proof.
  unfold value_operand, register_operand, constant_operand, getVal.
  intros [Hr|[Hneg Hc]].
  - destruct (Z.ltb_spec z 0); [lia|]. unfold getLocal, bind.
    destruct (testRegIndex_cases z vm) as [[_ E]|[Hi _]]; [|lia].
    rewrite E. unfold ret. eauto.
  - destruct (Z.ltb_spec z 0); [|lia]. unfold getConst, bind.
    destruct (testConstIndex_cases z vm) as [[_ E]|[Hi _]]; [|lia].
    rewrite E. unfold ret. eauto.
Qed.

Lemma getConst_in_bounds (vm : VM) (z : Z) :
  constant_operand (fn vm) z -> exists v, getConst z vm = (Returned v, vm).
Proof.
  unfold constant_operand. intros [Hneg Hc]. unfold getConst, bind.
  destruct (testConstIndex_cases z vm) as [[_ E]|[Hi _]]; [|lia].
  rewrite E. unfold ret. eauto.
Qed.

Lemma store_in_bounds (vm : VM) (a : Z) (v : jsval) :
  register_operand (fn vm) a ->
  exists vm', (setLocal a v ;; incr_pc) vm = (Returned tt, vm').
Proof.
  unfold register_operand. intros Ha. unfold bind.
  destruct (setLocal_cases a v vm) as [[_ E]|[Hi _]]; [|lia].
  rewrite E. unfold incr_pc, ret. eauto.
Qed.

Lemma instr_in_bounds_no_bounds_error (vm vm' : VM) (i : instr Z) (e : RuntimeError) :
  instr_in_bounds (fn vm) i ->
  instr_do i vm = (Threw e, vm') ->
  ~ is_bounds_error e.
Proof.
  destruct i as [a b|a k|a b c]; simpl.
  - intros [Ha Hb]. destruct (getVal_in_bounds vm b Hb) as [v Ev].
    unfold bind at 1. rewrite Ev.
    destruct (store_in_bounds vm a v Ha) as [vm1 ->]. discriminate.
  - intros [Ha Hk]. destruct (getConst_in_bounds vm k Hk) as [v Ev].
    unfold bind at 1. rewrite Ev.
    destruct (store_in_bounds vm a v Ha) as [vm1 ->]. discriminate.
  - intros (Ha & Hb & Hc).
    destruct (getVal_in_bounds vm b Hb) as [vb Eb].
    destruct (getVal_in_bounds vm c Hc) as [vc Ec].
    unfold bind at 1. rewrite Eb. unfold bind at 1. rewrite Ec.
    unfold bind at 1.
    destruct vb as [| |[x|x|]]; simpl; unfold throw;
      try (intros H; inversion H; subst; simpl; tauto).
    unfold bind at 1.
    destruct vc as [| |[y|y|]]; simpl; unfold throw;
      try (intros H; inversion H; subst; simpl; tauto).
    destruct (store_in_bounds vm a (Val (num (SFadd prec emax x y))) Ha) as [vm1 ->].
    discriminate.
Qed.

End Frames.

(** * The claims about the compiler *)

(** C1, as stated, fails: a tree without duplicate declarations and without
    undefined references does not compile when it holds an empty block, and
    neither does an addition that is not under a [leti] or a [set]. *)
Lemma clean_trees_that_do_not_compile :
  (NoDup (lets (block [])) /\ well_scoped (block []) [] = true /\
   compile (block []) = Err EmptyBlock) /\
  (NoDup (lets (add (con two) (con two))) /\
   well_scoped (add (con two) (con two)) [] = true /\
   no_empty_block (add (con two) (con two)) = true /\
   compile (add (con two) (con two)) = Err NullishLocation).
Proof.
  split.
  - split; [constructor|]. split; reflexivity.
  - split; [constructor|]. split; [reflexivity|]. split; [reflexivity|].
    vm_compute. reflexivity.
Qed.

(** The highest temporary index is the start value or the index of a
    temporary that is named. *)
Lemma args_max_attained (args : list ref) (m : Z) :
  args_max args m = m \/ In (Some (LTemp (args_max args m))) args.
Proof.
  unfold args_max. revert m. induction args as [|a rest IH]; intros m; simpl; [now left|].
  destruct a as [[k|k|k]|].
  - destruct (IH (Z.max m k)) as [E|Hin].
    + rewrite E.
      destruct (Z.max_spec m k) as [[_ Hm]|[_ Hm]]; rewrite Hm;
        [right; left; reflexivity|left; reflexivity].
    + right. right. exact Hin.
  - destruct (IH m) as [E|Hin]; [left; exact E|right; right; exact Hin].
  - destruct (IH m) as [E|Hin]; [left; exact E|right; right; exact Hin].
  - destruct (IH m) as [E|Hin]; [left; exact E|right; right; exact Hin].
Qed.

Lemma code_max_attained (c : list (instr ref)) (m : Z) :
  code_max c m = m \/
  exists i, In i c /\ In (Some (LTemp (code_max c m))) (instr_args i).
Proof.
  unfold code_max. revert m. induction c as [|j rest IH]; intros m; simpl; [now left|].
  destruct (IH (args_max (instr_args j) m)) as [E|(i & Hi & Hk)].
  - rewrite E. destruct (args_max_attained (instr_args j) m) as [E'|Hin].
    + left. exact E'.
    + right. exists j. split; [now left|exact Hin].
  - right. exists i. split; [now right|exact Hk].
Qed.

(** The temporaries of a well-formed instruction have indices from 0. *)
Lemma instr_wf_temp (nl nc : Z) (i : instr ref) (k : Z) :
  instr_wf nl nc i -> In (Some (LTemp k)) (instr_args i) -> 0 <= k.
Proof.
  destruct i as [a b|a b|a b c]; simpl.
  - intros [Ha Hb] [->|[->|[]]]; simpl in *; try lia; contradiction.
  - intros [Ha Hb] [->|[->|[]]]; simpl in *; try lia; contradiction.
  - intros (Ha & Hb & Hc) [->|[->|[->|[]]]]; simpl in *; try lia; contradiction.
Qed.

(** C1 (amended) — For every tree without duplicate [leti] names, without
    [vari] or [set] of an undefined name, without empty block and in which
    every addition has a destination, [compile] returns a frame.  Its
    locals are the declared names.  Its size is the number of locals plus
    a count of temporaries, which is one more than the highest temporary
    index that is an argument of an emitted instruction, and 0 when no
    instruction has a temporary as argument: every temporary index in the
    code is below the count and, unless the count is 0, the count minus one
    is the index of a temporary in the code.  Its constant pool is the pool
    the walk accumulated and its code is the accumulated instruction list
    with every argument resolved. *)
Theorem compile_returns_exact_frame (n : Node) :
  NoDup (lets n) ->
  well_scoped n [] = true ->
  no_empty_block n = true ->
  has_dest false n = true ->
  exists (f : Frame) (g : CodeGen.t),
    node_do n CodeGen.new = OK (tt, g) /\
    compile n = OK f /\
    locals f = lets n /\
    size f = JS.len (locals f) + temps_needed (CodeGen.code g) /\
    (forall (i : instr ref) (k : Z),
        In i (CodeGen.code g) -> In (Some (LTemp k)) (instr_args i) ->
        0 <= k < temps_needed (CodeGen.code g)) /\
    (temps_needed (CodeGen.code g) = 0 \/
     exists i : instr ref,
       In i (CodeGen.code g) /\
       In (Some (LTemp (temps_needed (CodeGen.code g) - 1))) (instr_args i)) /\
    consts f = CodeGen.consts g /\
    locals f = CodeGen.locals g /\
    CodeGen.resolve_code (JS.len (CodeGen.locals g)) (CodeGen.code g) = OK (code f).
Proof.
  intros Hnd Hsc Hne Hd.
  destruct (node_do_total n CodeGen.new gen_ok_new Hsc Hne Hd)
    as [(u & g & E)|(x & _ & Hx)].
  - destruct (walked_from_new n g u E) as [Hok Hlo].
    destruct (mkFrame_ok g Hok) as (code' & Hcode & Hf).
    eexists. exists g. destruct u.
    split; [exact E|]. split; [unfold compile; rewrite E; exact Hf|].
    simpl. unfold temps_needed.
    split; [exact Hlo|]. split; [rewrite (ok_maxTemp g Hok); lia|].
    split; [|split; [|split; [reflexivity|split; [reflexivity|exact Hcode]]]].
    + intros i k Hi Hk. split.
      * pose proof (ok_code g Hok) as Hwf. rewrite Forall_forall in Hwf.
        exact (instr_wf_temp _ _ i k (Hwf i Hi) Hk).
      * pose proof (max_temp_index_temp _ k i Hi Hk). lia.
    + destruct (code_max_attained (CodeGen.code g) (-1)) as [Em|(i & Hi & Hk)].
      * left. unfold max_temp_index. fold (code_max (CodeGen.code g) (-1)). lia.
      * right. exists i. split; [exact Hi|].
        replace (max_temp_index (CodeGen.code g) + 1 - 1)
          with (code_max (CodeGen.code g) (-1)); [exact Hk|].
        unfold max_temp_index, code_max. lia.
  - simpl in Hx. apply declared_twice_not_NoDup in Hx. contradiction.
Qed.

Lemma compile_returns_exact_frame_witness :
  exists f : Frame,
    compile nested_sum_tree = OK f /\
    locals f = ["a"%string; "b"%string] /\
    size f = 4 /\
    code f = [ADD 3 (-3) (-4); ADD 1 (-2) 3; ADD 0 (-1) 1].
Proof.
  destruct (compile_returns_exact_frame nested_sum_tree)
    as (f & g & E & Hc & Hl & Hs & _ & _ & _ & _ & Hcode).
  - simpl. repeat constructor; simpl; intuition discriminate.
  - reflexivity.
  - reflexivity.
  - reflexivity.
  - exists f. split; [exact Hc|]. split; [exact Hl|].
    vm_compute in E. injection E as E. subst g.
    rewrite Hl in Hs. vm_compute in Hs. vm_compute in Hcode.
    injection Hcode as Hcode. split; [exact Hs|]. symmetry. exact Hcode.
Defined.

(** No entry of a pool is equal to NaN under [veq]. *)
Lemma find_const_nan (from : Z) (cs : list Value) :
  find_const from cs (Num S754_nan) = None.
Proof.
  revert from. induction cs as [|c rest IH]; intros from; simpl; [reflexivity|].
  destruct c as [x|b|]; simpl; try apply IH.
  destruct x; simpl; apply IH.
Qed.

Lemma veq_same_value (a b : Value) : veq a b = true <-> same_value a b.
Proof.
  destruct a as [x|x|], b as [y|y|]; simpl;
    try (split; [discriminate|contradiction]).
  - apply SFeqb_same.
  - apply Bool.eqb_true_iff.
  - tauto.
Qed.

(** C4, as stated for every compilation, fails on the generator kept in
    [src/compiler.js], whose [con] appends without a lookup: the tree
    [let a = 2 + 2] compiles to a pool with two entries for 2, and the
    addition refers to one with each operand. *)
Lemma earlier_constants_are_not_shared :
  veq two two = true /\
  exists f : Frame,
    Iteration3.compile twice_two_tree = Iteration3.OK f /\
    consts f = [two; two] /\
    code f = [ADD 0 (-1) (-2)].
Proof.
  split; [vm_compute; reflexivity|].
  eexists. split; [vm_compute; reflexivity|].
  split; [vm_compute; reflexivity|reflexivity].
Qed.

(** C4 (amended) — In the generator of [src/unnamed/part_000], two [con]
    nodes whose values are equal under [veq] share one pool entry.  The
    first node pushes a reference to index [i]; whatever is appended to the
    pool in between (and a walk only appends), the second node finds the
    same index [i] by its scan, pushes the same reference and appends
    nothing.  The pool of a compiled frame never holds two entries that are
    equal under [veq].  Equality under [veq] is the same type with payloads
    that are [===]: the two zeros are one constant, and NaN, which equals
    nothing, is appended by every [con] that holds it. *)
Theorem equal_constants_share_one_entry :
  (forall (g g1 g2 g3 : CodeGen.t) (v1 v2 : Value) (extra : list Value) (u1 u3 : unit),
      veq v1 v2 = true ->
      node_do (con v1) g = OK (u1, g1) ->
      CodeGen.consts g2 = CodeGen.consts g1 ++ extra ->
      node_do (con v2) g2 = OK (u3, g3) ->
      exists (i : Z) (c : Value),
        find_const 0 (CodeGen.consts g2) v2 = Some i /\
        CodeGen.stack g1 = Some (LConst (- i - 1)) :: CodeGen.stack g /\
        CodeGen.stack g3 = Some (LConst (- i - 1)) :: CodeGen.stack g2 /\
        CodeGen.consts g3 = CodeGen.consts g2 /\
        JS.index (CodeGen.consts g3) i = Some c /\
        veq c v1 = true /\ veq c v2 = true) /\
  (forall (n : Node) (g g' : CodeGen.t) (u : unit),
      gen_ok g -> node_do n g = OK (u, g') ->
      exists extra, CodeGen.consts g' = CodeGen.consts g ++ extra) /\
  (forall (n : Node) (f : Frame), compile n = OK f -> pool_distinct (consts f)) /\
  (forall v1 v2 : Value, veq v1 v2 = true <-> same_value v1 v2) /\
  (forall g : CodeGen.t,
      node_do (con (Num S754_nan)) g
      = OK (tt, CodeGen.mk (CodeGen.consts g ++ [Num S754_nan]) (CodeGen.code g)
                           (CodeGen.locals g) (CodeGen.tempCount g) (CodeGen.maxTemp g)
                           (Some (LConst (- JS.len (CodeGen.consts g) - 1)) :: CodeGen.stack g)
                           (CodeGen.lhs g))).
Proof.
  split; [|split; [|split; [|split]]].
  - intros g g1 g2 g3 v1 v2 extra u1 u3 Hv H1 Hext H3.
    assert (Hv11 : veq v1 v1 = true) by (eapply veq_trans; eauto using veq_sym).
    assert (Hfound : exists i,
               find_const 0 (CodeGen.consts g1) v1 = Some i /\
               CodeGen.stack g1 = Some (LConst (- i - 1)) :: CodeGen.stack g).
    { simpl in H1. destruct (find_const 0 (CodeGen.consts g) v1) as [i|] eqn:E.
      - unfold CodeGen.push in H1. inversion H1; subst; clear H1. simpl. eauto.
      - unfold CodeGen.bind, CodeGen.pushConst, CodeGen.push in H1.
        inversion H1; subst; clear H1. simpl.
        exists (JS.len (CodeGen.consts g)). split; [|reflexivity].
        now rewrite (find_const_snoc 0 _ _ E Hv11). }
    destruct Hfound as (i & Hi & Hs1).
    assert (Hi2 : find_const 0 (CodeGen.consts g2) v2 = Some i).
    { rewrite Hext, <- (find_const_ext 0 _ v1 v2 Hv). now apply find_const_app. }
    simpl in H3. rewrite Hi2 in H3. unfold CodeGen.push in H3.
    inversion H3; subst; clear H3. simpl.
    destruct (find_const_Some _ _ _ _ Hi2) as (_ & c & Hc & Hcv).
    rewrite Z.sub_0_r in Hc.
    exists i, c. repeat split; auto.
    eapply veq_trans; eauto using veq_sym.
  - intros n g g' u Hok H. destruct (node_do_walked n _ _ _ Hok H) as [_ []]. assumption.
  - intros n f H. apply compile_inv in H as (u & g & E & Hf).
    destruct (walked_from_new n g u E) as [Hok _].
    destruct (mkFrame_ok g Hok) as (code' & _ & Hf'). rewrite Hf' in Hf.
    inversion Hf; subst. simpl. exact (ok_consts g Hok).
  - exact veq_same_value.
  - intros g. simpl. rewrite find_const_nan. reflexivity.
Qed.

Lemma equal_constants_share_one_entry_witness :
  exists (i : Z) (c : Value),
    find_const 0 [two; three] two = Some i /\
    i = 0 /\ c = two /\
    node_do (con two) (CodeGen.mk [two; three] [] [] 0 (-1) [] None)
    = OK (tt, CodeGen.mk [two; three] [] [] 0 (-1) [Some (LConst (- i - 1))] None).
Proof.
  destruct (proj1 equal_constants_share_one_entry
              CodeGen.new
              (CodeGen.mk [two] [] [] 0 (-1) [Some (LConst (-1))] None)
              (CodeGen.mk [two; three] [] [] 0 (-1) [] None)
              (CodeGen.mk [two; three] [] [] 0 (-1) [Some (LConst (-1))] None)
              two two [three] tt tt eq_refl eq_refl eq_refl eq_refl)
    as (i & c & Hfind & _ & _ & _ & Hc & _).
  exists i, c. split; [exact Hfind|].
  assert (Hi : i = 0) by (vm_compute in Hfind; congruence).
  subst i. split; [reflexivity|]. split; [|reflexivity].
  vm_compute in Hc. vm_compute. congruence.
Defined.

(** *** Where the redeclaration error comes from *)

Section DuplicateError.

(** The body shared by [leti] and [set] throws the redeclaration error only
    when the value does. *)
Lemma assign_dup (value : Node) (i : Z) (g : CodeGen.t) (x : string) :
  (forall g x, gen_ok g -> node_do value g = Err (AlreadyDefined x) ->
               declared_twice x (CodeGen.locals g ++ lets value)) ->
  gen_ok (with_lhs (Some (LLocal i)) g) ->
  0 <= i < JS.len (CodeGen.locals g) ->
  CodeGen.withLHS (Some (LLocal i)) (node_do value ;; store_local i)%gen g
  = Err (AlreadyDefined x) ->
  declared_twice x (CodeGen.locals g ++ lets value).
Proof.
  intros IH Hok Hi. rewrite withLHS_spec. unfold CodeGen.bind.
  destruct (node_do value (with_lhs (Some (LLocal i)) g)) as [[u1 g1]|e] eqn:Ev.
  - destruct (node_do_walked value _ _ _ Hok Ev) as [Hok1 [_ _ Hlo _ _ [top [Hs Htop]]]].
    simpl in Hlo, Hs.
    assert (Hi1 : 0 <= i < JS.len (CodeGen.locals g1)).
    { rewrite Hlo, len_app. pose proof (len_nonneg (lets value)). lia. }
    destruct (store_local_spec i g1 top _ Hok1 Hs Htop Hi1) as (g2 & -> & _).
    discriminate.
  - intros H. inversion H; subst. exact (IH _ _ Hok Ev).
Qed.

Lemma add_dup (lhs rhs : Node) :
  (forall g x, gen_ok g -> node_do lhs g = Err (AlreadyDefined x) ->
               declared_twice x (CodeGen.locals g ++ lets lhs)) ->
  (forall g x, gen_ok g -> node_do rhs g = Err (AlreadyDefined x) ->
               declared_twice x (CodeGen.locals g ++ lets rhs)) ->
  forall g x, gen_ok g -> node_do (add lhs rhs) g = Err (AlreadyDefined x) ->
              declared_twice x (CodeGen.locals g ++ lets (add lhs rhs)).
Proof.
  intros IHl IHr g x Hok. simpl. unfold CodeGen.bind.
  destruct (node_do lhs g) as [[u1 g1]|e] eqn:El.
  2:{ intros H. inversion H; subst. rewrite app_assoc.
      apply declared_twice_app_l. exact (IHl _ _ Hok El). }
  destruct (node_do_walked lhs _ _ _ Hok El)
    as [Hok1 [Hl1 Ht1 Hlo1 _ _ [top1 [Hs1 Htop1]]]].
  rewrite (pop_top _ _ _ Hs1).
  rewrite withTemp_spec. cbv beta. rewrite withLHS_spec.
  pose proof (gen_ok_temp _ (gen_ok_with_stack (CodeGen.stack g) g1 Hok1)) as Hok3.
  destruct (node_do rhs _) as [[u4 g4]|e] eqn:Er.
  2:{ intros H. inversion H; subst. pose proof (IHr _ _ Hok3 Er) as Hx.
      simpl in Hx. now rewrite Hlo1, <- app_assoc in Hx. }
  destruct (node_do_walked rhs _ _ _ Hok3 Er) as [_ [_ _ _ _ _ [top4 [Hs4 _]]]].
  simpl in Hs4.
  rewrite (pop_top _ _ (CodeGen.stack g)) by exact Hs4.
  unfold CodeGen.get_lhs at 1. simpl CodeGen.lhs.
  rewrite emit_spec.
  destruct (forallb is_some _); simpl; discriminate.
Qed.

Lemma block_loop_dup (exprs : list Node) :
  Forall (fun n => forall g x, gen_ok g -> node_do n g = Err (AlreadyDefined x) ->
                               declared_twice x (CodeGen.locals g ++ lets n)) exprs ->
  forall (result : ref) (g : CodeGen.t) (x : string),
    gen_ok g ->
    block_loop node_do exprs result g = Err (AlreadyDefined x) ->
    declared_twice x (CodeGen.locals g ++ flat_map lets exprs).
Proof.
  induction 1 as [|expr rest IHe _ IH]; intros result g x Hok.
  - simpl. unfold CodeGen.push. discriminate.
  - simpl block_loop. unfold CodeGen.bind.
    destruct (node_do expr g) as [[u1 g1]|e] eqn:Ee.
    2:{ intros H. inversion H; subst. simpl. rewrite app_assoc.
        apply declared_twice_app_l. exact (IHe _ _ Hok Ee). }
    destruct (node_do_walked expr _ _ _ Hok Ee)
      as [Hok1 [_ _ Hlo1 _ _ [top1 [Hs1 _]]]].
    rewrite (pop_top _ _ _ Hs1). intros H.
    pose proof (IH (Some top1) (with_stack (CodeGen.stack g) g1) x
                   (gen_ok_with_stack _ g1 Hok1) H) as Hx.
    simpl in Hx |- *. now rewrite Hlo1, <- app_assoc in Hx.
Qed.

(** The redeclaration error names a name that is declared twice. *)
Lemma node_do_dup (n : Node) :
  forall (g : CodeGen.t) (x : string),
    gen_ok g -> node_do n g = Err (AlreadyDefined x) ->
    declared_twice x (CodeGen.locals g ++ lets n).
Proof.
  induction n as [value|lhs rhs IHl IHr|name value IH|name|name value IH|body IH]
    using Node_ind; intros g x Hok.
  - simpl. destruct (find_const 0 (CodeGen.consts g) value); discriminate.
  - now apply add_dup.
  - simpl. destruct (find_local 0 (CodeGen.locals g) name) as [i|] eqn:E.
    + intros H. inversion H; subst. apply declared_twice_both; [|now left].
      destruct (in_dec string_dec x (CodeGen.locals g)) as [Hin|Hnin]; [assumption|].
      apply find_local_None with (from := 0) in Hnin. congruence.
    + apply find_local_None in E.
      unfold CodeGen.bind at 1, CodeGen.pushLocal. cbv zeta. intros H.
      apply assign_dup in H; [| exact IH | apply (gen_ok_pushLocal name g Hok E) |].
      * simpl in H. now rewrite <- app_assoc in H.
      * simpl. rewrite len_app, len_single.
        pose proof (len_nonneg (CodeGen.locals g)). lia.
  - simpl. destruct (find_local 0 (CodeGen.locals g) name); discriminate.
  - simpl. destruct (find_local 0 (CodeGen.locals g) name) as [i|] eqn:E; [|discriminate].
    apply find_local_range in E. intros H.
    apply assign_dup in H; [exact H | exact IH | | lia].
    apply gen_ok_with_lhs; [assumption|]. simpl. lia.
  - destruct body as [|expr rest]; [discriminate|].
    apply (block_loop_dup (expr :: rest) IH None g x Hok).
Qed.

End DuplicateError.

(** C7, as stated, fails: a tree that declares [a] twice throws another
    error when the walk meets another fault before the second declaration.
    Here the value of the first declaration refers to the undefined [zz]. *)
Lemma redeclaration_behind_another_error :
  ~ NoDup (lets detour_tree) /\
  declared_twice "a" (lets detour_tree) /\
  compile detour_tree = Err (NotDefined "zz") /\
  forall x : string, compile detour_tree <> Err (AlreadyDefined x).
Proof.
  split; [|split; [|split]].
  - simpl. intros H. inversion H as [|x l Hin _]; subst. apply Hin. now left.
  - unfold declared_twice. simpl. lia.
  - reflexivity.
  - intros x. discriminate.
Qed.

(** C7 (amended) — A tree that declares a local name twice does not
    compile: [compile] throws and returns no frame.  When nothing else is
    wrong with the tree (no undefined reference, no empty block, a
    destination for every addition) the error thrown is the redeclaration
    error, for a name that is declared twice.  A [leti] of a name that is
    already a local throws that error whatever its value is, so a
    redeclaration that the walk reaches never rebinds; and whenever
    [compile] throws the redeclaration error, the name in it is declared
    twice in the tree. *)
Theorem redeclaration_fails :
  (forall n : Node,
      ~ NoDup (lets n) ->
      (exists e, compile n = Err e) /\
      (well_scoped n [] = true -> no_empty_block n = true -> has_dest false n = true ->
       exists x, compile n = Err (AlreadyDefined x) /\ declared_twice x (lets n))) /\
  (forall (g : CodeGen.t) (name : string) (value : Node),
      In name (CodeGen.locals g) ->
      node_do (leti name value) g = Err (AlreadyDefined name)) /\
  (forall (n : Node) (x : string),
      compile n = Err (AlreadyDefined x) -> declared_twice x (lets n)).
Proof.
  split; [|split].
  - intros n Hdup.
    assert (Hno : forall u g, node_do n CodeGen.new <> OK (u, g)).
    { intros u g E. destruct (walked_from_new n g u E) as [Hok Hlo].
      apply Hdup. rewrite <- Hlo. exact (ok_locals g Hok). }
    split.
    + unfold compile. destruct (node_do n CodeGen.new) as [[u g]|e] eqn:E; [|eauto].
      exfalso. exact (Hno u g eq_refl).
    + intros Hsc Hne Hd.
      destruct (node_do_total n CodeGen.new gen_ok_new Hsc Hne Hd)
        as [(u & g & E)|(x & E & Hx)].
      * exfalso. exact (Hno u g E).
      * exists x. unfold compile. rewrite E. split; [reflexivity|exact Hx].
  - intros g name value Hin. simpl.
    destruct (find_local_Some 0 _ _ Hin) as [i ->]. reflexivity.
  - intros n x. unfold compile.
    destruct (node_do n CodeGen.new) as [[u g]|e] eqn:E.
    + destruct (walked_from_new n g u E) as [Hok _].
      destruct (mkFrame_ok g Hok) as (code' & _ & ->). discriminate.
    + intros H. inversion H; subst.
      exact (node_do_dup n CodeGen.new x gen_ok_new E).
Qed.

Lemma redeclaration_fails_witness :
  compile redeclaring_tree = Err (AlreadyDefined "a") /\
  declared_twice "a" (lets redeclaring_tree).
Proof.
  destruct (proj2 (proj1 redeclaration_fails redeclaring_tree
                         (fun H : NoDup (lets redeclaring_tree) =>
                            match NoDup_cons_iff "a"%string ["a"%string] with
                            | conj f _ => proj1 (f H) (or_introl eq_refl)
                            end))
                  eq_refl eq_refl eq_refl) as (x & E & Hx).
  assert (Ex : x = "a"%string).
  { pose proof E as E'. vm_compute in E'. now injection E' as <-. }
  subst x. split; assumption.
Defined.

(** C8 — In a frame returned by [compile] every instruction writes to a
    register index below the declared size, every register it reads is
    below the declared size, and every constant reference decodes to a
    position below the length of the constant pool; executing the frame
    never trips a bounds check of the machine. *)
Theorem compiled_code_in_bounds (n : Node) (f : Frame) :
  compile n = OK f ->
  Forall (instr_in_bounds f) (code f) /\
  forall (vm vm' : VM) (e : RuntimeError),
    fn vm = f -> step vm = (Threw e, vm') -> ~ is_bounds_error e.
Proof.
  intros H. apply compile_inv in H as (u & g & E & Hf).
  destruct (walked_from_new n g u E) as [Hok _].
  destruct (mkFrame_ok g Hok) as (code' & Hcode & Hf'). rewrite Hf' in Hf.
  inversion Hf; subst f; clear Hf.
  assert (Hall : Forall (instr_in_bounds
                   (mkFrameRecord 0 0 (JS.len (CodeGen.locals g) + CodeGen.maxTemp g + 1)
                                  (CodeGen.consts g) (CodeGen.locals g) code')) code').
  { eapply resolve_code_bounds with (mt := CodeGen.maxTemp g); try reflexivity.
    - apply len_nonneg.
    - rewrite (ok_maxTemp g Hok). apply max_temp_index_ge.
    - exact (ok_code g Hok).
    - intros i k Hi Hk. rewrite (ok_maxTemp g Hok). eapply max_temp_index_temp; eassumption.
    - exact Hcode. }
  split; [exact Hall|].
  intros vm vm' e Hfn. unfold step, getInstr. rewrite Hfn. simpl code.
  destruct (pc vm >=? JS.len code'); [discriminate|].
  destruct (JS.index code' (pc vm)) as [i|] eqn:Ei.
  - apply index_Some_range in Ei as [_ Hin].
    rewrite Forall_forall in Hall. specialize (Hall i Hin). rewrite <- Hfn in Hall.
    unfold bind. destruct (instr_do i vm) as [[u'|e'] vm1] eqn:Ed; [discriminate|].
    intros Hs. inversion Hs; subst.
    eapply instr_in_bounds_no_bounds_error; eassumption.
  - unfold throw. intros Hs. inversion Hs. simpl. tauto.
Qed.

Lemma compiled_code_in_bounds_witness :
  exists f : Frame,
    compile example_tree = OK f /\ Forall (instr_in_bounds f) (code f).
Proof.
  destruct (compile example_tree) as [f|e] eqn:E.
  - exists f. split; [reflexivity|].
    exact (proj1 (compiled_code_in_bounds example_tree f E)).
  - vm_compute in E. discriminate E.
Defined.

(** * Remarks *)

(** When no emitted instruction has a temporary as argument, the
    temporaries that [withTemp] reserved take no register: the addition of
    two constants into a local needs a frame of size 1. *)
Remark reserved_temporary_takes_no_register :
  exists f : Frame,
    compile (leti "a" (add (con two) (con three))) = OK f /\
    code f = [ADD 0 (-1) (-2)] /\ size f = 1.
Proof.
  eexists. split; [vm_compute; reflexivity|]. split; reflexivity.
Qed.

(** A reserved temporary below the highest one that is named does take a
    register, named or not: in the frame of the nested sums register 2 (the
    temporary 0) is the argument of no instruction, and the size is 4. *)
Remark unnamed_temporary_below_a_named_one :
  exists f : Frame,
    compile nested_sum_tree = OK f /\
    JS.len (locals f) = 2 /\ size f = 4 /\
    Forall (fun i => ~ In 2 (instr_args i)) (code f).
Proof.
  eexists. split; [vm_compute; reflexivity|].
  split; [reflexivity|]. split; [reflexivity|].
  repeat constructor; simpl; intros H; decompose [or] H; discriminate || contradiction.
Qed.

(** The constant node of the earlier iteration in [src/compiler.js] does no
    lookup: the same value twice makes two pool entries. *)
Remark earlier_con_appends_again :
  exists g1 g2 : CodeGen.t,
    Earlier.con_do two CodeGen.new = OK (tt, g1) /\
    Earlier.con_do two g1 = OK (tt, g2) /\
    CodeGen.consts g2 = [two; two] /\
    CodeGen.stack g2 = [Some (LConst (-2)); Some (LConst (-1))].
Proof.
  eexists. eexists. split; [vm_compute; reflexivity|].
  split; [vm_compute; reflexivity|]. split; reflexivity.
Qed.

(** * Further properties of the virtual machine *)

Lemma update_other {A : Type} (arr : list A) (n m : nat) (v : A) :
  n <> m -> nth_error (JS.update arr n v) m = nth_error arr m.
Proof.
  revert n m. induction arr as [|x rest IH]; intros [|n] [|m] Hne; simpl; auto;
    try congruence.
Qed.

Lemma read_assign_other (rs : list jsval) (i j : Z) (v : jsval) :
  0 <= i < JS.len rs -> j <> i ->
  read_reg (JS.assign Undefined rs i v) j = read_reg rs j.
Proof.
  unfold read_reg, JS.index, JS.assign, JS.len. intros Hi Hne.
  destruct (Z.ltb_spec j 0); [reflexivity|].
  destruct (Nat.ltb_spec (Z.to_nat i) (List.length rs)); [|lia].
  rewrite update_other by lia. reflexivity.
Qed.

(** X1 — A store into a register inside the declared size returns, changes
    neither the frame nor the counter nor the size of the register file,
    and is read back by [getLocal]; every other register reads as before. *)
Theorem setLocal_getLocal_round_trip (vm : VM) (i : Z) (v : jsval) :
  sized vm -> 0 <= i < size (fn vm) ->
  exists vm' : VM,
    setLocal i v vm = (Returned tt, vm') /\
    fn vm' = fn vm /\ pc vm' = pc vm /\ sized vm' /\
    getLocal i vm' = (Returned v, vm') /\
    forall j, j <> i -> getLocal j vm' = (fst (getLocal j vm), vm').
Proof.
  intros Hs Hi.
  destruct (setLocal_cases i v vm) as [[_ E]|[Hbad _]]; [|lia].
  eexists. split; [exact E|]. simpl.
  assert (Hs' : sized (mkVM (fn vm) (JS.assign Undefined (regs vm) i v) (pc vm))).
  { unfold sized in *. simpl. rewrite assign_length_in_range; lia. }
  repeat split; auto.
  - unfold getLocal, bind.
    destruct (testRegIndex_cases i (mkVM (fn vm) (JS.assign Undefined (regs vm) i v) (pc vm)))
      as [[_ E']|[Hbad _]]; [|simpl in Hbad; lia].
    rewrite E'. unfold ret. simpl. rewrite read_assign; [reflexivity|].
    unfold sized in Hs. lia.
  - intros j Hj. unfold getLocal, bind.
    destruct (testRegIndex_cases j vm) as [[Hr E0]|[Hr E0]]; rewrite E0;
      destruct (testRegIndex_cases j (mkVM (fn vm) (JS.assign Undefined (regs vm) i v) (pc vm)))
        as [[Hr' E']|[Hr' E']]; simpl in Hr'; try lia; rewrite E'; unfold ret; simpl;
      try reflexivity.
    rewrite read_assign_other; [reflexivity| |assumption]. unfold sized in Hs. lia.
Qed.

Lemma setLocal_getLocal_round_trip_witness :
  exists vm' : VM,
    setLocal 1 (Val (Bool true)) demo_vm = (Returned tt, vm') /\
    getLocal 1 vm' = (Returned (Val (Bool true)), vm') /\
    getLocal 0 vm' = (Returned Null, vm').
Proof.
  assert (Hs : sized demo_vm) by reflexivity.
  assert (Hi : 0 <= 1 < size (fn demo_vm)) by (simpl; lia).
  destruct (setLocal_getLocal_round_trip demo_vm 1 (Val (Bool true)) Hs Hi)
    as (vm' & E & _ & _ & _ & Hget & Hother).
  exists vm'. split; [exact E|]. split; [exact Hget|].
  rewrite (Hother 0) by lia. reflexivity.
Defined.

(** X2 — [MOVE a, b] copies whatever operand [b] resolves to (a register
    or a constant; also [null], there is no type check) into register [a]
    and advances the counter by one; the frame and every other register are
    untouched.  With a destination outside the declared size it throws and
    changes nothing. *)
Theorem iMOVE_copies (vm : VM) (a b : Z) (v : jsval) :
  sized vm ->
  getVal b vm = (Returned v, vm) ->
  (0 <= a < size (fn vm) ->
   exists vm' : VM,
     instr_do (MOVE a b) vm = (Returned tt, vm') /\
     fn vm' = fn vm /\ pc vm' = pc vm + 1 /\ sized vm' /\
     read_reg (regs vm') a = v /\
     forall j, j <> a -> read_reg (regs vm') j = read_reg (regs vm) j) /\
  (a < 0 \/ size (fn vm) <= a ->
   instr_do (MOVE a b) vm = (Threw (InvalidRegisterIndex a), vm)).
Proof.
  intros Hs Hb. unfold instr_do. unfold bind at 1. rewrite Hb. unfold bind. split.
  - intros Ha. destruct (setLocal_cases a v vm) as [[_ E]|[Hbad _]]; [|lia].
    rewrite E. unfold incr_pc, ret. eexists. split; [reflexivity|]. simpl.
    unfold sized in *. repeat split; auto.
    + simpl. rewrite assign_length_in_range; lia.
    + apply read_assign. lia.
    + intros j Hj. apply read_assign_other; [lia|assumption].
  - intros Ha. rewrite Hb. destruct (setLocal_cases a v vm) as [[Hgood _]|[_ E]]; [lia|].
    now rewrite E.
Qed.

Lemma iMOVE_copies_witness :
  exists vm' : VM,
    instr_do (MOVE 1 (-2)) demo_vm = (Returned tt, vm') /\
    read_reg (regs vm') 1 = Val (Bool true) /\ pc vm' = 1.
Proof.
  assert (Hs : sized demo_vm) by reflexivity.
  assert (Ha : 0 <= 1 < size (fn demo_vm)) by (simpl; lia).
  destruct (proj1 (iMOVE_copies demo_vm 1 (-2) (Val (Bool true)) Hs eq_refl) Ha)
    as (vm' & E & _ & Hpc & _ & Hr & _).
  exists vm'. split; [exact E|]. split; [exact Hr|exact Hpc].
Defined.

(** X3 — The second operand of [LOADK] is an encoded constant reference,
    not a pool index: [LOADK a, k] with [k >= 0] always throws
    [Invalid constant index] (also [LOADK a, 0] on a non-empty pool), and
    with [k < 0] inside the pool it stores entry [-k - 1] into register [a]
    and advances the counter. *)
Theorem iLOADK_takes_encoded_reference (vm : VM) (a k : Z) :
  (0 <= k -> instr_do (LOADK a k) vm = (Threw (InvalidConstantIndex k), vm)) /\
  (k < 0 -> - k - 1 < JS.len (consts (fn vm)) -> 0 <= a < size (fn vm) ->
   exists c : Value,
     JS.index (consts (fn vm)) (- k - 1) = Some c /\
     instr_do (LOADK a k) vm
     = (Returned tt, mkVM (fn vm) (JS.assign Undefined (regs vm) a (Val c)) (pc vm + 1))).
Proof.
  unfold instr_do. split.
  - intros Hk. unfold bind at 1, getConst, bind at 1.
    destruct (testConstIndex_cases k vm) as [[Hgood _]|[_ E]]; [lia|]. now rewrite E.
  - intros Hk Hlt Ha.
    destruct (index_in_range (consts (fn vm)) (- k - 1)) as [c Hc]; [lia|].
    exists c. split; [exact Hc|].
    unfold bind at 1, getConst, bind at 1.
    destruct (testConstIndex_cases k vm) as [[_ E]|[Hbad _]]; [|lia].
    rewrite E. unfold ret, read_const. rewrite Hc. unfold bind.
    destruct (setLocal_cases a (Val c) vm) as [[_ E']|[Hbad _]]; [|lia].
    now rewrite E'.
Qed.

Lemma iLOADK_takes_encoded_reference_witness :
  instr_do (LOADK 0 0) demo_vm = (Threw (InvalidConstantIndex 0), demo_vm) /\
  exists c : Value,
    JS.index (consts (fn demo_vm)) 1 = Some c /\
    instr_do (LOADK 0 (-2)) demo_vm
    = (Returned tt, mkVM (fn demo_vm) (JS.assign Undefined (regs demo_vm) 0 (Val c)) 1).
Proof.
  split.
  - apply (proj1 (iLOADK_takes_encoded_reference demo_vm 0 0)). lia.
  - apply (proj2 (iLOADK_takes_encoded_reference demo_vm 0 (-2))).
    + lia.
    + unfold JS.len. simpl. lia.
    + simpl. lia.
Defined.

(** X4 — [ADD] resolves both operands before it checks either type: when
    the second operand is out of bounds the step throws that bounds error
    even if the first operand is not a number.  An operand that resolves to
    [null] or [undefined] (a register never written) makes the step throw a
    [TypeError] at [x.type], not the [Expected a number] error.  The machine
    is unchanged in every case. *)
Theorem iADD_order_of_failures (vm : VM) (a b c : Z) (vb : jsval) :
  getVal b vm = (Returned vb, vm) ->
  (forall e, getVal c vm = (Threw e, vm) -> instr_do (ADD a b c) vm = (Threw e, vm)) /\
  (forall vc, getVal c vm = (Returned vc, vm) ->
     (vb = Null \/ vb = Undefined -> instr_do (ADD a b c) vm = (Threw NullishAccess, vm)) /\
     (forall x, vb = Val (Num x) -> vc = Null \/ vc = Undefined ->
                instr_do (ADD a b c) vm = (Threw NullishAccess, vm))).
Proof.
  intros Hb. unfold instr_do. split.
  - intros e Hc. unfold bind at 1. rewrite Hb. unfold bind at 1. now rewrite Hc.
  - intros vc Hc. split.
    + intros [->| ->]; unfold bind at 1; rewrite Hb; unfold bind at 1; rewrite Hc;
        reflexivity.
    + intros x -> [->| ->]; unfold bind at 1; rewrite Hb; unfold bind at 1; rewrite Hc;
        reflexivity.
Qed.

Lemma iADD_order_of_failures_witness :
  instr_do (ADD 0 (-2) 7) demo_vm = (Threw (InvalidRegisterIndex 7), demo_vm) /\
  instr_do (ADD 0 1 (-1)) demo_vm = (Threw NullishAccess, demo_vm).
Proof.
  split.
  - exact (proj1 (iADD_order_of_failures demo_vm 0 (-2) 7 (Val (Bool true)) eq_refl)
                 _ eq_refl).
  - apply (proj1 (proj2 (iADD_order_of_failures demo_vm 0 1 (-1) Null eq_refl)
                        _ eq_refl)).
    now left.
Defined.

Lemma step_effect_any (vm vm' : VM) (o : outcome bool) :
  step vm = (o, vm') ->
  fn vm' = fn vm /\ (sized vm -> sized vm') /\ pc vm <= pc vm' <= pc vm + 1 /\
  match o with
  | Threw _ => vm' = vm
  | Returned b =>
      if b then 0 <= pc vm < JS.len (code (fn vm)) /\ pc vm' = pc vm + 1
      else JS.len (code (fn vm)) <= pc vm /\ vm' = vm
  end.
Proof.
  destruct (Z.lt_ge_cases (pc vm) 0) as [Hneg|Hpos].
  - unfold step, getInstr. pose proof (len_nonneg (code (fn vm))).
    destruct (Z.geb_spec (pc vm) (JS.len (code (fn vm)))); [lia|].
    unfold JS.index. destruct (Z.ltb_spec (pc vm) 0); [|lia].
    unfold throw. intros H'. inversion H'; subst. repeat split; auto; lia.
  - intros Hs. destruct (step_effect _ _ _ Hpos Hs) as (Hf & Hk & Hb).
    split; [assumption|]. split; [assumption|].
    destruct o as [[|]|].
    + destruct Hb as [Hlt Hpc]. split; [lia|]. split; [lia|assumption].
    + destruct Hb as [Hge ->]. split; [lia|]. split; [assumption|reflexivity].
    + subst vm'. split; [lia|reflexivity].
Qed.

(** X5 — A [step] that throws leaves the machine exactly as it was (for
    every instruction, and for a counter before the code), so the machine
    is stuck: every later sequence of calls throws the same error at its
    first call, on the same machine. *)
Theorem failed_step_is_stuck (vm vm' : VM) (e : RuntimeError) :
  step vm = (Threw e, vm') ->
  vm' = vm /\ forall n : nat, step_n (S n) vm = (Threw e, vm).
Proof.
  intros Hs. destruct (step_effect_any _ _ _ Hs) as (_ & _ & _ & ->).
  split; [reflexivity|]. intros n. simpl. unfold bind at 1. now rewrite Hs.
Qed.

Lemma failed_step_is_stuck_witness :
  step_n 3 demo_bad_add = (Threw (ExpectedNumber TBool), demo_bad_add).
Proof.
  assert (Hs : step demo_bad_add = (Threw (ExpectedNumber TBool), demo_bad_add))
    by (vm_compute; reflexivity).
  exact (proj2 (failed_step_is_stuck demo_bad_add demo_bad_add _ Hs) 2%nat).
Defined.

(** X6 — Stepping never changes the frame (no instruction writes to it),
    never lowers the counter, raises it by at most one per call, and keeps
    the register file at the declared size. *)
Theorem stepping_keeps_the_frame (n : nat) (vm vm' : VM) (o : outcome (list bool)) :
  step_n n vm = (o, vm') ->
  fn vm' = fn vm /\ pc vm <= pc vm' <= pc vm + Z.of_nat n /\ (sized vm -> sized vm').
Proof.
  revert vm vm' o. induction n as [|k IH]; intros vm vm' o.
  - simpl. unfold ret. intros H. inversion H; subst. repeat split; auto; lia.
  - simpl step_n. unfold bind at 1. destruct (step vm) as [[b|e] vm1] eqn:Es;
      destruct (step_effect_any _ _ _ Es) as (Hf & Hk & Hpc & _).
    + unfold bind. destruct (step_n k vm1) as [[bs|e] vm2] eqn:En;
        destruct (IH _ _ _ En) as (Hf2 & Hpc2 & Hk2);
        unfold ret; intros H; inversion H; subst;
        (split; [congruence|]); (split; [lia|auto]).
    + intros H. inversion H; subst. split; [assumption|]. split; [lia|assumption].
Qed.

Lemma stepping_keeps_the_frame_witness :
  exists (o : outcome (list bool)) (vm' : VM),
    step_n 5 demo_vm = (o, vm') /\ fn vm' = demo_frame /\ sized vm'.
Proof.
  destruct (step_n 5 demo_vm) as [o vm'] eqn:E.
  exists o, vm'. split; [reflexivity|].
  destruct (stepping_keeps_the_frame 5 demo_vm vm' o E) as (Hf & _ & Hs).
  split; [exact Hf|]. apply Hs. reflexivity.
Defined.

(** X7 — The values [step] returns on a fresh machine are fixed by the
    length of the code: as long as no call throws, the first
    [min n (code.length)] of [n] calls return [true] and all the others
    [false]. *)
Theorem step_trace_shape (f : Frame) (vm0 vm1 : VM) (n : nat) (bs : list bool) :
  VM_new f = Returned vm0 ->
  step_n n vm0 = (Returned bs, vm1) ->
  bs = repeat true (Nat.min n (List.length (code f)))
       ++ repeat false (n - List.length (code f)) /\
  pc vm1 = Z.of_nat (Nat.min n (List.length (code f))).
Proof.
  unfold VM_new. destruct ((size f <? 0) || (2 ^ 32 <=? size f)); [discriminate|].
  intros Hnew. inversion Hnew; subst vm0; clear Hnew.
  set (len := List.length (code f)).
  assert (Hgen : forall n vm vm' bs,
             fn vm = f -> 0 <= pc vm <= Z.of_nat len ->
             step_n n vm = (Returned bs, vm') ->
             bs = repeat true (Nat.min n (len - Z.to_nat (pc vm)))
                  ++ repeat false (n - (len - Z.to_nat (pc vm))) /\
             pc vm' = pc vm + Z.of_nat (Nat.min n (len - Z.to_nat (pc vm)))).
  { clear. intros n. induction n as [|k IH]; intros vm vm' bs Hf Hpc.
    - simpl. unfold ret. intros H. inversion H; subst. simpl. split; [reflexivity|lia].
    - simpl step_n. unfold bind at 1.
      destruct (step vm) as [[b|e] vm1] eqn:Es; [|discriminate].
      destruct (step_effect_any _ _ _ Es) as (Hf1 & _ & _ & Hb).
      unfold bind. destruct (step_n k vm1) as [[bs1|e] vm2] eqn:En; [|discriminate].
      unfold ret. intros H. inversion H; subst bs vm'; clear H.
      rewrite Hf in Hb. unfold JS.len in Hb. fold len in Hb.
      destruct b.
      + destruct Hb as [Hlt Hpc1].
        destruct (IH vm1 vm2 bs1) as (-> & Hpc2); auto; [congruence|lia|].
        replace (len - Z.to_nat (pc vm))%nat with (S (len - Z.to_nat (pc vm1)))%nat by lia.
        simpl. split; [reflexivity|]. rewrite Hpc2. lia.
      + destruct Hb as [Hge ->].
        destruct (IH vm vm2 bs1) as (-> & Hpc2); auto.
        replace (len - Z.to_nat (pc vm))%nat with 0%nat in * by lia.
        rewrite Nat.min_0_r in *. simpl. rewrite Nat.sub_0_r in *.
        split; [reflexivity|]. lia. }
  intros Hrun. apply Hgen in Hrun; simpl; auto; [|lia].
  simpl in Hrun. rewrite Nat.sub_0_r in Hrun. destruct Hrun as [-> ->].
  split; [reflexivity|lia].
Qed.

Lemma step_trace_shape_witness :
  exists vm0 vm1 : VM,
    VM_new demo_frame = Returned vm0 /\
    step_n 5 vm0 = (Returned [true; true; true; false; false], vm1) /\ pc vm1 = 3.
Proof.
  eexists. eexists. split; [reflexivity|].
  assert (Hrun : step_n 5 (mkVM demo_frame [Null; Null] 0)
                 = (Returned [true; true; true; false; false],
                    mkVM demo_frame [Val two; Val (num (float_of_Z 4))] 3)).
  { vm_compute. reflexivity. }
  split; [exact Hrun|].
  exact (proj2 (step_trace_shape demo_frame _ _ 5 _ eq_refl Hrun)).
Defined.

(** * Further properties of the code generator *)

Section Inversion.

#[local] Arguments args_max : simpl never.
#[local] Arguments max_temp_index : simpl never.
#[local] Arguments code_max : simpl never.

Lemma code_max_nil (m : Z) : code_max [] m = m.
Proof. reflexivity. Qed.

Lemma code_max_single (i : instr ref) (m : Z) : code_max [i] m = args_max (instr_args i) m.
Proof. reflexivity. Qed.

Lemma finished_nil (g0 g : CodeGen.t) (top : ref) (s : list ref) :
  finished g0 g [] top s
  = CodeGen.mk (CodeGen.consts g) (CodeGen.code g) (CodeGen.locals g)
               (CodeGen.tempCount g0) (CodeGen.maxTemp g) (top :: s) (CodeGen.lhs g0).
Proof. unfold finished. now rewrite app_nil_r. Qed.

(** What [store_local] does with a location on top of the stack. *)
Lemma store_local_emits (i : Z) (g : CodeGen.t) (top : loc) (s : list ref) :
  CodeGen.stack g = Some top :: s ->
  store_local i g = OK (tt, finished g g (store_code i top) (Some (LLocal i)) s).
Proof.
  intros Hs. unfold store_local, CodeGen.bind at 1. rewrite (pop_top _ _ _ Hs).
  destruct top as [k|k|k]; simpl store_code.
  - unfold CodeGen.bind. rewrite emit_spec. reflexivity.
  - destruct (k =? i).
    + unfold CodeGen.bind. simpl. now rewrite finished_nil.
    + unfold CodeGen.bind. rewrite emit_spec. reflexivity.
  - unfold CodeGen.bind. rewrite emit_spec. reflexivity.
Qed.

(** A returning [add]: both operands returned, the destination is not
    null, and exactly one [ADD] was appended after their code. *)
Lemma add_inv (lhs rhs : Node) (g g' : CodeGen.t) (u : unit) :
  gen_ok g ->
  node_do (add lhs rhs) g = OK (u, g') ->
  exists (g1 g4 : CodeGen.t) (top1 top4 dl : loc),
    node_do lhs g = OK (tt, g1) /\
    CodeGen.stack g1 = Some top1 :: CodeGen.stack g /\
    node_do rhs (rhs_state (CodeGen.stack g) g1) = OK (tt, g4) /\
    CodeGen.stack g4 = Some top4 :: CodeGen.stack g /\
    CodeGen.lhs g = Some dl /\
    g' = finished g g4 [ADD (Some dl) (Some top1) (Some top4)] (Some dl) (CodeGen.stack g).
Proof.
  intros Hok H. simpl in H.
  apply bind_OK in H as (u1 & g1 & El & H).
  destruct (node_do_walked lhs _ _ _ Hok El)
    as [Hok1 [Hl1 Ht1 _ _ _ [top1 [Hs1 _]]]].
  apply bind_OK in H as (lref & g2 & Ep & H).
  rewrite (pop_top _ _ _ Hs1) in Ep. inversion Ep; subst lref g2; clear Ep.
  rewrite withTemp_spec in H.
  match type of H with
  | match ?X with _ => _ end = _ => destruct X as [[u2 g9]|e] eqn:Ef; [|discriminate]
  end.
  inversion H; subst g'; clear H.
  apply bind_OK in Ef as (u3 & g5 & Ew & Ef).
  rewrite withLHS_spec in Ew.
  match type of Ew with
  | match ?X with _ => _ end = _ => destruct X as [[u4 g4]|e] eqn:Er; [|discriminate]
  end.
  inversion Ew; subst g5; clear Ew.
  pose proof (gen_ok_temp _ (gen_ok_with_stack (CodeGen.stack g) g1 Hok1)) as Hok3.
  destruct (node_do_walked rhs _ _ _ Hok3 Er) as [_ [_ Ht4 _ _ _ [top4 [Hs4 _]]]].
  simpl in Ht4, Hs4, Ef.
  apply bind_OK in Ef as (rref & g6 & Ep & Ef).
  rewrite (pop_top _ _ (CodeGen.stack g)) in Ep by (simpl; exact Hs4).
  inversion Ep; subst rref g6; clear Ep.
  apply bind_OK in Ef as (d & g7 & Eg & Ef).
  unfold CodeGen.get_lhs in Eg. simpl in Eg. inversion Eg; subst d g7; clear Eg.
  apply bind_OK in Ef as (u5 & g8 & Ee & Ef).
  rewrite emit_spec in Ee. simpl in Ee.
  destruct (CodeGen.lhs g1) as [dl|] eqn:Edl; [|discriminate].
  simpl in Ee. inversion Ee; subst g8; clear Ee.
  unfold CodeGen.bind, CodeGen.get_lhs, CodeGen.push in Ef. simpl in Ef.
  inversion Ef; subst g9; clear Ef.
  destruct u1, u4.
  exists g1, g4, top1, top4, dl.
  split; [exact El|]. split; [exact Hs1|]. split; [exact Er|]. split; [exact Hs4|].
  split; [symmetry; exact Hl1|].
  unfold finished, CodeGen.set_tempCount. simpl. rewrite code_max_single. simpl instr_args.
  rewrite Ht4, <- Hl1. f_equal. lia.
Qed.

(** A returning [withLHS] of the body shared by [leti] and [set]. *)
Lemma assign_inv (value : Node) (i : Z) (g g' : CodeGen.t) (u : unit) :
  gen_ok (with_lhs (Some (LLocal i)) g) ->
  CodeGen.withLHS (Some (LLocal i)) (node_do value ;; store_local i)%gen g = OK (u, g') ->
  exists (g1 : CodeGen.t) (top : loc),
    node_do value (with_lhs (Some (LLocal i)) g) = OK (tt, g1) /\
    CodeGen.stack g1 = Some top :: CodeGen.stack g /\
    g' = finished g g1 (store_code i top) (Some (LLocal i)) (CodeGen.stack g).
Proof.
  intros Hok. rewrite withLHS_spec. unfold CodeGen.bind.
  destruct (node_do value (with_lhs (Some (LLocal i)) g)) as [[u1 g1]|e] eqn:Ev;
    [|discriminate].
  destruct (node_do_walked value _ _ _ Hok Ev) as [_ [_ Ht _ _ _ [top [Hs _]]]].
  simpl in Hs, Ht. rewrite (store_local_emits i g1 top _ Hs).
  intros H. inversion H; subst; clear H. destruct u1.
  exists g1, top. split; [reflexivity|]. split; [assumption|].
  unfold finished, with_lhs. simpl. now rewrite Ht.
Qed.

Lemma leti_inv (name : string) (value : Node) (g g' : CodeGen.t) (u : unit) :
  gen_ok g ->
  node_do (leti name value) g = OK (u, g') ->
  ~ In name (CodeGen.locals g) /\
  exists (g1 : CodeGen.t) (top : loc),
    node_do value (leti_state name g) = OK (tt, g1) /\
    CodeGen.stack g1 = Some top :: CodeGen.stack g /\
    g' = finished g g1 (store_code (JS.len (CodeGen.locals g)) top)
                  (Some (LLocal (JS.len (CodeGen.locals g)))) (CodeGen.stack g).
Proof.
  intros Hok. simpl.
  destruct (find_local 0 (CodeGen.locals g) name) as [i|] eqn:E; [discriminate|].
  apply find_local_None in E. intros H. split; [assumption|].
  unfold CodeGen.bind at 1, CodeGen.pushLocal in H.
  apply assign_inv in H; [|apply (gen_ok_pushLocal name g Hok E)].
  destruct H as (g1 & top & Ev & Hs & ->). exists g1, top. auto.
Qed.

Lemma set_inv (name : string) (value : Node) (g g' : CodeGen.t) (u : unit) :
  gen_ok g ->
  node_do (set name value) g = OK (u, g') ->
  exists (i : Z) (g1 : CodeGen.t) (top : loc),
    find_local 0 (CodeGen.locals g) name = Some i /\
    node_do value (with_lhs (Some (LLocal i)) g) = OK (tt, g1) /\
    CodeGen.stack g1 = Some top :: CodeGen.stack g /\
    g' = finished g g1 (store_code i top) (Some (LLocal i)) (CodeGen.stack g).
Proof.
  intros Hok. simpl.
  destruct (find_local 0 (CodeGen.locals g) name) as [i|] eqn:E; [|discriminate].
  intros H. apply assign_inv in H.
  - destruct H as (g1 & top & Ev & Hs & ->). exists i, g1, top. auto.
  - apply gen_ok_with_lhs; [assumption|]. apply find_local_range in E. simpl. lia.
Qed.

(** One turn of the loop of a block. *)
Lemma block_loop_inv (expr : Node) (rest : list Node) (result : ref)
      (g g' : CodeGen.t) (u : unit) :
  gen_ok g ->
  block_loop node_do (expr :: rest) result g = OK (u, g') ->
  exists (g1 : CodeGen.t) (top : loc),
    node_do expr g = OK (tt, g1) /\
    CodeGen.stack g1 = Some top :: CodeGen.stack g /\
    block_loop node_do rest (Some top) (with_stack (CodeGen.stack g) g1) = OK (u, g').
Proof.
  intros Hok H. simpl in H.
  apply bind_OK in H as (u1 & g1 & Ee & H).
  destruct (node_do_walked expr _ _ _ Hok Ee) as [_ [_ _ _ _ _ [top [Hs _]]]].
  apply bind_OK in H as (r & g2 & Ep & H).
  rewrite (pop_top _ _ _ Hs) in Ep. inversion Ep; subst r g2; clear Ep.
  destruct u1. exists g1, top. auto.
Qed.

End Inversion.

Section SuccessIsClean.

Lemma find_local_In (from : Z) (names : list string) (x : string) (i : Z) :
  find_local from names x = Some i -> In x names.
Proof.
  intros H. destruct (in_dec string_dec x names) as [Hin|Hnin]; [assumption|].
  apply find_local_None with (from := from) in Hnin. congruence.
Qed.

Lemma clean_add (lhs rhs : Node) :
  clean_when_returning lhs -> clean_when_returning rhs -> clean_when_returning (add lhs rhs).
Proof.
  intros IHl IHr g g' u Hok H.
  destruct (add_inv _ _ _ _ _ Hok H) as (g1 & g4 & top1 & top4 & dl & El & _ & Er & _ & Hd & _).
  destruct (node_do_walked lhs _ _ _ Hok El) as [Hok1 [_ _ Hlo1 _ _ _]].
  destruct (IHl _ _ _ Hok El) as (Hs1 & Hn1 & Hd1).
  pose proof (gen_ok_temp _ (gen_ok_with_stack (CodeGen.stack g) g1 Hok1)) as Hok3.
  destruct (IHr _ _ _ Hok3 Er) as (Hs4 & Hn4 & Hd4).
  simpl in Hs4, Hd4. rewrite Hlo1 in Hs4. simpl.
  rewrite Hs1, Hs4, Hn1, Hn4, Hd4. rewrite Hd in *. simpl in *. now rewrite Hd1.
Qed.

Lemma clean_leti (name : string) (value : Node) :
  clean_when_returning value -> clean_when_returning (leti name value).
Proof.
  intros IH g g' u Hok H.
  destruct (leti_inv _ _ _ _ _ Hok H) as (Hnew & g1 & top & Ev & _).
  apply IH in Ev; [|now apply gen_ok_pushLocal]. exact Ev.
Qed.

Lemma clean_set (name : string) (value : Node) :
  clean_when_returning value -> clean_when_returning (set name value).
Proof.
  intros IH g g' u Hok H.
  destruct (set_inv _ _ _ _ _ Hok H) as (i & g1 & top & Ei & Ev & _).
  pose proof (find_local_range _ _ _ _ Ei) as Hr.
  apply IH in Ev; [|apply gen_ok_with_lhs; [assumption|simpl; lia]].
  destruct Ev as (Hs & Hn & Hd). simpl in *.
  rewrite Hs, Hn, Hd. rewrite (proj2 (declared_In name _) (find_local_In _ _ _ _ Ei)).
  auto.
Qed.

Lemma clean_block_loop (exprs : list Node) :
  Forall clean_when_returning exprs ->
  forall (result : ref) (g g' : CodeGen.t) (u : unit),
    gen_ok g ->
    block_loop node_do exprs result g = OK (u, g') ->
    well_scoped (block exprs) (CodeGen.locals g) = true /\
    forallb no_empty_block exprs = true /\
    forallb (has_dest (is_some (CodeGen.lhs g))) exprs = true.
Proof.
  induction 1 as [|expr rest IHe _ IH]; intros result g g' u Hok H.
  - auto.
  - destruct (block_loop_inv _ _ _ _ _ _ Hok H) as (g1 & top & Ee & _ & Hrest).
    destruct (node_do_walked expr _ _ _ Hok Ee) as [Hok1 [Hl1 _ Hlo1 _ _ _]].
    destruct (IHe _ _ _ Hok Ee) as (Hs & Hn & Hd).
    apply IH in Hrest; [|now apply gen_ok_with_stack].
    destruct Hrest as (Hs' & Hn' & Hd'). simpl in Hs', Hd' |- *.
    rewrite Hlo1 in Hs'. rewrite Hl1 in Hd'.
    rewrite Hs, Hn, Hd, Hn', Hd'. simpl. split; [exact Hs'|auto].
Qed.

Lemma clean_block (body : list Node) :
  Forall clean_when_returning body -> clean_when_returning (block body).
Proof.
  intros Hall g g' u Hok H. destruct body as [|expr rest]; [discriminate H|].
  destruct (clean_block_loop _ Hall None g g' u Hok H) as (Hs & Hn & Hd).
  split; [exact Hs|]. split; [exact Hn|exact Hd].
Qed.

Lemma node_do_clean (n : Node) : clean_when_returning n.
Proof.
  induction n using Node_ind;
    auto using clean_add, clean_leti, clean_set, clean_block.
  - intros g g' u _ _. auto.
  - intros g g' u _ H. simpl in *.
    destruct (find_local 0 (CodeGen.locals g) name) as [i|] eqn:E; [|discriminate].
    rewrite (proj2 (declared_In name _) (find_local_In _ _ _ _ E)). auto.
Qed.

End SuccessIsClean.

(** X8 — [compile] returns a frame exactly for the clean trees: no name
    declared twice, every [vari] and [set] after the [leti] of its name, no
    empty block, and a destination for every addition.  On every other tree
    it throws. *)
Theorem compile_returns_iff_clean (n : Node) :
  (exists f, compile n = OK f) <->
  (NoDup (lets n) /\ well_scoped n [] = true /\
   no_empty_block n = true /\ has_dest false n = true).
Proof.
  split.
  - intros [f H]. apply compile_inv in H as (u & g & E & _).
    destruct (walked_from_new n g u E) as [Hok Hlo].
    destruct (node_do_clean n _ _ _ gen_ok_new E) as (Hs & Hn & Hd).
    split; [|auto]. rewrite <- Hlo. exact (ok_locals g Hok).
  - intros (Hnd & Hs & Hn & Hd).
    destruct (node_do_total n CodeGen.new gen_ok_new Hs Hn Hd) as [(u & g & E)|(x & _ & Hx)].
    + destruct (walked_from_new n g u E) as [Hok _].
      destruct (mkFrame_ok g Hok) as (code' & _ & Hf).
      eexists. unfold compile. rewrite E. exact Hf.
    + simpl in Hx. apply declared_twice_not_NoDup in Hx. contradiction.
Qed.

Lemma compile_returns_iff_clean_witness :
  (exists f, compile example_tree = OK f) /\
  ~ (exists f, compile redeclaring_tree = OK f).
Proof.
  split.
  - apply (proj2 (compile_returns_iff_clean example_tree)).
    split; [|repeat split].
    simpl. repeat constructor; simpl; intuition discriminate.
  - intros H. apply (proj1 (compile_returns_iff_clean redeclaring_tree)) in H.
    destruct H as [Hnd _]. simpl in Hnd.
    inversion Hnd as [|x l Hin _]; subst. apply Hin. now left.
Defined.

Section TemporaryBound.

#[local] Arguments args_max : simpl never.
#[local] Arguments code_max : simpl never.

Lemma temp_depth_nonneg (n : Node) : 0 <= temp_depth n.
Proof.
  induction n using Node_ind; simpl; try lia.
  induction H as [|x l Hx _ IH]; simpl; lia.
Qed.

Lemma args_max_le (args : list ref) (m b : Z) :
  (forall k, In (Some (LTemp k)) args -> k <= b) -> args_max args m <= Z.max m b.
Proof.
  unfold args_max. revert m. induction args as [|[[k|k|k]|] rest IH]; intros m Hb; simpl;
    try lia; try (apply IH; intros; apply Hb; now right).
  specialize (IH (Z.max m k)). assert (k <= b) by (apply Hb; now left).
  assert (Z.max (Z.max m k) b = Z.max m b) by lia.
  rewrite <- H0. apply IH. intros; apply Hb; now right.
Qed.

Lemma store_code_max (i : Z) (top : loc) (m t : Z) :
  temp_below t top -> code_max (store_code i top) m <= Z.max m (t - 1).
Proof.
  intros Ht. destruct top as [k|k|k]; simpl store_code.
  - rewrite code_max_single. apply args_max_le. simpl in *.
    intros k' [H|[H|[]]]; inversion H; subst. lia.
  - destruct (k =? i); [rewrite code_max_nil; lia|].
    rewrite code_max_single. apply args_max_le. simpl.
    intros k' [H|[H|[]]]; inversion H.
  - rewrite code_max_single. apply args_max_le. simpl.
    intros k' [H|[H|[]]]; inversion H.
Qed.

Lemma bounded_add (lhs rhs : Node) :
  temps_bounded lhs -> temps_bounded rhs -> temps_bounded (add lhs rhs).
Proof.
  intros IHl IHr g g' u Hok Hin H.
  destruct (add_inv _ _ _ _ _ Hok H)
    as (g1 & g4 & top1 & top4 & dl & El & Hs1 & Er & Hs4 & Hd & ->).
  destruct (node_do_walked lhs _ _ _ Hok El) as [Hok1 [_ Ht1 _ _ _ _]].
  destruct (IHl _ _ _ Hok Hin El) as (Hm1 & Htop1). specialize (Htop1 _ _ Hs1).
  pose proof (gen_ok_temp _ (gen_ok_with_stack (CodeGen.stack g) g1 Hok1)) as Hok3.
  assert (Hin3 : lhs_in_use (rhs_state (CodeGen.stack g) g1)).
  { unfold lhs_in_use. simpl. lia. }
  destruct (IHr _ _ _ Hok3 Hin3 Er) as (Hm4 & Htop4). specialize (Htop4 _ _ Hs4).
  simpl in Hm4, Htop4. rewrite Ht1 in *.
  assert (Hdl : temp_below (CodeGen.tempCount g) dl).
  { unfold lhs_in_use in Hin. now rewrite Hd in Hin. }
  pose proof (temp_depth_nonneg lhs). pose proof (temp_depth_nonneg rhs).
  unfold finished. cbn [CodeGen.maxTemp CodeGen.stack].
  change (temp_depth (add lhs rhs)) with (Z.max (temp_depth lhs) (1 + temp_depth rhs)).
  split.
  - rewrite code_max_single. simpl instr_args.
    pose proof (args_max_le [Some dl; Some top1; Some top4] (CodeGen.maxTemp g4)
                            (CodeGen.tempCount g)) as Hle.
    assert (Hall : forall k, In (Some (LTemp k)) [Some dl; Some top1; Some top4] ->
                             k <= CodeGen.tempCount g).
    { intros k [E|[E|[E|[]]]]; inversion E; subst; simpl in *; lia. }
    specialize (Hle Hall). eapply Z.le_trans; [exact Hle|]. lia.
  - intros top rest E. inversion E; subst. exact Hdl.
Qed.

Lemma bounded_stored (value : Node) (i : Z) (g0 g g1 : CodeGen.t) (top : loc) :
  temps_bounded value ->
  gen_ok g -> lhs_in_use g ->
  CodeGen.tempCount g = CodeGen.tempCount g0 -> CodeGen.maxTemp g = CodeGen.maxTemp g0 ->
  node_do value g = OK (tt, g1) ->
  CodeGen.stack g1 = Some top :: CodeGen.stack g0 ->
  CodeGen.maxTemp (finished g0 g1 (store_code i top) (Some (LLocal i)) (CodeGen.stack g0))
    <= Z.max (CodeGen.maxTemp g0) (CodeGen.tempCount g0 + temp_depth value - 1) /\
  forall top' rest,
    CodeGen.stack (finished g0 g1 (store_code i top) (Some (LLocal i)) (CodeGen.stack g0))
    = Some top' :: rest ->
    temp_below (CodeGen.tempCount g0) top'.
Proof.
  intros IH Hok Hin Ht Hm Ev Hs.
  destruct (IH _ _ _ Hok Hin Ev) as (Hm1 & Htop). specialize (Htop _ _ Hs).
  rewrite Ht, Hm in *. pose proof (temp_depth_nonneg value).
  unfold finished. cbn [CodeGen.maxTemp CodeGen.stack]. split.
  - eapply Z.le_trans; [exact (store_code_max i top (CodeGen.maxTemp g1) _ Htop)|]. lia.
  - intros top' rest E. inversion E; subst. exact I.
Qed.

Lemma bounded_leti (name : string) (value : Node) :
  temps_bounded value -> temps_bounded (leti name value).
Proof.
  intros IH g g' u Hok Hin H.
  destruct (leti_inv _ _ _ _ _ Hok H) as (Hnew & g1 & top & Ev & Hs & ->).
  apply (bounded_stored value _ g (leti_state name g) g1 top); auto.
  - now apply gen_ok_pushLocal.
  - exact I.
Qed.

Lemma bounded_set (name : string) (value : Node) :
  temps_bounded value -> temps_bounded (set name value).
Proof.
  intros IH g g' u Hok Hin H.
  destruct (set_inv _ _ _ _ _ Hok H) as (i & g1 & top & Ei & Ev & Hs & ->).
  pose proof (find_local_range _ _ _ _ Ei) as Hr.
  apply (bounded_stored value _ g (with_lhs (Some (LLocal i)) g) g1 top); auto.
  - apply gen_ok_with_lhs; [assumption|simpl; lia].
  - exact I.
Qed.

Lemma bounded_block_loop (exprs : list Node) :
  Forall temps_bounded exprs ->
  forall (result : ref) (g g' : CodeGen.t) (u : unit),
    gen_ok g -> lhs_in_use g ->
    (forall top, result = Some top -> temp_below (CodeGen.tempCount g) top) ->
    block_loop node_do exprs result g = OK (u, g') ->
    CodeGen.maxTemp g'
      <= Z.max (CodeGen.maxTemp g) (CodeGen.tempCount g + temp_depth (block exprs) - 1) /\
    forall top rest, CodeGen.stack g' = Some top :: rest ->
                     temp_below (CodeGen.tempCount g) top.
Proof.
  induction 1 as [|expr rest IHe _ IH]; intros result g g' u Hok Hin Hres H.
  - simpl in H. unfold CodeGen.push in H. inversion H; subst; clear H. simpl.
    split; [lia|]. intros top rest E. inversion E; subst. now apply Hres.
  - destruct (block_loop_inv _ _ _ _ _ _ Hok H) as (g1 & top1 & Ee & Hs1 & Hrest).
    destruct (node_do_walked expr _ _ _ Hok Ee) as [Hok1 [Hl1 Ht1 _ _ _ _]].
    destruct (IHe _ _ _ Hok Hin Ee) as (Hm1 & Htop1). specialize (Htop1 _ _ Hs1).
    apply IH in Hrest.
    + unfold with_stack in Hrest. cbn [CodeGen.tempCount CodeGen.maxTemp] in Hrest.
      rewrite Ht1 in Hrest. destruct Hrest as (Hm & Htop).
      split; [|exact Htop].
      change (temp_depth (block (expr :: rest)))
        with (Z.max (temp_depth expr) (temp_depth (block rest))).
      lia.
    + now apply gen_ok_with_stack.
    + unfold lhs_in_use in *. simpl. now rewrite Hl1, Ht1.
    + intros top E. inversion E; subst. simpl. now rewrite Ht1.
Qed.

Lemma bounded_block (body : list Node) :
  Forall temps_bounded body -> temps_bounded (block body).
Proof.
  intros Hall g g' u Hok Hin H. destruct body as [|expr rest]; [discriminate H|].
  apply (bounded_block_loop _ Hall None g g' u Hok Hin); [discriminate|exact H].
Qed.

Lemma node_do_temps_bounded (n : Node) : temps_bounded n.
Proof.
  induction n using Node_ind;
    auto using bounded_add, bounded_leti, bounded_set, bounded_block.
  - intros g g' u _ _ H. simpl in H.
    destruct (find_const 0 (CodeGen.consts g) value);
      unfold CodeGen.bind, CodeGen.pushConst, CodeGen.push in H;
      inversion H; subst; simpl; (split; [lia|]);
      intros top rest E; inversion E; subst; exact I.
  - intros g g' u _ _ H. simpl in H.
    destruct (find_local 0 (CodeGen.locals g) name); [|discriminate].
    unfold CodeGen.push in H. inversion H; subst. simpl. split; [lia|].
    intros top rest E. inversion E; subst. exact I.
Qed.

End TemporaryBound.

(** X9 — The register file of a compiled frame holds the locals and at
    most as many temporaries as additions nest in right operands:
    [locals.length <= size <= locals.length + temp_depth].  A tree without
    [add] needs no temporary at all, and a frame below [2^32] registers can
    always be loaded into a machine. *)
Theorem compiled_size_bounds (n : Node) (f : Frame) :
  compile n = OK f ->
  JS.len (locals f) <= size f <= JS.len (locals f) + temp_depth n /\
  (size f < 2 ^ 32 -> exists vm, VM_new f = Returned vm /\ sized vm).
Proof.
  intros H. apply compile_inv in H as (u & g & E & Hf).
  destruct (walked_from_new n g u E) as [Hok _].
  destruct (mkFrame_ok g Hok) as (code' & _ & Hf'). rewrite Hf' in Hf.
  inversion Hf; subst f; clear Hf. simpl.
  destruct (node_do_temps_bounded n _ _ _ gen_ok_new I E) as (Hm & _). simpl in Hm.
  pose proof (max_temp_index_ge (CodeGen.code g)) as Hge.
  rewrite <- (ok_maxTemp g Hok) in Hge.
  pose proof (temp_depth_nonneg n). pose proof (len_nonneg (CodeGen.locals g)).
  split; [lia|]. intros Hlt. unfold VM_new. simpl size.
  destruct (Z.ltb_spec (JS.len (CodeGen.locals g) + CodeGen.maxTemp g + 1) 0); [lia|].
  destruct (Z.leb_spec (2 ^ 32) (JS.len (CodeGen.locals g) + CodeGen.maxTemp g + 1)); [lia|].
  eexists. split; [reflexivity|]. unfold sized, JS.len. simpl. rewrite repeat_length. lia.
Qed.

Lemma compiled_size_bounds_witness :
  exists f : Frame,
    compile example_tree = OK f /\
    JS.len (locals f) <= size f <= JS.len (locals f) + temp_depth example_tree.
Proof.
  destruct (compile example_tree) as [f|e] eqn:E.
  - exists f. split; [reflexivity|].
    exact (proj1 (compiled_size_bounds example_tree f E)).
  - vm_compute in E. discriminate E.
Defined.

Section Accounting.

Lemma count_ADD_app {A : Type} (a b : list (instr A)) :
  count_ADD (a ++ b) = (count_ADD a + count_ADD b)%nat.
Proof. unfold count_ADD. now rewrite filter_app, length_app. Qed.

Lemma store_code_counts (i : Z) (top : loc) :
  count_ADD (store_code i top) = 0%nat /\ (List.length (store_code i top) <= 1)%nat.
Proof.
  destruct top as [k|k|k]; simpl; try (split; [reflexivity|lia]).
  destruct (k =? i); simpl; split; auto.
Qed.

Lemma accounted_con (value : Value) : accounted (con value).
Proof.
  intros g g' u _ H. simpl in H.
  destruct (find_const 0 (CodeGen.consts g) value) as [i|] eqn:E.
  - unfold CodeGen.push in H. inversion H; subst; clear H. simpl.
    exists [], []. rewrite !app_nil_r. repeat split; auto; try lia.
    + intros x [].
    + intros v [<-|[]] _. apply find_const_Some in E as (_ & c & Hc & Hv).
      rewrite Z.sub_0_r in Hc. apply index_Some_range in Hc as [_ Hin]. eauto.
  - unfold CodeGen.bind, CodeGen.pushConst, CodeGen.push in H.
    inversion H; subst; clear H. simpl.
    exists [], [value]. rewrite app_nil_r. repeat split; auto.
    + apply incl_refl.
    + intros v [<-|[]] Hv. exists value. split; [|assumption].
      apply in_or_app. right. now left.
Qed.

Lemma accounted_vari (name : string) : accounted (vari name).
Proof.
  intros g g' u _ H. simpl in H.
  destruct (find_local 0 (CodeGen.locals g) name); [|discriminate].
  unfold CodeGen.push in H. inversion H; subst; clear H. simpl.
  exists [], []. rewrite !app_nil_r. repeat split; auto.
  - intros x [].
  - intros v [].
Qed.

Lemma accounted_add (lhs rhs : Node) :
  accounted lhs -> accounted rhs -> accounted (add lhs rhs).
Proof.
  intros IHl IHr g g' u Hok H.
  destruct (add_inv _ _ _ _ _ Hok H)
    as (g1 & g4 & top1 & top4 & dl & El & _ & Er & _ & _ & ->).
  destruct (node_do_walked lhs _ _ _ Hok El) as [Hok1 _].
  destruct (IHl _ _ _ Hok El) as (em1 & ex1 & Hc1 & Hp1 & Ha1 & Hl1 & Hi1 & Hn1 & Hv1).
  pose proof (gen_ok_temp _ (gen_ok_with_stack (CodeGen.stack g) g1 Hok1)) as Hok3.
  destruct (IHr _ _ _ Hok3 Er) as (em4 & ex4 & Hc4 & Hp4 & Ha4 & Hl4 & Hi4 & Hn4 & Hv4).
  simpl in Hc4, Hp4.
  exists (em1 ++ em4 ++ [ADD (Some dl) (Some top1) (Some top4)]), (ex1 ++ ex4).
  unfold finished. simpl CodeGen.code. simpl CodeGen.consts. simpl constants.
  split; [rewrite Hc4, Hc1; now rewrite <- !app_assoc|].
  split; [rewrite Hp4, Hp1; now rewrite <- app_assoc|].
  change (count_adds (add lhs rhs)) with (S (count_adds lhs + count_adds rhs)).
  change (count_stores (add lhs rhs)) with (count_stores lhs + count_stores rhs)%nat.
  split; [rewrite !count_ADD_app, Ha1, Ha4; unfold count_ADD; simpl; lia|].
  split; [rewrite !length_app; simpl; lia|].
  split; [apply incl_app; [now apply incl_appl|now apply incl_appr]|].
  split; [rewrite !length_app; lia|].
  intros v Hin Hv. apply in_app_or in Hin as [Hin|Hin].
  - destruct (Hv1 v Hin Hv) as (c & Hc & Hcv). exists c. split; [|assumption].
    rewrite Hp4. apply in_or_app. now left.
  - exact (Hv4 v Hin Hv).
Qed.

Lemma accounted_stored (value : Node) (i : Z) (g0 g g1 : CodeGen.t) (top : loc) :
  accounted value -> gen_ok g ->
  CodeGen.code g = CodeGen.code g0 -> CodeGen.consts g = CodeGen.consts g0 ->
  node_do value g = OK (tt, g1) ->
  exists (em : list (instr ref)) (extra : list Value),
    CodeGen.code g1 ++ store_code i top = CodeGen.code g0 ++ em /\
    CodeGen.consts g1 = CodeGen.consts g0 ++ extra /\
    count_ADD em = count_adds value /\
    (List.length em <= count_adds value + S (count_stores value))%nat /\
    incl extra (constants value) /\
    (List.length extra <= List.length (constants value))%nat /\
    forall v, In v (constants value) -> veq v v = true ->
              exists c, In c (CodeGen.consts g1) /\ veq c v = true.
Proof.
  intros IH Hok Hc0 Hp0 Ev.
  destruct (IH _ _ _ Hok Ev) as (em & ex & Hc & Hp & Ha & Hl & Hi & Hn & Hv).
  destruct (store_code_counts i top) as [Hs0 Hs1].
  exists (em ++ store_code i top), ex.
  split; [rewrite Hc, Hc0; now rewrite <- app_assoc|].
  split; [congruence|].
  split; [rewrite count_ADD_app, Ha, Hs0; lia|].
  split; [rewrite length_app; lia|].
  auto.
Qed.

Lemma accounted_leti (name : string) (value : Node) :
  accounted value -> accounted (leti name value).
Proof.
  intros IH g g' u Hok H.
  destruct (leti_inv _ _ _ _ _ Hok H) as (Hnew & g1 & top & Ev & _ & ->).
  apply (accounted_stored value (JS.len (CodeGen.locals g)) g _ g1 top IH) in Ev;
    [exact Ev|now apply gen_ok_pushLocal|reflexivity|reflexivity].
Qed.

Lemma accounted_set (name : string) (value : Node) :
  accounted value -> accounted (set name value).
Proof.
  intros IH g g' u Hok H.
  destruct (set_inv _ _ _ _ _ Hok H) as (i & g1 & top & Ei & Ev & _ & ->).
  pose proof (find_local_range _ _ _ _ Ei) as Hr.
  apply (accounted_stored value i g _ g1 top IH) in Ev;
    [exact Ev|apply gen_ok_with_lhs; [assumption|simpl; lia]|reflexivity|reflexivity].
Qed.

Lemma accounted_block_loop (exprs : list Node) :
  Forall accounted exprs ->
  forall (result : ref) (g g' : CodeGen.t) (u : unit),
    gen_ok g ->
    block_loop node_do exprs result g = OK (u, g') ->
    exists (em : list (instr ref)) (extra : list Value),
      CodeGen.code g' = CodeGen.code g ++ em /\
      CodeGen.consts g' = CodeGen.consts g ++ extra /\
      count_ADD em = count_adds (block exprs) /\
      (List.length em <= count_adds (block exprs) + count_stores (block exprs))%nat /\
      incl extra (constants (block exprs)) /\
      (List.length extra <= List.length (constants (block exprs)))%nat /\
      forall v, In v (constants (block exprs)) -> veq v v = true ->
                exists c, In c (CodeGen.consts g') /\ veq c v = true.
Proof.
  induction 1 as [|expr rest IHe _ IH]; intros result g g' u Hok H.
  - simpl in H. unfold CodeGen.push in H. inversion H; subst; clear H. simpl.
    exists [], []. rewrite !app_nil_r. repeat split; auto.
    + intros x [].
    + intros v [].
  - destruct (block_loop_inv _ _ _ _ _ _ Hok H) as (g1 & top1 & Ee & _ & Hrest).
    destruct (node_do_walked expr _ _ _ Hok Ee) as [Hok1 _].
    destruct (IHe _ _ _ Hok Ee) as (em1 & ex1 & Hc1 & Hp1 & Ha1 & Hl1 & Hi1 & Hn1 & Hv1).
    apply IH in Hrest; [|now apply gen_ok_with_stack].
    destruct Hrest as (em & ex & Hc & Hp & Ha & Hl & Hi & Hn & Hv).
    simpl in Hc, Hp.
    exists (em1 ++ em), (ex1 ++ ex).
    change (count_adds (block (expr :: rest)))
      with (count_adds expr + count_adds (block rest))%nat.
    change (count_stores (block (expr :: rest)))
      with (count_stores expr + count_stores (block rest))%nat.
    change (constants (block (expr :: rest)))
      with (constants expr ++ constants (block rest)).
    split; [rewrite Hc, Hc1; now rewrite <- app_assoc|].
    split; [rewrite Hp, Hp1; now rewrite <- app_assoc|].
    split; [rewrite count_ADD_app; lia|].
    split; [rewrite length_app; lia|].
    split; [apply incl_app; [now apply incl_appl|now apply incl_appr]|].
    split; [rewrite !length_app; lia|].
    intros v Hin Hvv. apply in_app_or in Hin as [Hin|Hin].
    + destruct (Hv1 v Hin Hvv) as (c & Hcin & Hcv). exists c. split; [|assumption].
      rewrite Hp. apply in_or_app. now left.
    + exact (Hv v Hin Hvv).
Qed.

Lemma accounted_block (body : list Node) : Forall accounted body -> accounted (block body).
Proof.
  intros Hall g g' u Hok H. destruct body as [|expr rest]; [discriminate H|].
  exact (accounted_block_loop _ Hall None g g' u Hok H).
Qed.

Lemma node_do_accounted (n : Node) : accounted n.
Proof.
  induction n using Node_ind;
    auto using accounted_con, accounted_vari, accounted_add, accounted_leti,
      accounted_set, accounted_block.
Qed.

Lemma resolve_code_counts (nl : Z) (c : list (instr ref)) (c' : list (instr Z)) :
  CodeGen.resolve_code nl c = OK c' ->
  count_ADD c' = count_ADD c /\ List.length c' = List.length c.
Proof.
  revert c'. induction c as [|i rest IH]; intros c'; simpl.
  - intros H. inversion H. auto.
  - destruct (CodeGen.resolve_instr nl i) as [j|] eqn:Ei; [|discriminate].
    destruct (CodeGen.resolve_code nl rest) as [rest'|] eqn:Er; [|discriminate].
    intros H. inversion H; subst. destruct (IH _ eq_refl) as [Ha Hl].
    assert (Hj : is_ADD j = is_ADD i).
    { destruct i as [a b|a k|a b c0]; simpl in Ei.
      - destruct (CodeGen.resolve nl a), (CodeGen.resolve nl b); inversion Ei; reflexivity.
      - destruct (CodeGen.resolve nl a), (CodeGen.resolve nl k); inversion Ei; reflexivity.
      - destruct (CodeGen.resolve nl a), (CodeGen.resolve nl b), (CodeGen.resolve nl c0);
          inversion Ei; reflexivity. }
    unfold count_ADD in *. simpl. rewrite Hj. destruct (is_ADD i); simpl; lia.
Qed.

End Accounting.

(** X10 — The code of a compiled frame holds exactly one [ADD] for every
    [add] node of the tree and at most one more instruction (a [LOADK] or a
    [MOVE]) for every [leti] and [set]; [con] and [vari] emit nothing. *)
Theorem compiled_code_counts (n : Node) (f : Frame) :
  compile n = OK f ->
  count_ADD (code f) = count_adds n /\
  (count_adds n <= List.length (code f) <= count_adds n + count_stores n)%nat.
Proof.
  intros H. apply compile_inv in H as (u & g & E & Hf).
  destruct (walked_from_new n g u E) as [Hok _].
  destruct (mkFrame_ok g Hok) as (code' & Hcode & Hf'). rewrite Hf' in Hf.
  inversion Hf; subst f; clear Hf. simpl.
  destruct (node_do_accounted n _ _ _ gen_ok_new E) as (em & ex & Hc & _ & Ha & Hl & _).
  simpl in Hc. subst em.
  destruct (resolve_code_counts _ _ _ Hcode) as [Ha' Hl'].
  rewrite Ha', Hl', Ha. split; [reflexivity|]. split; [|assumption].
  rewrite <- Ha. unfold count_ADD. apply filter_length_le.
Qed.

Lemma compiled_code_counts_witness :
  exists f : Frame,
    compile example_tree = OK f /\ count_ADD (code f) = 2%nat /\
    (2 <= List.length (code f) <= 4)%nat.
Proof.
  destruct (compile example_tree) as [f|e] eqn:E.
  - exists f. split; [reflexivity|].
    exact (compiled_code_counts example_tree f E).
  - vm_compute in E. discriminate E.
Defined.

(** X11 — The constant pool of a compiled frame is made of values of the
    [con] nodes of the tree and is never longer than their number; every
    [con] value that equals itself under [veq] has an entry equal to it. *)
Theorem compiled_pool_contents (n : Node) (f : Frame) :
  compile n = OK f ->
  incl (consts f) (constants n) /\
  (List.length (consts f) <= List.length (constants n))%nat /\
  forall v, In v (constants n) -> veq v v = true ->
            exists c, In c (consts f) /\ veq c v = true.
Proof.
  intros H. apply compile_inv in H as (u & g & E & Hf).
  destruct (walked_from_new n g u E) as [Hok _].
  destruct (mkFrame_ok g Hok) as (code' & _ & Hf'). rewrite Hf' in Hf.
  inversion Hf; subst f; clear Hf. simpl.
  destruct (node_do_accounted n _ _ _ gen_ok_new E) as (em & ex & _ & Hp & _ & _ & Hi & Hn & Hv).
  simpl in Hp. subst ex. auto.
Qed.

Lemma compiled_pool_contents_witness :
  exists f : Frame,
    compile shared_constant_tree = OK f /\
    (List.length (consts f) <= 2)%nat /\
    exists c, In c (consts f) /\ veq c two = true.
Proof.
  destruct (compile shared_constant_tree) as [f|e] eqn:E.
  - exists f. split; [reflexivity|].
    destruct (compiled_pool_contents shared_constant_tree f E) as (_ & Hn & Hv).
    split; [exact Hn|]. apply Hv; [now left|vm_compute; reflexivity].
  - vm_compute in E. discriminate E.
Defined.

(** * Values, lookups and encodings *)

(** X12 — [veq] is symmetric and transitive, unequal across types, and
    fails to be reflexive on exactly one value: the number NaN. *)
Theorem veq_is_partial_equivalence :
  (forall a b, veq a b = veq b a) /\
  (forall a b c, veq a b = true -> veq b c = true -> veq a c = true) /\
  (forall a b, type_of a <> type_of b -> veq a b = false) /\
  (forall v, veq v v = false <-> v = Num S754_nan).
Proof.
  split; [|split; [|split]].
  - intros a b. destruct (veq a b) eqn:E1, (veq b a) eqn:E2; auto.
    + apply veq_sym in E1. congruence.
    + apply veq_sym in E2. congruence.
  - exact veq_trans.
  - intros [x|x|] [y|y|]; simpl; congruence.
  - intros [x|x|]; simpl.
    + split.
      * intros H. destruct x as [s|s| |s m e]; try reflexivity; exfalso.
        -- unfold SFeqb in H. simpl in H. discriminate.
        -- assert (Ht : SFeqb (S754_infinity s) (S754_infinity s) = true)
             by (apply SFeqb_same; reflexivity). congruence.
        -- assert (Ht : SFeqb (S754_finite s m e) (S754_finite s m e) = true)
             by (apply SFeqb_same; simpl; auto). congruence.
      * intros H. inversion H. reflexivity.
    + split; [destruct x; discriminate|discriminate].
    + split; discriminate.
Qed.

Lemma find_const_first (from : Z) (cs : list Value) (v : Value) (i : Z) :
  find_const from cs v = Some i ->
  forall j z, from <= j < i -> JS.index cs (j - from) = Some z -> veq z v = false.
Proof.
  revert from. induction cs as [|c rest IH]; intros from; simpl; [discriminate|].
  destruct (veq c v) eqn:E.
  - intros H j z Hj. inversion H. lia.
  - intros H j z Hj Hz. destruct (Z.eq_dec j from) as [->|Hne].
    + rewrite Z.sub_diag in Hz. unfold JS.index in Hz. simpl in Hz. congruence.
    + apply (IH (from + 1) H j z); [lia|].
      unfold JS.index in *. destruct (Z.ltb_spec (j - from) 0); [discriminate|].
      destruct (Z.ltb_spec (j - (from + 1)) 0); [lia|].
      replace (Z.to_nat (j - from)) with (S (Z.to_nat (j - (from + 1)))) in Hz by lia.
      exact Hz.
Qed.

Lemma find_const_none_iff (from : Z) (cs : list Value) (v : Value) :
  find_const from cs v = None <-> forall c, In c cs -> veq c v = false.
Proof.
  split; [apply find_const_None|].
  revert from. induction cs as [|c rest IH]; intros from H; simpl; [reflexivity|].
  rewrite (H c (or_introl eq_refl)). apply IH. intros c' Hc'. apply H. now right.
Qed.

(** X13 — [con] never throws and emits no instruction: it only pushes a
    constant reference.  When no pool entry equals the value under [veq] it
    appends the value and refers to the new last entry (so NaN is appended
    every time); otherwise the pool is unchanged and the reference is to the
    first entry that equals the value. *)
Theorem con_refers_to_first_match (g : CodeGen.t) (v : Value) :
  exists (g' : CodeGen.t) (c : Z),
    node_do (con v) g = OK (tt, g') /\
    CodeGen.stack g' = Some (LConst c) :: CodeGen.stack g /\
    CodeGen.code g' = CodeGen.code g /\ CodeGen.locals g' = CodeGen.locals g /\
    ((forall x, In x (CodeGen.consts g) -> veq x v = false) ->
     CodeGen.consts g' = CodeGen.consts g ++ [v] /\ - c - 1 = JS.len (CodeGen.consts g)) /\
    ((exists x, In x (CodeGen.consts g) /\ veq x v = true) ->
     CodeGen.consts g' = CodeGen.consts g /\
     exists y, JS.index (CodeGen.consts g) (- c - 1) = Some y /\ veq y v = true /\
               forall j z, 0 <= j < - c - 1 ->
                           JS.index (CodeGen.consts g) j = Some z -> veq z v = false).
Proof.
  simpl. destruct (find_const 0 (CodeGen.consts g) v) as [i|] eqn:E.
  - eexists. exists (- i - 1). split; [reflexivity|]. simpl.
    split; [reflexivity|]. split; [reflexivity|]. split; [reflexivity|]. split.
    + intros Hnone. apply find_const_none_iff with (from := 0) in Hnone. congruence.
    + intros _. split; [reflexivity|].
      destruct (find_const_Some _ _ _ _ E) as (_ & y & Hy & Hv).
      rewrite Z.sub_0_r in Hy. exists y.
      replace (- (- i - 1) - 1) with i by lia.
      split; [exact Hy|]. split; [exact Hv|].
      intros j z Hj Hz. apply (find_const_first 0 _ _ _ E j z); [lia|].
      now rewrite Z.sub_0_r.
  - eexists. exists (- JS.len (CodeGen.consts g) - 1). split; [reflexivity|]. simpl.
    split; [reflexivity|]. split; [reflexivity|]. split; [reflexivity|]. split.
    + intros _. split; [reflexivity|lia].
    + intros (x & Hx & Hv). rewrite (find_const_None _ _ _ E x Hx) in Hv. discriminate.
Qed.

Lemma con_refers_to_first_match_witness :
  exists (g' : CodeGen.t) (c : Z),
    node_do (con (Num S754_nan))
            (CodeGen.mk [Num S754_nan] [] [] 0 (-1) [] None) = OK (tt, g') /\
    CodeGen.consts g' = [Num S754_nan; Num S754_nan] /\ - c - 1 = 1.
Proof.
  destruct (con_refers_to_first_match (CodeGen.mk [Num S754_nan] [] [] 0 (-1) [] None)
                                      (Num S754_nan))
    as (g' & c & E & _ & _ & _ & Happ & _).
  exists g', c. split; [exact E|]. apply Happ.
  intros x [<-|[]]. reflexivity.
Defined.

(** X14 — The reference [pushConst] returns is [-l - 1] for the old pool
    length [l], and a machine over a frame with the new pool reads the
    pushed value back through it, with [getConst] and with [getVal]. *)
Theorem pushConst_getConst_round_trip (g g' : CodeGen.t) (v : Value) (c : Z) (vm : VM) :
  CodeGen.pushConst v g = OK (c, g') ->
  consts (fn vm) = CodeGen.consts g' ->
  c = - JS.len (CodeGen.consts g) - 1 /\ c < 0 /\
  getConst c vm = (Returned (Val v), vm) /\
  getVal c vm = (Returned (Val v), vm).
Proof.
  unfold CodeGen.pushConst. intros H Hc. inversion H; subst; clear H. simpl in Hc.
  pose proof (len_nonneg (CodeGen.consts g)) as Hn.
  assert (Hget : getConst (- JS.len (CodeGen.consts g) - 1) vm = (Returned (Val v), vm)).
  { unfold getConst, bind.
    destruct (testConstIndex_cases (- JS.len (CodeGen.consts g) - 1) vm) as [[_ E]|[Hbad _]].
    - rewrite E. unfold ret, read_const. rewrite Hc.
      replace (- (- JS.len (CodeGen.consts g) - 1) - 1) with (JS.len (CodeGen.consts g)) by lia.
      unfold JS.index, JS.len.
      destruct (Z.ltb_spec (Z.of_nat (List.length (CodeGen.consts g))) 0); [lia|].
      rewrite Nat2Z.id, nth_error_app2, Nat.sub_diag by lia. reflexivity.
    - rewrite Hc, len_app, len_single in Hbad. lia. }
  repeat split; auto; try lia.
  unfold getVal. destruct (Z.ltb_spec (- JS.len (CodeGen.consts g) - 1) 0); [assumption|lia].
Qed.

Lemma pushConst_getConst_round_trip_witness :
  getVal (-3) (mkVM (mkFrameRecord 0 0 2 [two; Bool true; Nil] [] []) [Null; Null] 0)
  = (Returned (Val Nil),
     mkVM (mkFrameRecord 0 0 2 [two; Bool true; Nil] [] []) [Null; Null] 0).
Proof.
  exact (proj2 (proj2 (proj2
    (pushConst_getConst_round_trip
       (CodeGen.mk [two; Bool true] [] [] 0 (-1) [] None) _ Nil (-3)
       (mkVM (mkFrameRecord 0 0 2 [two; Bool true; Nil] [] []) [Null; Null] 0)
       eq_refl eq_refl)))).
Defined.

Lemma find_local_first (from : Z) (names : list string) (x : string) (i : Z) :
  find_local from names x = Some i ->
  JS.index names (i - from) = Some x /\
  forall j, from <= j < i -> JS.index names (j - from) <> Some x.
Proof.
  revert from. induction names as [|y rest IH]; intros from; simpl; [discriminate|].
  destruct (String.eqb_spec y x) as [->|Hne].
  - intros H. inversion H; subst. rewrite Z.sub_diag. split; [reflexivity|]. intros; lia.
  - intros H. pose proof (find_local_range _ _ _ _ H) as Hr.
    destruct (IH _ H) as [Hi Hfirst]. split.
    + unfold JS.index in *. destruct (Z.ltb_spec (i - (from + 1)) 0); [discriminate|].
      destruct (Z.ltb_spec (i - from) 0); [lia|].
      replace (Z.to_nat (i - from)) with (S (Z.to_nat (i - (from + 1)))) by lia.
      exact Hi.
    + intros j Hj. destruct (Z.eq_dec j from) as [->|Hjne].
      * rewrite Z.sub_diag. unfold JS.index. simpl. congruence.
      * specialize (Hfirst j). unfold JS.index in *.
        destruct (Z.ltb_spec (j - from) 0); [discriminate|].
        destruct (Z.ltb_spec (j - (from + 1)) 0); [lia|].
        replace (Z.to_nat (j - from)) with (S (Z.to_nat (j - (from + 1)))) by lia.
        apply Hfirst. lia.
Qed.

(** X15 — A [vari] of a declared name pushes the local whose index holds
    that name (the first one) and changes nothing else; a [vari] or a [set]
    of a name that is not declared throws [Variable ... is not defined], the
    [set] before it generates its value. *)
Theorem variable_lookup (g : CodeGen.t) (name : string) :
  (In name (CodeGen.locals g) ->
   exists i,
     node_do (vari name) g = OK (tt, with_stack (Some (LLocal i) :: CodeGen.stack g) g) /\
     JS.index (CodeGen.locals g) i = Some name /\
     forall j, 0 <= j < i -> JS.index (CodeGen.locals g) j <> Some name) /\
  (~ In name (CodeGen.locals g) ->
   node_do (vari name) g = Err (NotDefined name) /\
   forall value, node_do (set name value) g = Err (NotDefined name)).
Proof.
  split.
  - intros Hin. destruct (find_local_Some 0 _ _ Hin) as [i E].
    exists i. simpl. rewrite E. split; [reflexivity|].
    destruct (find_local_first _ _ _ _ E) as [Hi Hfirst]. rewrite Z.sub_0_r in Hi.
    split; [exact Hi|]. intros j Hj. specialize (Hfirst j). rewrite Z.sub_0_r in Hfirst.
    apply Hfirst. lia.
  - intros Hnin. apply find_local_None with (from := 0) in Hnin. simpl.
    rewrite Hnin. auto.
Qed.

Lemma variable_lookup_witness :
  node_do (vari "b") (CodeGen.mk [] [] ["a"%string; "b"%string] 0 (-1) [] None)
  = OK (tt, CodeGen.mk [] [] ["a"%string; "b"%string] 0 (-1) [Some (LLocal 1)] None) /\
  node_do (set "c" (block [])) (CodeGen.mk [] [] ["a"%string; "b"%string] 0 (-1) [] None)
  = Err (NotDefined "c").
Proof.
  split.
  - destruct (proj1 (variable_lookup
                       (CodeGen.mk [] [] ["a"%string; "b"%string] 0 (-1) [] None) "b"))
      as (i & E & Hi & _).
    + simpl. auto.
    + assert (i = 1).
      { apply index_Some_range in Hi as Hr. destruct Hr as [Hr _].
        unfold JS.len in Hr. simpl in Hr.
        assert (Hcases : i = 0 \/ i = 1) by lia.
        destruct Hcases as [->| ->]; [vm_compute in Hi; discriminate Hi|reflexivity]. }
      subst i. exact E.
  - apply (proj2 (variable_lookup
                    (CodeGen.mk [] [] ["a"%string; "b"%string] 0 (-1) [] None) "c")).
    simpl. intros [H|[H|[]]]; discriminate H.
Defined.

(** X16 — [mkFrame] keeps the three kinds of location apart: a local
    resolves below the number of locals, a temporary at or above it, a
    constant below zero; two valid locations that resolve to the same
    operand are the same location. *)
Theorem resolve_keeps_locations_apart (nl nc : Z) (l1 l2 : loc) (z : Z) :
  0 <= nl ->
  valid_loc nl nc l1 -> valid_loc nl nc l2 ->
  CodeGen.resolve nl (Some l1) = OK z ->
  (CodeGen.resolve nl (Some l2) = OK z -> l1 = l2) /\
  match l1 with
  | LLocal _ => 0 <= z < nl
  | LTemp _ => nl <= z
  | LConst _ => z < 0
  end.
Proof.
  intros Hnl H1 H2 E1. split.
  - intros E2. destruct l1 as [k1|k1|k1], l2 as [k2|k2|k2]; simpl in *;
      inversion E1; inversion E2; subst; try (exfalso; lia); f_equal; lia.
  - destruct l1 as [k1|k1|k1]; simpl in *; inversion E1; subst; lia.
Qed.

Lemma resolve_keeps_locations_apart_witness :
  CodeGen.resolve 2 (Some (LTemp 0)) = OK 2 /\ 2 <= 2.
Proof.
  split; [reflexivity|].
  refine (proj2 (resolve_keeps_locations_apart 2 0 (LTemp 0) (LTemp 0) 2 _ _ _ eq_refl));
    simpl; lia.
Defined.

(** X17 — A returning walk is balanced: it restores the destination and
    the temporary counter, leaves the stack one location higher, declares
    exactly the [leti] names of the tree after the earlier locals, only
    appends to the code, and keeps the invariant of the generator. *)
Theorem walk_is_balanced (n : Node) (g g' : CodeGen.t) (u : unit) :
  gen_ok g ->
  node_do n g = OK (u, g') ->
  gen_ok g' /\
  CodeGen.lhs g' = CodeGen.lhs g /\
  CodeGen.tempCount g' = CodeGen.tempCount g /\
  (exists top, CodeGen.stack g' = Some top :: CodeGen.stack g) /\
  CodeGen.locals g' = CodeGen.locals g ++ lets n /\
  exists em, CodeGen.code g' = CodeGen.code g ++ em.
Proof.
  intros Hok H. destruct (node_do_walked n _ _ _ Hok H) as [Hok' [Hl Ht Hlo _ Hco [top [Hs _]]]].
  split; [exact Hok'|]. split; [exact Hl|]. split; [exact Ht|].
  split; [exists top; exact Hs|]. split; [exact Hlo|exact Hco].
Qed.

Lemma walk_is_balanced_witness :
  exists g' : CodeGen.t,
    node_do example_tree CodeGen.new = OK (tt, g') /\
    CodeGen.lhs g' = None /\ CodeGen.tempCount g' = 0 /\
    CodeGen.locals g' = ["a"%string; "b"%string].
Proof.
  destruct (node_do example_tree CodeGen.new) as [[[] g']|e] eqn:E.
  - exists g'. split; [reflexivity|].
    destruct (walk_is_balanced example_tree CodeGen.new g' tt gen_ok_new E)
      as (_ & Hl & Ht & _ & Hlo & _).
    split; [exact Hl|]. split; [exact Ht|exact Hlo].
  - vm_compute in E. discriminate E.
Defined.

(** X18 — The environment: [get] returns what the last [set] of the name
    stored, a [set] of another name does not change it, a name never set
    throws [Variable ... is not defined], and a [set] never makes a second
    entry for a name. *)
Theorem Env_get_after_set {V : Type} (variables : Env.t V) (name : string) (value : V) :
  Env.get name (Env.set name value variables) = Env.Found (Some value) /\
  (forall other, other <> name ->
     Env.get other (Env.set name value variables) = Env.get other variables) /\
  Env.get name (@Env.new V) = Env.NotDefinedError name /\
  (NoDup (map fst variables) -> NoDup (map fst (Env.set name value variables))) /\
  (Env.has name variables = true ->
   map fst (Env.set name value variables) = map fst variables).
Proof.
  assert (Hsame : forall vars : Env.t V,
             Env.has name (Env.set name value vars) = true /\
             Env.lookup name (Env.set name value vars) = Some value).
  { induction vars as [|[k v] rest [IH1 IH2]]; simpl.
    - rewrite String.eqb_refl. auto.
    - destruct (String.eqb_spec k name) as [->|Hne]; simpl.
      + rewrite String.eqb_refl. auto.
      + destruct (String.eqb_spec k name); [contradiction|]. auto. }
  assert (Hother : forall other (vars : Env.t V), other <> name ->
             Env.has other (Env.set name value vars) = Env.has other vars /\
             Env.lookup other (Env.set name value vars) = Env.lookup other vars).
  { intros other vars Hne. induction vars as [|[k v] rest [IH1 IH2]]; simpl.
    - destruct (String.eqb_spec name other); [congruence|]. auto.
    - destruct (String.eqb_spec k name) as [->|Hk]; simpl.
      + destruct (String.eqb_spec name other); [congruence|]. auto.
      + rewrite IH1, IH2. auto. }
  assert (Hkeys : forall vars : Env.t V,
             (Env.has name vars = true ->
              map fst (Env.set name value vars) = map fst vars) /\
             (Env.has name vars = false ->
              map fst (Env.set name value vars) = map fst vars ++ [name])).
  { induction vars as [|[k v] rest [IH1 IH2]]; simpl.
    - split; [discriminate|reflexivity].
    - destruct (String.eqb_spec k name) as [->|Hk]; simpl.
      + split; [reflexivity|discriminate].
      + split; intros H; f_equal; auto. }
  assert (Hhas : forall vars : Env.t V, Env.has name vars = true <-> In name (map fst vars)).
  { induction vars as [|[k v] rest IH]; simpl.
    - split; [discriminate|contradiction].
    - destruct (String.eqb_spec k name) as [->|Hk]; simpl; [tauto|].
      rewrite IH. split; [auto|]. intros [H|H]; [contradiction|assumption]. }
  split; [|split; [|split; [|split]]].
  - unfold Env.get. destruct (Hsame variables) as [-> ->]. reflexivity.
  - intros other Hne. unfold Env.get. destruct (Hother other variables Hne) as [-> ->].
    reflexivity.
  - reflexivity.
  - intros Hnd. destruct (Env.has name variables) eqn:E.
    + now rewrite (proj1 (Hkeys variables) E).
    + rewrite (proj2 (Hkeys variables) E). apply NoDup_app; auto.
      * constructor; [simpl; tauto|constructor].
      * intros x Hx [<-|[]]. apply Hhas in Hx. congruence.
  - apply Hkeys.
Qed.

(** X19 — The display text of a node exists only for trees without
    constants and additions: [toString] of a [con] or an [add] throws (they
    are made without a display function), and so does the text of every
    node that holds one; every other tree has a text. *)
Theorem toString_needs_no_con_no_add (n : Node) :
  node_toString n <> None <-> renderable n = true.
Proof.
  induction n as [v|l r _ _|name v IH|name|name v IH|body IH] using Node_ind; simpl.
  - split; [intros H; exfalso; now apply H|discriminate].
  - split; [intros H; exfalso; now apply H|discriminate].
  - rewrite <- IH. destruct (node_toString v); split; congruence.
  - split; [reflexivity|discriminate].
  - rewrite <- IH. destruct (node_toString v); split; congruence.
  - induction IH as [|x rest Hx _ IHrest]; simpl; [split; [reflexivity|discriminate]|].
    destruct (node_toString x) eqn:Ex.
    + assert (Hrx : renderable x = true) by (apply Hx; discriminate).
      rewrite Hrx. simpl. rewrite <- IHrest.
      match goal with
      | |- context [match ?T with Some ss => Some (_ :: ss) | None => None end] =>
          destruct T
      end; split; intros H; try discriminate; exfalso; now apply H.
    + assert (Hrx : renderable x = false).
      { destruct (renderable x); [|reflexivity]. exfalso. now apply (proj2 Hx eq_refl). }
      rewrite Hrx. simpl. split; [intros H; exfalso; now apply H|discriminate].
Qed.

(** * The generator of the earlier iteration *)

Section EarlierIteration.

Import Iteration3.

Lemma bind3_OK {A B : Type} (m : Iteration3.G A) (k : A -> Iteration3.G B)
      (g : Iteration3.t) (r : B * Iteration3.t) :
  Iteration3.bind m k g = Iteration3.OK r ->
  exists a g1, m g = Iteration3.OK (a, g1) /\ k a g1 = Iteration3.OK r.
Proof.
  unfold Iteration3.bind. destruct (m g) as [[a g1]|e]; [eauto|discriminate].
Qed.

Lemma pop3_inv (g g' : Iteration3.t) (r : ref) :
  Iteration3.pop g = Iteration3.OK (r, g') ->
  exists s, g' = Iteration3.mk (Iteration3.consts g) (Iteration3.code g)
                               (Iteration3.locals g) (Iteration3.tempCount g)
                               (Iteration3.maxTemp g) s (Iteration3.lhs g).
Proof.
  unfold Iteration3.pop. destruct g as [c k l t m s h]. simpl.
  destruct s as [|x rest]; intros H; inversion H; subst; eauto.
Qed.

Lemma withLHS3_inv {A : Type} (i : ref) (fn : Iteration3.G A) (g g' : Iteration3.t) (v : A) :
  Iteration3.withLHS i fn g = Iteration3.OK (v, g') ->
  exists g1,
    fn (Iteration3.mk (Iteration3.consts g) (Iteration3.code g) (Iteration3.locals g)
                      (Iteration3.tempCount g) (Iteration3.maxTemp g)
                      (Iteration3.stack g) i) = Iteration3.OK (v, g1) /\
    g' = Iteration3.mk (Iteration3.consts g1) (Iteration3.code g1) (Iteration3.locals g1)
                       (Iteration3.tempCount g1) (Iteration3.maxTemp g1)
                       (Iteration3.stack g1) (Iteration3.lhs g).
Proof.
  unfold Iteration3.withLHS, Iteration3.bind, Iteration3.get_lhs, Iteration3.set_lhs,
    Iteration3.ret.
  destruct (fn (Iteration3.mk (Iteration3.consts g) (Iteration3.code g)
                              (Iteration3.locals g) (Iteration3.tempCount g)
                              (Iteration3.maxTemp g) (Iteration3.stack g) i))
    as [[v1 g1]|e] eqn:E; [|discriminate].
  intros H. inversion H; subst. eauto.
Qed.

(** The stores of the earlier iteration carry a bare number. *)
Lemma store_local3_inv (i : Z) (g g' : Iteration3.t) (u : unit) :
  Iteration3.store_local i g = Iteration3.OK (u, g') ->
  Iteration3.consts g' = Iteration3.consts g /\
  Iteration3.locals g' = Iteration3.locals g /\
  Iteration3.tempCount g' = Iteration3.tempCount g /\
  Iteration3.maxTemp g' = Iteration3.maxTemp g /\
  exists em, Iteration3.code g' = Iteration3.code g ++ em /\
             Forall (fun ins => is_ADD ins = true \/
                                exists i0 rest, instr_args ins = ARaw i0 :: rest) em.
Proof.
  unfold Iteration3.store_local. intros H.
  apply bind3_OK in H as (v & g1 & Ep & H). apply pop3_inv in Ep as [s ->].
  apply bind3_OK in H as (u1 & g2 & Ee & H).
  unfold Iteration3.push in H. inversion H; subst; clear H. simpl.
  destruct v as [[k|k|k]|]; try discriminate.
  - unfold Iteration3.emit in Ee. inversion Ee; subst; clear Ee. simpl.
    repeat split; auto. eexists. split; [reflexivity|].
    constructor; [|constructor]. right. simpl. eauto.
  - destruct (k =? i).
    + unfold Iteration3.ret in Ee. inversion Ee; subst; clear Ee. simpl.
      repeat split; auto. exists []. rewrite app_nil_r. split; [reflexivity|constructor].
    + unfold Iteration3.emit in Ee. inversion Ee; subst; clear Ee. simpl.
      repeat split; auto. eexists. split; [reflexivity|].
      constructor; [|constructor]. right. simpl. eauto.
  - unfold Iteration3.emit in Ee. inversion Ee; subst; clear Ee. simpl.
    repeat split; auto. eexists. split; [reflexivity|].
    constructor; [|constructor]. right. simpl. eauto.
Qed.

Lemma assign3_walked (value : Node) (i : Z) (g g' : Iteration3.t) (u : unit) :
  Iteration3.walks value ->
  Iteration3.tempCount g <= Iteration3.maxTemp g ->
  Iteration3.withLHS (Some (LLocal i))
    (Iteration3.bind (Iteration3.node_do value) (fun _ => Iteration3.store_local i)) g
  = Iteration3.OK (u, g') ->
  Iteration3.tempCount g' = Iteration3.tempCount g /\
  Iteration3.maxTemp g' = Z.max (Iteration3.maxTemp g) (Iteration3.tempCount g + temp_depth value) /\
  Iteration3.consts g' = Iteration3.consts g ++ constants value /\
  Iteration3.locals g' = Iteration3.locals g ++ lets value /\
  exists em, Iteration3.code g' = Iteration3.code g ++ em /\
             Forall (fun ins => is_ADD ins = true \/
                                exists i0 rest, instr_args ins = ARaw i0 :: rest) em.
Proof.
  intros IH Hle H. apply withLHS3_inv in H as (g2 & H & ->).
  apply bind3_OK in H as (u1 & g1 & Ev & Es).
  apply IH in Ev; [|exact Hle].
  destruct Ev as [Ht Hm Hc Hl [em [Hco Hall]]].
  cbn [Iteration3.tempCount Iteration3.maxTemp Iteration3.consts Iteration3.locals
       Iteration3.code] in *.
  destruct (store_local3_inv _ _ _ _ Es) as (Hc2 & Hl2 & Ht2 & Hm2 & em2 & Hco2 & Hall2).
  repeat split; try congruence.
  exists (em ++ em2). split; [rewrite Hco2, Hco; now rewrite app_assoc|].
  apply Forall_app. auto.
Qed.

Lemma walks3_add (lhs rhs : Node) :
  Iteration3.walks lhs -> Iteration3.walks rhs -> Iteration3.walks (add lhs rhs).
Proof.
  intros IHl IHr g g' u Hle H. simpl in H.
  apply bind3_OK in H as (u1 & g1 & El & H).
  destruct (IHl _ _ _ Hle El) as [Ht1 Hm1 Hc1 Hl1 [em1 [Hco1 Hall1]]].
  apply bind3_OK in H as (l & g2 & Ep & H). apply pop3_inv in Ep as [s2 ->].
  unfold Iteration3.withTemp in H. cbv zeta in H.
  cbn [Iteration3.tempCount Iteration3.maxTemp Iteration3.consts Iteration3.locals
       Iteration3.code Iteration3.stack Iteration3.lhs] in H.
  match type of H with
  | match ?X with _ => _ end = _ => destruct X as [[u2 g9]|e] eqn:Ef; [|discriminate]
  end.
  inversion H; subst g'; clear H.
  apply bind3_OK in Ef as (u3 & g5 & Ew & Ef).
  apply withLHS3_inv in Ew as (g4 & Er & ->).
  cbn [Iteration3.tempCount Iteration3.maxTemp Iteration3.consts Iteration3.locals
       Iteration3.code Iteration3.stack Iteration3.lhs] in Er.
  pose proof (temp_depth_nonneg lhs). pose proof (temp_depth_nonneg rhs).
  apply IHr in Er.
  2:{ cbn [Iteration3.tempCount Iteration3.maxTemp].
      destruct (Z.gtb_spec (Iteration3.tempCount g1 + 1) (Iteration3.maxTemp g1)); lia. }
  destruct Er as [Ht4 Hm4 Hc4 Hl4 [em4 [Hco4 Hall4]]].
  cbn [Iteration3.tempCount Iteration3.maxTemp Iteration3.consts Iteration3.locals
       Iteration3.code] in *.
  apply bind3_OK in Ef as (r & g6 & Ep & Ef). apply pop3_inv in Ep as [s6 ->].
  unfold Iteration3.bind, Iteration3.get_lhs, Iteration3.emit, Iteration3.push in Ef.
  cbn [Iteration3.tempCount Iteration3.maxTemp Iteration3.consts Iteration3.locals
       Iteration3.code Iteration3.stack Iteration3.lhs] in Ef.
  inversion Ef; subst g9; clear Ef.
  constructor;
    cbn [Iteration3.tempCount Iteration3.maxTemp Iteration3.consts Iteration3.locals
         Iteration3.code constants lets].
  - lia.
  - rewrite Hm4, Hm1, Ht1.
    change (temp_depth (add lhs rhs)) with (Z.max (temp_depth lhs) (1 + temp_depth rhs)).
    destruct (Z.gtb_spec (Iteration3.tempCount g + 1)
                         (Z.max (Iteration3.maxTemp g)
                                (Iteration3.tempCount g + temp_depth lhs))); lia.
  - rewrite Hc4, Hc1. now rewrite app_assoc.
  - rewrite Hl4, Hl1. now rewrite app_assoc.
  - eexists. split; [rewrite Hco4, Hco1; rewrite <- !app_assoc; reflexivity|].
    apply Forall_app. split; [assumption|]. apply Forall_app. split; [assumption|].
    constructor; [now left|constructor].
Qed.

Lemma block_loop3_walked (exprs : list Node) :
  Forall Iteration3.walks exprs ->
  forall (result : ref) (g g' : Iteration3.t) (u : unit),
    Iteration3.tempCount g <= Iteration3.maxTemp g ->
    Iteration3.block_loop Iteration3.node_do exprs result g = Iteration3.OK (u, g') ->
    Iteration3.walked (block exprs) g g'.
Proof.
  induction 1 as [|expr rest IHe _ IH]; intros result g g' u Hle H.
  - simpl in H. unfold Iteration3.push in H. inversion H; subst; clear H.
    constructor;
      cbn [Iteration3.tempCount Iteration3.maxTemp Iteration3.consts Iteration3.locals
           Iteration3.code constants lets temp_depth flat_map fold_right];
      rewrite ?app_nil_r; auto; try lia.
    exists []. rewrite app_nil_r. split; [reflexivity|constructor].
  - simpl in H. apply bind3_OK in H as (u1 & g1 & Ee & H).
    destruct (IHe _ _ _ Hle Ee) as [Ht1 Hm1 Hc1 Hl1 [em1 [Hco1 Hall1]]].
    apply bind3_OK in H as (r & g2 & Ep & H). apply pop3_inv in Ep as [s2 ->].
    pose proof (temp_depth_nonneg expr).
    apply IH in H; [|cbn [Iteration3.tempCount Iteration3.maxTemp]; lia].
    destruct H as [Ht Hm Hc Hl [em [Hco Hall]]].
    cbn [Iteration3.tempCount Iteration3.maxTemp Iteration3.consts Iteration3.locals
         Iteration3.code] in *.
    constructor.
    + congruence.
    + change (temp_depth (block (expr :: rest)))
        with (Z.max (temp_depth expr) (temp_depth (block rest))).
      rewrite Hm, Hm1, Ht1. lia.
    + change (constants (block (expr :: rest)))
        with (constants expr ++ constants (block rest)).
      rewrite Hc, Hc1. now rewrite app_assoc.
    + change (lets (block (expr :: rest))) with (lets expr ++ lets (block rest)).
      rewrite Hl, Hl1. now rewrite app_assoc.
    + exists (em1 ++ em). split; [rewrite Hco, Hco1; now rewrite app_assoc|].
      apply Forall_app. auto.
Qed.

Lemma node_do3_walked (n : Node) : Iteration3.walks n.
Proof.
  induction n as [v|l r IHl IHr|name v IH|name|name v IH|body IH] using Node_ind.
  - intros g g' u Hle H. simpl in H.
    unfold Iteration3.bind, Iteration3.pushConst, Iteration3.push in H.
    inversion H; subst; clear H.
    constructor;
      cbn [Iteration3.tempCount Iteration3.maxTemp Iteration3.consts Iteration3.locals
           Iteration3.code constants lets temp_depth];
      rewrite ?app_nil_r; auto; try lia.
    exists []. rewrite app_nil_r. split; [reflexivity|constructor].
  - now apply walks3_add.
  - intros g g' u Hle H. simpl in H.
    destruct (find_local 0 (Iteration3.locals g) name); [discriminate|].
    unfold Iteration3.bind at 1, Iteration3.pushLocal in H.
    apply assign3_walked in H; [|assumption|exact Hle].
    cbn [Iteration3.tempCount Iteration3.maxTemp Iteration3.consts Iteration3.locals
         Iteration3.code] in H.
    destruct H as (Ht & Hm & Hc & Hl & Hco).
    constructor; auto. simpl. rewrite Hl. now rewrite <- app_assoc.
  - intros g g' u Hle H. simpl in H.
    destruct (find_local 0 (Iteration3.locals g) name); [|discriminate].
    unfold Iteration3.push in H. inversion H; subst; clear H.
    constructor;
      cbn [Iteration3.tempCount Iteration3.maxTemp Iteration3.consts Iteration3.locals
           Iteration3.code constants lets temp_depth];
      rewrite ?app_nil_r; auto; try lia.
    exists []. rewrite app_nil_r. split; [reflexivity|constructor].
  - intros g g' u Hle H. simpl in H.
    destruct (find_local 0 (Iteration3.locals g) name); [|discriminate].
    apply assign3_walked in H; [|assumption|exact Hle].
    destruct H as (Ht & Hm & Hc & Hl & Hco). constructor; auto.
  - intros g g' u Hle H. destruct body as [|expr rest]; [discriminate H|].
    exact (block_loop3_walked _ IH None g g' u Hle H).
Qed.

(** A code that resolves holds no bare number: it is made of [ADD]s. *)
Lemma resolve_code3_only_ADD (nl : Z) (c : list (instr arg)) (c' : list (instr Z)) :
  Forall (fun ins => is_ADD ins = true \/
                     exists i0 rest, instr_args ins = ARaw i0 :: rest) c ->
  Iteration3.resolve_code nl c = Iteration3.OK c' ->
  Forall (fun ins => is_ADD ins = true) c' /\ List.length c' = List.length c.
Proof.
  intros Hall. revert c'. induction Hall as [|i rest Hi _ IH]; intros c'; simpl.
  - intros H. inversion H. auto.
  - destruct (Iteration3.resolve_instr nl i) as [j|] eqn:Ei; [|discriminate].
    destruct (Iteration3.resolve_code nl rest) as [rest'|] eqn:Er; [|discriminate].
    intros H. inversion H; subst. destruct (IH _ eq_refl) as [Hr Hl].
    split; [|simpl; congruence]. constructor; [|assumption].
    destruct i as [a b|a k|a b c0]; simpl in Ei, Hi.
    + destruct Hi as [Hi|(i0 & r0 & Hi)]; [discriminate|]. inversion Hi; subst.
      simpl in Ei. discriminate.
    + destruct Hi as [Hi|(i0 & r0 & Hi)]; [discriminate|]. inversion Hi; subst.
      simpl in Ei. discriminate.
    + destruct (Iteration3.resolve nl a), (Iteration3.resolve nl b),
        (Iteration3.resolve nl c0); inversion Ei; reflexivity.
Qed.

End EarlierIteration.

(** X20 — In the earlier iteration of [src/compiler.js] a frame that
    [compile] returns is made of [ADD] instructions only: [leti] and [set]
    pass the bare register number to [emit] and [mkFrame] throws
    [Unknown type] on it, so no tree that needs a [LOADK] or a [MOVE]
    compiles; a [leti] of a constant never does. *)
Theorem earlier_compile_keeps_only_ADD :
  (forall (n : Node) (f : Frame),
      Iteration3.compile n = Iteration3.OK f ->
      Forall (fun ins => is_ADD ins = true) (code f)) /\
  (forall (name : string) (v : Value),
      Iteration3.compile (leti name (con v)) = Iteration3.Err Iteration3.UnknownType).
Proof.
  split.
  - intros n f H. unfold Iteration3.compile in H.
    destruct (Iteration3.node_do n Iteration3.new) as [[u g]|e] eqn:E; [|discriminate].
    apply node_do3_walked in E as [_ _ _ _ [em [Hco Hall]]]; [|simpl; lia].
    simpl in Hco. subst em. unfold Iteration3.mkFrame in H. cbv zeta in H.
    destruct (Iteration3.resolve_code (JS.len (Iteration3.locals g)) (Iteration3.code g))
      as [code'|] eqn:Ec; [|discriminate].
    inversion H; subst; clear H. simpl.
    exact (proj1 (resolve_code3_only_ADD _ _ _ Hall Ec)).
  - intros name v. reflexivity.
Qed.

Lemma earlier_compile_keeps_only_ADD_witness :
  exists f : Frame,
    Iteration3.compile (leti "a" (add (con two) (con three))) = Iteration3.OK f /\
    Forall (fun ins => is_ADD ins = true) (code f).
Proof.
  destruct (Iteration3.compile (leti "a" (add (con two) (con three)))) as [f|e] eqn:E.
  - exists f. split; [reflexivity|].
    exact (proj1 earlier_compile_keeps_only_ADD _ f E).
  - vm_compute in E. discriminate E.
Defined.

(** X21 — The earlier iteration does not share constants and counts the
    temporaries it reserves: the pool of a returned frame is the list of
    all [con] values in walk order, its locals are the declared names, and
    its size is the number of locals plus the nesting depth of additions in
    right operands (whether or not an instruction uses those temporaries). *)
Theorem earlier_compile_pool_and_size (n : Node) (f : Frame) :
  Iteration3.compile n = Iteration3.OK f ->
  consts f = constants n /\ locals f = lets n /\
  size f = JS.len (locals f) + temp_depth n.
Proof.
  intros H. unfold Iteration3.compile in H.
  destruct (Iteration3.node_do n Iteration3.new) as [[u g]|e] eqn:E; [|discriminate].
  apply node_do3_walked in E as [_ Hm Hc Hl _]; [|simpl; lia].
  simpl in Hm, Hc, Hl. unfold Iteration3.mkFrame in H. cbv zeta in H.
  destruct (Iteration3.resolve_code (JS.len (Iteration3.locals g)) (Iteration3.code g))
    as [code'|]; [|discriminate].
  inversion H; subst; clear H. simpl. pose proof (temp_depth_nonneg n).
  repeat split; auto. rewrite Hm. lia.
Qed.

Lemma earlier_compile_pool_and_size_witness :
  exists f : Frame,
    Iteration3.compile (leti "a" (add (con two) (con two))) = Iteration3.OK f /\
    consts f = [two; two] /\ size f = 2.
Proof.
  destruct (Iteration3.compile (leti "a" (add (con two) (con two)))) as [f|e] eqn:E.
  - exists f. split; [reflexivity|].
    destruct (earlier_compile_pool_and_size _ f E) as (Hc & Hl & Hs).
    split; [exact Hc|]. rewrite Hs, Hl. reflexivity.
  - vm_compute in E. discriminate E.
Defined.
